(** * The PropertyGuru bulk-load cache of the GitHub provider

    A shallow embedding of [github/util_propertyguru.go]: the package-level
    variables become the fields of one [State] record that every function
    threads explicitly, the API client is an oracle that answers a request
    from the log of the requests made so far, and the two [sync.Mutex]
    families are explicit lock bits, so that a [Lock] that can never be
    granted and a [Lock] through a nil pointer are observable outcomes. *)

From Stdlib Require Import ZArith List Lia.
From stdpp Require Import gmap strings list fin_maps.

Local Open Scope Z_scope.

(** ** The types of go-github and net/http the file touches *)

Module http.
(** [http.Response]: only [StatusCode] is ever set by this file. *)
Record Response := { StatusCode : Z }.
Definition StatusNotFound : Z := 404.
End http.

Module github.

(** [github.Team]. [ID] and [Slug] are pointer fields; the accessors
    [GetID] and [GetSlug] give the zero value for a nil field (and for a nil
    [*Team], which the team without fields stands for). [team_Name] stands
    for the attributes that are passed through untouched. *)
Record Team := {
  team_ID : option Z;
  team_Slug : option string;
  team_Name : string
}.

Definition Team_GetID (t : Team) : Z := default 0 (team_ID t).
Definition Team_GetSlug (t : Team) : string := default ""%string (team_Slug t).

(** [github.Repository], with [GetName]. *)
Record Repository := {
  repo_Name : option string;
  repo_FullName : string
}.

Definition Repository_GetName (r : Repository) : string :=
  default ""%string (repo_Name r).

(** [github.Response]: opaque to this file, it is only stored and handed
    back. A nil [*github.Response] is [None]. *)
Record Response := { NextPage : Z; LastPage : Z }.

(** [github.ListOptions]. *)
Record ListOptions := { PerPage : Z; Page : Z }.

(** Go's [error] interface, as far as this file can tell values apart:
    a [*github.ErrorResponse] carrying an [http.Response], or any other
    error of the transport. A nil error is [None]. *)
Inductive error :=
| ErrorResponse (Response : http.Response)
| TransportError (msg : string).

(** One request to the listing API. *)
Inductive ApiCall :=
| CallListTeams (org : string) (opts : ListOptions)
| CallListTeamReposByID (orgID teamID : Z) (opts : ListOptions).

(** [*github.Client], reduced to the two paginated listings of
    [client.Teams]. The remote side may change between two requests: an
    answer is a function of the requests made so far and of the request
    (whatever else decides it, the [ctx] argument included, is part of the
    client at hand). *)
Record Client := {
  ListTeams :
    list ApiCall -> string -> ListOptions ->
    list Team * option Response * option error;
  ListTeamReposByID :
    list ApiCall -> Z -> Z -> ListOptions ->
    list Repository * option Response * option error
}.

End github.

Import github.

(** ** Package-level declarations (lines 20-57) *)

Record PGGetAllTeamsResponse := {
  teams : list Team;
  teams_resp : option Response;
  teams_err : option error
}.

Record PGGetAllTeamReposResponse := {
  repos : list Repository;
  repos_resp : option Response;
  repos_err : option error
}.

Definition pgGithubOrgName : string := "propertyguru".
Definition pgGithubOrgId : Z := 1661612.

(** [sync.Mutex]; its zero value is the unlocked mutex. *)
Inductive Mutex := Unlocked | Locked.

(** The mutable package state. [pgMutexInitializeLocalDataTeamRepos] maps a
    team identifier to a pointer to a mutex of its own: the pointer is only
    ever reached through the map, so the map holds the lock bit itself and a
    missing key is the nil pointer. [pgApiCalls] is not a variable of the
    program: it logs every page request, oldest first. *)
Record State := {
  pgGetAllTeamsResponse : PGGetAllTeamsResponse;
  pgGetAllTeamReposResponse : PGGetAllTeamReposResponse;
  pgTeamsByTeamId : gmap Z Team;
  pgTeamsByTeamSlug : gmap string Team;
  pgReposByTeamIdAndRepoName : gmap Z (gmap string Repository);
  pgMutexInitializeLocalDataTeams : Mutex;
  pgDoneGetAllTeams : bool;
  pgMutexInitializeLocalDataTeamRepos : gmap Z Mutex;
  pgDoneGetAllTeamRepos : gmap Z bool;
  pgApiCalls : list ApiCall
}.

(** The state at program start: zero values and empty maps. *)
Definition pgInitialState : State := {|
  pgGetAllTeamsResponse := {| teams := []; teams_resp := None; teams_err := None |};
  pgGetAllTeamReposResponse := {| repos := []; repos_resp := None; repos_err := None |};
  pgTeamsByTeamId := ∅;
  pgTeamsByTeamSlug := ∅;
  pgReposByTeamIdAndRepoName := ∅;
  pgMutexInitializeLocalDataTeams := Unlocked;
  pgDoneGetAllTeams := false;
  pgMutexInitializeLocalDataTeamRepos := ∅;
  pgDoneGetAllTeamRepos := ∅;
  pgApiCalls := []
|}.

(** Assignments to one variable. *)
Definition set_pgGetAllTeamsResponse (r : PGGetAllTeamsResponse) (s : State) : State :=
  {| pgGetAllTeamsResponse := r;
     pgGetAllTeamReposResponse := pgGetAllTeamReposResponse s;
     pgTeamsByTeamId := pgTeamsByTeamId s;
     pgTeamsByTeamSlug := pgTeamsByTeamSlug s;
     pgReposByTeamIdAndRepoName := pgReposByTeamIdAndRepoName s;
     pgMutexInitializeLocalDataTeams := pgMutexInitializeLocalDataTeams s;
     pgDoneGetAllTeams := pgDoneGetAllTeams s;
     pgMutexInitializeLocalDataTeamRepos := pgMutexInitializeLocalDataTeamRepos s;
     pgDoneGetAllTeamRepos := pgDoneGetAllTeamRepos s;
     pgApiCalls := pgApiCalls s |}.

Definition set_pgGetAllTeamReposResponse (r : PGGetAllTeamReposResponse) (s : State) : State :=
  {| pgGetAllTeamsResponse := pgGetAllTeamsResponse s;
     pgGetAllTeamReposResponse := r;
     pgTeamsByTeamId := pgTeamsByTeamId s;
     pgTeamsByTeamSlug := pgTeamsByTeamSlug s;
     pgReposByTeamIdAndRepoName := pgReposByTeamIdAndRepoName s;
     pgMutexInitializeLocalDataTeams := pgMutexInitializeLocalDataTeams s;
     pgDoneGetAllTeams := pgDoneGetAllTeams s;
     pgMutexInitializeLocalDataTeamRepos := pgMutexInitializeLocalDataTeamRepos s;
     pgDoneGetAllTeamRepos := pgDoneGetAllTeamRepos s;
     pgApiCalls := pgApiCalls s |}.

Definition set_pgTeamsByTeamId (m : gmap Z Team) (s : State) : State :=
  {| pgGetAllTeamsResponse := pgGetAllTeamsResponse s;
     pgGetAllTeamReposResponse := pgGetAllTeamReposResponse s;
     pgTeamsByTeamId := m;
     pgTeamsByTeamSlug := pgTeamsByTeamSlug s;
     pgReposByTeamIdAndRepoName := pgReposByTeamIdAndRepoName s;
     pgMutexInitializeLocalDataTeams := pgMutexInitializeLocalDataTeams s;
     pgDoneGetAllTeams := pgDoneGetAllTeams s;
     pgMutexInitializeLocalDataTeamRepos := pgMutexInitializeLocalDataTeamRepos s;
     pgDoneGetAllTeamRepos := pgDoneGetAllTeamRepos s;
     pgApiCalls := pgApiCalls s |}.

Definition set_pgTeamsByTeamSlug (m : gmap string Team) (s : State) : State :=
  {| pgGetAllTeamsResponse := pgGetAllTeamsResponse s;
     pgGetAllTeamReposResponse := pgGetAllTeamReposResponse s;
     pgTeamsByTeamId := pgTeamsByTeamId s;
     pgTeamsByTeamSlug := m;
     pgReposByTeamIdAndRepoName := pgReposByTeamIdAndRepoName s;
     pgMutexInitializeLocalDataTeams := pgMutexInitializeLocalDataTeams s;
     pgDoneGetAllTeams := pgDoneGetAllTeams s;
     pgMutexInitializeLocalDataTeamRepos := pgMutexInitializeLocalDataTeamRepos s;
     pgDoneGetAllTeamRepos := pgDoneGetAllTeamRepos s;
     pgApiCalls := pgApiCalls s |}.

Definition set_pgReposByTeamIdAndRepoName (m : gmap Z (gmap string Repository)) (s : State) : State :=
  {| pgGetAllTeamsResponse := pgGetAllTeamsResponse s;
     pgGetAllTeamReposResponse := pgGetAllTeamReposResponse s;
     pgTeamsByTeamId := pgTeamsByTeamId s;
     pgTeamsByTeamSlug := pgTeamsByTeamSlug s;
     pgReposByTeamIdAndRepoName := m;
     pgMutexInitializeLocalDataTeams := pgMutexInitializeLocalDataTeams s;
     pgDoneGetAllTeams := pgDoneGetAllTeams s;
     pgMutexInitializeLocalDataTeamRepos := pgMutexInitializeLocalDataTeamRepos s;
     pgDoneGetAllTeamRepos := pgDoneGetAllTeamRepos s;
     pgApiCalls := pgApiCalls s |}.

Definition set_pgMutexInitializeLocalDataTeams (m : Mutex) (s : State) : State :=
  {| pgGetAllTeamsResponse := pgGetAllTeamsResponse s;
     pgGetAllTeamReposResponse := pgGetAllTeamReposResponse s;
     pgTeamsByTeamId := pgTeamsByTeamId s;
     pgTeamsByTeamSlug := pgTeamsByTeamSlug s;
     pgReposByTeamIdAndRepoName := pgReposByTeamIdAndRepoName s;
     pgMutexInitializeLocalDataTeams := m;
     pgDoneGetAllTeams := pgDoneGetAllTeams s;
     pgMutexInitializeLocalDataTeamRepos := pgMutexInitializeLocalDataTeamRepos s;
     pgDoneGetAllTeamRepos := pgDoneGetAllTeamRepos s;
     pgApiCalls := pgApiCalls s |}.

Definition set_pgDoneGetAllTeams (b : bool) (s : State) : State :=
  {| pgGetAllTeamsResponse := pgGetAllTeamsResponse s;
     pgGetAllTeamReposResponse := pgGetAllTeamReposResponse s;
     pgTeamsByTeamId := pgTeamsByTeamId s;
     pgTeamsByTeamSlug := pgTeamsByTeamSlug s;
     pgReposByTeamIdAndRepoName := pgReposByTeamIdAndRepoName s;
     pgMutexInitializeLocalDataTeams := pgMutexInitializeLocalDataTeams s;
     pgDoneGetAllTeams := b;
     pgMutexInitializeLocalDataTeamRepos := pgMutexInitializeLocalDataTeamRepos s;
     pgDoneGetAllTeamRepos := pgDoneGetAllTeamRepos s;
     pgApiCalls := pgApiCalls s |}.

Definition set_pgMutexInitializeLocalDataTeamRepos (m : gmap Z Mutex) (s : State) : State :=
  {| pgGetAllTeamsResponse := pgGetAllTeamsResponse s;
     pgGetAllTeamReposResponse := pgGetAllTeamReposResponse s;
     pgTeamsByTeamId := pgTeamsByTeamId s;
     pgTeamsByTeamSlug := pgTeamsByTeamSlug s;
     pgReposByTeamIdAndRepoName := pgReposByTeamIdAndRepoName s;
     pgMutexInitializeLocalDataTeams := pgMutexInitializeLocalDataTeams s;
     pgDoneGetAllTeams := pgDoneGetAllTeams s;
     pgMutexInitializeLocalDataTeamRepos := m;
     pgDoneGetAllTeamRepos := pgDoneGetAllTeamRepos s;
     pgApiCalls := pgApiCalls s |}.

Definition set_pgDoneGetAllTeamRepos (m : gmap Z bool) (s : State) : State :=
  {| pgGetAllTeamsResponse := pgGetAllTeamsResponse s;
     pgGetAllTeamReposResponse := pgGetAllTeamReposResponse s;
     pgTeamsByTeamId := pgTeamsByTeamId s;
     pgTeamsByTeamSlug := pgTeamsByTeamSlug s;
     pgReposByTeamIdAndRepoName := pgReposByTeamIdAndRepoName s;
     pgMutexInitializeLocalDataTeams := pgMutexInitializeLocalDataTeams s;
     pgDoneGetAllTeams := pgDoneGetAllTeams s;
     pgMutexInitializeLocalDataTeamRepos := pgMutexInitializeLocalDataTeamRepos s;
     pgDoneGetAllTeamRepos := m;
     pgApiCalls := pgApiCalls s |}.

Definition log_call (c : ApiCall) (s : State) : State :=
  {| pgGetAllTeamsResponse := pgGetAllTeamsResponse s;
     pgGetAllTeamReposResponse := pgGetAllTeamReposResponse s;
     pgTeamsByTeamId := pgTeamsByTeamId s;
     pgTeamsByTeamSlug := pgTeamsByTeamSlug s;
     pgReposByTeamIdAndRepoName := pgReposByTeamIdAndRepoName s;
     pgMutexInitializeLocalDataTeams := pgMutexInitializeLocalDataTeams s;
     pgDoneGetAllTeams := pgDoneGetAllTeams s;
     pgMutexInitializeLocalDataTeamRepos := pgMutexInitializeLocalDataTeamRepos s;
     pgDoneGetAllTeamRepos := pgDoneGetAllTeamRepos s;
     pgApiCalls := pgApiCalls s ++ [c] |}.

(** ** Control outcomes *)

(** How a call of one of the functions ends when it runs alone: it returns;
    or it waits in [Lock] for a mutex that nobody will release; or it
    dereferences a nil [*sync.Mutex] (or unlocks an unlocked mutex) and the
    runtime aborts; or the bound on loop iterations of this model is used up
    before the unbounded [for] loop leaves. *)
Inductive Outcome (A : Type) :=
| Returned (v : A) (s : State)
| Blocked (s : State)
| Panicked (s : State)
| OutOfFuel.

Arguments Returned {A} v s.
Arguments Blocked {A} s.
Arguments Panicked {A} s.
Arguments OutOfFuel {A}.

(** How a [for] loop with locals of type [L] is left: by [break], by a
    [return] of the enclosing function, or not within the bound. *)
Inductive LoopExit (L : Type) :=
| LoopBreak (l : L) (s : State)
| LoopReturn (e : option error) (s : State)
| LoopOutOfFuel.

Arguments LoopBreak {L} l s.
Arguments LoopReturn {L} e s.
Arguments LoopOutOfFuel {L}.

(** [page++] on Go's [int], 64 bits wide on the targets of the build script
    (amd64, arm64): two's-complement wrap-around. *)
Definition int_wrap (z : Z) : Z := (z + 2 ^ 63) mod 2 ^ 64 - 2 ^ 63.

(** ** Internal functions (lines 65-128) *)

(** Lines 81-84: the body of the range loop over one page of teams. *)
Definition pgIndexTeam (s : State) (team : Team) : State :=
  let s := set_pgTeamsByTeamId (<[Team_GetID team := team]> (pgTeamsByTeamId s)) s in
  let s := set_pgTeamsByTeamSlug (<[Team_GetSlug team := team]> (pgTeamsByTeamSlug s)) s in
  let s := set_pgMutexInitializeLocalDataTeamRepos
             (<[Team_GetID team := Unlocked]> (pgMutexInitializeLocalDataTeamRepos s)) s in
  set_pgDoneGetAllTeamRepos (<[Team_GetID team := false]> (pgDoneGetAllTeamRepos s)) s.

(** Lines 71-91: the page loop of the teams load, entered with the mutex
    held. *)
Fixpoint pgTeamsLoop (fuel : nat) (client : Client) (page : Z) (s : State)
  : LoopExit unit :=
  match fuel with
  | O => LoopOutOfFuel
  | S fuel =>
    let opts := {| PerPage := 100; Page := page |} in
    let '(ts, resp, err) := ListTeams client (pgApiCalls s) pgGithubOrgName opts in
    let s := log_call (CallListTeams pgGithubOrgName opts) s in
    let s := set_pgGetAllTeamsResponse
               {| teams := ts; teams_resp := resp; teams_err := err |} s in
    match teams_err (pgGetAllTeamsResponse s) with
    | Some e => LoopReturn (Some e) s
    | None =>
      let s := fold_left pgIndexTeam (teams (pgGetAllTeamsResponse s)) s in
      if (length (teams (pgGetAllTeamsResponse s)) <? 100)%nat
      then LoopBreak tt s
      else pgTeamsLoop fuel client (int_wrap (page + 1)) s
    end
  end.

(** Lines 94-95: [Unlock] and return the stored error. *)
Definition pgTeamsUnlockReturn (s : State) : Outcome (option error) :=
  match pgMutexInitializeLocalDataTeams s with
  | Unlocked => Panicked s
  | Locked =>
    let s := set_pgMutexInitializeLocalDataTeams Unlocked s in
    Returned (teams_err (pgGetAllTeamsResponse s)) s
  end.

Definition pgInitializeLocalDataTeams (fuel : nat) (client : Client) (s : State)
  : Outcome (option error) :=
  match pgMutexInitializeLocalDataTeams s with
  | Locked => Blocked s
  | Unlocked =>
    let s := set_pgMutexInitializeLocalDataTeams Locked s in
    if negb (pgDoneGetAllTeams s) then
      match pgTeamsLoop fuel client 1 s with
      | LoopReturn e s => Returned e s
      | LoopOutOfFuel => OutOfFuel
      | LoopBreak _ s => pgTeamsUnlockReturn (set_pgDoneGetAllTeams true s)
      end
    else pgTeamsUnlockReturn s
  end.

(** Lines 114-116: the range loop over one page of repositories. *)
Definition pgIndexRepo (m : gmap string Repository) (repo : Repository)
  : gmap string Repository :=
  <[Repository_GetName repo := repo]> m.

(** Lines 105-122: the page loop of one team's children load. *)
Fixpoint pgTeamReposLoop (fuel : nat) (client : Client) (teamID : Z) (page : Z)
    (mapRepoNameToRepo : gmap string Repository) (s : State)
  : LoopExit (gmap string Repository) :=
  match fuel with
  | O => LoopOutOfFuel
  | S fuel =>
    let opts := {| PerPage := 100; Page := page |} in
    let '(rs, resp, err) :=
      ListTeamReposByID client (pgApiCalls s) pgGithubOrgId teamID opts in
    let s := log_call (CallListTeamReposByID pgGithubOrgId teamID opts) s in
    let s := set_pgGetAllTeamReposResponse
               {| repos := rs; repos_resp := resp; repos_err := err |} s in
    match repos_err (pgGetAllTeamReposResponse s) with
    | Some e => LoopReturn (Some e) s
    | None =>
      let mapRepoNameToRepo :=
        fold_left pgIndexRepo (repos (pgGetAllTeamReposResponse s)) mapRepoNameToRepo in
      if (length (repos (pgGetAllTeamReposResponse s)) <? 100)%nat
      then LoopBreak mapRepoNameToRepo s
      else pgTeamReposLoop fuel client teamID (int_wrap (page + 1)) mapRepoNameToRepo s
    end
  end.

(** Lines 126-127: [Unlock] through the map, and return the stored error. *)
Definition pgTeamReposUnlockReturn (teamID : Z) (s : State) : Outcome (option error) :=
  match pgMutexInitializeLocalDataTeamRepos s !! teamID with
  | None | Some Unlocked => Panicked s
  | Some Locked =>
    let s := set_pgMutexInitializeLocalDataTeamRepos
               (<[teamID := Unlocked]> (pgMutexInitializeLocalDataTeamRepos s)) s in
    Returned (repos_err (pgGetAllTeamReposResponse s)) s
  end.

Definition pgInitializeLocalDataTeamRepos (fuel : nat) (client : Client) (s : State)
    (teamID : Z) : Outcome (option error) :=
  match pgMutexInitializeLocalDataTeamRepos s !! teamID with
  | None => Panicked s
  | Some Locked => Blocked s
  | Some Unlocked =>
    let s := set_pgMutexInitializeLocalDataTeamRepos
               (<[teamID := Locked]> (pgMutexInitializeLocalDataTeamRepos s)) s in
    if negb (default false (pgDoneGetAllTeamRepos s !! teamID)) then
      match pgTeamReposLoop fuel client teamID 1 ∅ s with
      | LoopReturn e s => Returned e s
      | LoopOutOfFuel => OutOfFuel
      | LoopBreak mapRepoNameToRepo s =>
        let s := set_pgReposByTeamIdAndRepoName
                   (<[teamID := mapRepoNameToRepo]> (pgReposByTeamIdAndRepoName s)) s in
        let s := set_pgDoneGetAllTeamRepos
                   (<[teamID := true]> (pgDoneGetAllTeamRepos s)) s in
        pgTeamReposUnlockReturn teamID s
      end
    else pgTeamReposUnlockReturn teamID s
  end.

(** ** External functions (lines 136-172) *)

(** The error synthesized on lines 143, 155 and 169. *)
Definition pgNotFound : error :=
  ErrorResponse {| http.StatusCode := http.StatusNotFound |}.

(** Lines 141-144, 153-156, 167-170. *)
Definition pgOrNotFound (err : option error) : option error :=
  match err with
  | None => Some pgNotFound
  | Some e => Some e
  end.

(** A call whose result is discarded: only a return lets the caller go on. *)
Definition and_then {A B : Type} (o : Outcome A) (k : State -> Outcome B) : Outcome B :=
  match o with
  | Returned _ s => k s
  | Blocked s => Blocked s
  | Panicked s => Panicked s
  | OutOfFuel => OutOfFuel
  end.

Definition pgGetTeamByTeamId (fuel : nat) (client : Client) (s : State) (id : Z)
  : Outcome (option Team * option Response * option error) :=
  and_then (pgInitializeLocalDataTeams fuel client s) (fun s =>
    match pgTeamsByTeamId s !! id with
    | Some team =>
      Returned (Some team, teams_resp (pgGetAllTeamsResponse s),
                teams_err (pgGetAllTeamsResponse s)) s
    | None =>
      let err := pgOrNotFound (teams_err (pgGetAllTeamsResponse s)) in
      Returned (None, teams_resp (pgGetAllTeamsResponse s), err) s
    end).

Definition pgGetTeamByTeamSlug (fuel : nat) (client : Client) (s : State) (slug : string)
  : Outcome (option Team * option Response * option error) :=
  and_then (pgInitializeLocalDataTeams fuel client s) (fun s =>
    match pgTeamsByTeamSlug s !! slug with
    | Some team =>
      Returned (Some team, teams_resp (pgGetAllTeamsResponse s),
                teams_err (pgGetAllTeamsResponse s)) s
    | None =>
      let err := pgOrNotFound (teams_err (pgGetAllTeamsResponse s)) in
      Returned (None, teams_resp (pgGetAllTeamsResponse s), err) s
    end).

Definition pgGetRepoByTeamIDAndRepoName (fuel : nat) (client : Client) (s : State)
    (teamID : Z) (repoName : string)
  : Outcome (option Repository * option Response * option error) :=
  and_then (pgInitializeLocalDataTeamRepos fuel client s teamID) (fun s =>
    let notFound :=
      let err := pgOrNotFound (repos_err (pgGetAllTeamReposResponse s)) in
      Returned (None, repos_resp (pgGetAllTeamReposResponse s), err) s in
    match pgReposByTeamIdAndRepoName s !! teamID with
    | Some mapRepoNameToRepo =>
      match mapRepoNameToRepo !! repoName with
      | Some repo =>
        Returned (Some repo, repos_resp (pgGetAllTeamReposResponse s),
                  repos_err (pgGetAllTeamReposResponse s)) s
      | None => notFound
      end
    | None => notFound
    end).

(** ** What the remote side answers to a sequential pagination *)

Definition TeamsAnswer : Type := list Team * option Response * option error.
Definition ReposAnswer : Type := list Repository * option Response * option error.

Definition answer_items {A : Type} (a : list A * option Response * option error) : list A :=
  a.1.1.
Definition answer_resp {A : Type} (a : list A * option Response * option error)
  : option Response := a.1.2.
Definition answer_err {A : Type} (a : list A * option Response * option error)
  : option error := a.2.

(** The request of line 72-73 and of line 106-107 for one page. *)
Definition pageOpts (page : Z) : ListOptions := {| PerPage := 100; Page := page |}.
Definition teamsRequest (page : Z) : ApiCall :=
  CallListTeams pgGithubOrgName (pageOpts page).
Definition reposRequest (teamID : Z) (page : Z) : ApiCall :=
  CallListTeamReposByID pgGithubOrgId teamID (pageOpts page).

Definition teamsAnswer (client : Client) (L : list ApiCall) (page : Z) : TeamsAnswer :=
  ListTeams client L pgGithubOrgName (pageOpts page).
Definition reposAnswer (client : Client) (L : list ApiCall) (teamID page : Z) : ReposAnswer :=
  ListTeamReposByID client L pgGithubOrgId teamID (pageOpts page).

(** The requests for [n] consecutive pages from [page] on, and the answers
    they get when nothing else is asked in between and [L] was asked before. *)
Fixpoint teamsRequests (page : Z) (n : nat) : list ApiCall :=
  match n with
  | O => []
  | S n => teamsRequest page :: teamsRequests (page + 1) n
  end.

Fixpoint teamsListing (client : Client) (L : list ApiCall) (page : Z) (n : nat)
  : list TeamsAnswer :=
  match n with
  | O => []
  | S n =>
    teamsAnswer client L page
      :: teamsListing client (L ++ [teamsRequest page]) (page + 1) n
  end.

Fixpoint reposRequests (teamID : Z) (page : Z) (n : nat) : list ApiCall :=
  match n with
  | O => []
  | S n => reposRequest teamID page :: reposRequests teamID (page + 1) n
  end.

Fixpoint reposListing (client : Client) (L : list ApiCall) (teamID : Z) (page : Z) (n : nat)
  : list ReposAnswer :=
  match n with
  | O => []
  | S n =>
    reposAnswer client L teamID page
      :: reposListing client (L ++ [reposRequest teamID page]) teamID (page + 1) n
  end.

(** A page that lets the loop go on, a page that ends it, a page that
    fails. *)
Definition pageFull {A : Type} (a : list A * option Response * option error) : bool :=
  match answer_err a with
  | None => negb (length (answer_items a) <? 100)%nat
  | Some _ => false
  end.

Definition pageShort {A : Type} (a : list A * option Response * option error) : bool :=
  match answer_err a with
  | None => (length (answer_items a) <? 100)%nat
  | Some _ => false
  end.

Definition pageFailed {A : Type} (a : list A * option Response * option error) : bool :=
  match answer_err a with
  | None => false
  | Some _ => true
  end.

(** All the items of a run of pages, in the order they were received. *)
Definition fetched {A : Type} (answers : list (list A * option Response * option error))
  : list A :=
  concat (map answer_items answers).

(** The effect of lines 73-74 on the state, and of lines 73-85. *)
Definition teamsStore (page : Z) (a : TeamsAnswer) (s : State) : State :=
  set_pgGetAllTeamsResponse
    {| teams := answer_items a; teams_resp := answer_resp a; teams_err := answer_err a |}
    (log_call (teamsRequest page) s).

Definition teamsAbsorb (page : Z) (a : TeamsAnswer) (s : State) : State :=
  fold_left pgIndexTeam (answer_items a) (teamsStore page a s).

Fixpoint teamsAbsorbAll (page : Z) (answers : list TeamsAnswer) (s : State) : State :=
  match answers with
  | [] => s
  | a :: answers => teamsAbsorbAll (page + 1) answers (teamsAbsorb page a s)
  end.

Definition reposStore (teamID page : Z) (a : ReposAnswer) (s : State) : State :=
  set_pgGetAllTeamReposResponse
    {| repos := answer_items a; repos_resp := answer_resp a; repos_err := answer_err a |}
    (log_call (reposRequest teamID page) s).

Fixpoint reposStoreAll (teamID page : Z) (answers : list ReposAnswer) (s : State) : State :=
  match answers with
  | [] => s
  | a :: answers => reposStoreAll teamID (page + 1) answers (reposStore teamID page a s)
  end.

(** A map filled by assignments [m[key x] = x] for the items of a list in
    order. *)
Definition index_by {K A : Type} `{Countable K} (key : A -> K) (l : list A)
    (m : gmap K A) : gmap K A :=
  fold_left (fun m x => <[key x := x]> m) l m.

(** ** Sequential runs *)

(** One returning call of a function of the file, by any caller, with any
    client and any bound. *)
Inductive pgStep : State -> State -> Prop :=
| step_InitializeTeams fuel client s e s' :
    pgInitializeLocalDataTeams fuel client s = Returned e s' -> pgStep s s'
| step_InitializeTeamRepos fuel client s teamID e s' :
    pgInitializeLocalDataTeamRepos fuel client s teamID = Returned e s' -> pgStep s s'
| step_GetTeamByTeamId fuel client s id v s' :
    pgGetTeamByTeamId fuel client s id = Returned v s' -> pgStep s s'
| step_GetTeamByTeamSlug fuel client s slug v s' :
    pgGetTeamByTeamSlug fuel client s slug = Returned v s' -> pgStep s s'
| step_GetRepoByTeamIDAndRepoName fuel client s teamID repoName v s' :
    pgGetRepoByTeamIDAndRepoName fuel client s teamID repoName = Returned v s' ->
    pgStep s s'.

(** The states a process can be in between two calls. *)
Definition pgReachable (s : State) : Prop := rtc pgStep pgInitialState s.

(** A complete sequential pagination: every page but the last lets the loop
    go on, and the last one ends it, by a short page or by an error. *)
Fixpoint endsShort {A : Type} (answers : list (list A * option Response * option error))
  : bool :=
  match answers with
  | [] => false
  | a :: rest =>
    match rest with
    | [] => pageShort a
    | _ :: _ => pageFull a && endsShort rest
    end
  end.

Fixpoint endsFailed {A : Type} (answers : list (list A * option Response * option error))
  : bool :=
  match answers with
  | [] => false
  | a :: rest =>
    match rest with
    | [] => pageFailed a
    | _ :: _ => pageFull a && endsFailed rest
    end
  end.

(** The same by item counts alone: the last page is the first one with
    fewer than 100 items. *)
Fixpoint firstBelow100 {A : Type} (answers : list (list A * option Response * option error))
  : bool :=
  match answers with
  | [] => false
  | a :: rest =>
    match rest with
    | [] => (length (answer_items a) <? 100)%nat
    | _ :: _ => negb (length (answer_items a) <? 100)%nat && firstBelow100 rest
    end
  end.

(** go-github's listings return a nil slice together with a non-nil error. *)
Definition nilOnError {A : Type} (a : list A * option Response * option error) : bool :=
  match answer_err a with
  | None => true
  | Some _ => match answer_items a with [] => true | _ :: _ => false end
  end.

(** The last answer of a pagination (the zero answer for none at all). *)
Definition lastAnswer {A : Type} (answers : list (list A * option Response * option error))
  : list A * option Response * option error :=
  List.last answers ([], None, None).

(** The state a teams load leaves when its pagination ends by a short page
    (lines 68-95 without the early return), and when it ends by an error
    (lines 68-77). *)
Definition teamsLoadedState (answers : list TeamsAnswer) (s : State) : State :=
  set_pgMutexInitializeLocalDataTeams Unlocked
    (set_pgDoneGetAllTeams true
       (teamsAbsorbAll 1 answers (set_pgMutexInitializeLocalDataTeams Locked s))).

Definition teamsFailedState (answers : list TeamsAnswer) (s : State) : State :=
  teamsStore (Z.of_nat (length answers)) (lastAnswer answers)
    (teamsAbsorbAll 1 (List.removelast answers)
       (set_pgMutexInitializeLocalDataTeams Locked s)).

(** The same for the children load of one team (lines 101-127, and 101-111). *)
Definition reposLockedState (teamID : Z) (s : State) : State :=
  set_pgMutexInitializeLocalDataTeamRepos
    (<[teamID := Locked]> (pgMutexInitializeLocalDataTeamRepos s)) s.

Definition reposLoadedState (teamID : Z) (answers : list ReposAnswer) (s : State) : State :=
  let s := reposStoreAll teamID 1 answers (reposLockedState teamID s) in
  let s := set_pgReposByTeamIdAndRepoName
             (<[teamID := index_by Repository_GetName (fetched answers) ∅]>
                (pgReposByTeamIdAndRepoName s)) s in
  let s := set_pgDoneGetAllTeamRepos (<[teamID := true]> (pgDoneGetAllTeamRepos s)) s in
  set_pgMutexInitializeLocalDataTeamRepos
    (<[teamID := Unlocked]> (pgMutexInitializeLocalDataTeamRepos s)) s.

Definition reposFailedState (teamID : Z) (answers : list ReposAnswer) (s : State) : State :=
  reposStoreAll teamID 1 answers (reposLockedState teamID s).

(** ** Relations between the state before and after a call *)

(** Nothing changed but the shared children holder and the log: all a page
    of a children load can do. *)
Definition sameButReposHolder (s s' : State) : Prop :=
  pgGetAllTeamsResponse s' = pgGetAllTeamsResponse s /\
  pgTeamsByTeamId s' = pgTeamsByTeamId s /\
  pgTeamsByTeamSlug s' = pgTeamsByTeamSlug s /\
  pgReposByTeamIdAndRepoName s' = pgReposByTeamIdAndRepoName s /\
  pgMutexInitializeLocalDataTeams s' = pgMutexInitializeLocalDataTeams s /\
  pgDoneGetAllTeams s' = pgDoneGetAllTeams s /\
  pgMutexInitializeLocalDataTeamRepos s' = pgMutexInitializeLocalDataTeamRepos s /\
  pgDoneGetAllTeamRepos s' = pgDoneGetAllTeamRepos s.

(** The variables of the children loads are as they were: all a teams load
    leaves alone whatever it does. *)
Definition sameChildren (s s' : State) : Prop :=
  pgGetAllTeamReposResponse s' = pgGetAllTeamReposResponse s /\
  pgReposByTeamIdAndRepoName s' = pgReposByTeamIdAndRepoName s.

(** The variables of the teams load are as they were: all a children load
    leaves alone whatever it does. *)
Definition sameTeams (s s' : State) : Prop :=
  pgGetAllTeamsResponse s' = pgGetAllTeamsResponse s /\
  pgTeamsByTeamId s' = pgTeamsByTeamId s /\
  pgTeamsByTeamSlug s' = pgTeamsByTeamSlug s /\
  pgMutexInitializeLocalDataTeams s' = pgMutexInitializeLocalDataTeams s /\
  pgDoneGetAllTeams s' = pgDoneGetAllTeams s.

(** I3 of the specification: a team has a children index exactly when its
    completion flag is set. *)
Definition indexIffDone (s : State) : Prop :=
  forall teamID : Z,
    is_Some (pgReposByTeamIdAndRepoName s !! teamID)
    <-> pgDoneGetAllTeamRepos s !! teamID = Some true.

(** What holds between any two calls of a sequential run. *)
Definition pgInvariant (s : State) : Prop :=
  indexIffDone s /\
  (pgDoneGetAllTeams s = false -> pgMutexInitializeLocalDataTeams s = Unlocked ->
   s = pgInitialState).

(** ** Two callers at once *)

(** Where a caller of [pgInitializeLocalDataTeamRepos] stands, statement by
    statement; [page] and [m] are its locals [page] and
    [mapRepoNameToRepo]. *)
Inductive ReposPC :=
| AtLock                                            (* line 101 *)
| AtCheck                                           (* line 102 *)
| AtFetch (page : Z) (m : gmap string Repository)   (* lines 106-108 *)
| AtErrCheck (page : Z) (m : gmap string Repository) (* line 110 *)
| AtReturnErr                                       (* line 111 *)
| AtIndex (page : Z) (m : gmap string Repository)   (* lines 114-116 *)
| AtLen (page : Z) (m : gmap string Repository)     (* lines 118-121 *)
| AtStore (m : gmap string Repository)              (* line 123 *)
| AtSetDone                                         (* line 124 *)
| AtUnlock                                          (* line 126 *)
| AtReturn                                          (* line 127 *)
| Finished (e : option error)
| Crashed.

(** One statement of a caller. [None]: the caller cannot move, which only
    happens in [Lock] on a held mutex, or after it has finished or crashed.
    Every statement is taken as one indivisible step. That is what the
    mutexes and the [sync.Map] of line 51 give for their own operations; it
    is not what the program gives for line 102 and line 124, which read and
    write the plain Go map [pgDoneGetAllTeamRepos] of line 57 while holding
    the mutex of one team only. The interleavings of this function are
    therefore the runs in which no two such accesses overlap;
    [reposThreadDoneAccess] records the accesses and [goStep] adds what the
    Go runtime does when they do overlap. *)
Definition reposThreadStep (client : Client) (teamID : Z) (pc : ReposPC) (s : State)
  : option (ReposPC * State) :=
  match pc with
  | AtLock =>
    match pgMutexInitializeLocalDataTeamRepos s !! teamID with
    | None => Some (Crashed, s)
    | Some Locked => None
    | Some Unlocked => Some (AtCheck, reposLockedState teamID s)
    end
  | AtCheck =>
    if negb (default false (pgDoneGetAllTeamRepos s !! teamID))
    then Some (AtFetch 1 ∅, s)
    else Some (AtUnlock, s)
  | AtFetch page m =>
    Some (AtErrCheck page m,
          reposStore teamID page (reposAnswer client (pgApiCalls s) teamID page) s)
  | AtErrCheck page m =>
    match repos_err (pgGetAllTeamReposResponse s) with
    | Some _ => Some (AtReturnErr, s)
    | None => Some (AtIndex page m, s)
    end
  | AtReturnErr => Some (Finished (repos_err (pgGetAllTeamReposResponse s)), s)
  | AtIndex page m =>
    Some (AtLen page (fold_left pgIndexRepo (repos (pgGetAllTeamReposResponse s)) m), s)
  | AtLen page m =>
    if (length (repos (pgGetAllTeamReposResponse s)) <? 100)%nat
    then Some (AtStore m, s)
    else Some (AtFetch (int_wrap (page + 1)) m, s)
  | AtStore m =>
    Some (AtSetDone,
          set_pgReposByTeamIdAndRepoName
            (<[teamID := m]> (pgReposByTeamIdAndRepoName s)) s)
  | AtSetDone =>
    Some (AtUnlock,
          set_pgDoneGetAllTeamRepos (<[teamID := true]> (pgDoneGetAllTeamRepos s)) s)
  | AtUnlock =>
    match pgMutexInitializeLocalDataTeamRepos s !! teamID with
    | None | Some Unlocked => Some (Crashed, s)
    | Some Locked =>
      Some (AtReturn,
            set_pgMutexInitializeLocalDataTeamRepos
              (<[teamID := Unlocked]> (pgMutexInitializeLocalDataTeamRepos s)) s)
    end
  | AtReturn => Some (Finished (repos_err (pgGetAllTeamReposResponse s)), s)
  | Finished _ => None
  | Crashed => None
  end.

Definition reposThreadOver (pc : ReposPC) : bool :=
  match pc with
  | Finished _ | Crashed => true
  | _ => false
  end.

(** A caller that runs alone, for at most [n] statements. *)
Fixpoint reposThreadRun (n : nat) (client : Client) (teamID : Z) (pc : ReposPC) (s : State)
  : ReposPC * State :=
  match n with
  | O => (pc, s)
  | S n =>
    match reposThreadStep client teamID pc s with
    | None => (pc, s)
    | Some (pc', s') => reposThreadRun n client teamID pc' s'
    end
  end.

(** Two callers, for the teams [teamA] and [teamB], on the shared state: at
    each moment one of them executes one statement. *)
Record Duo := { duo_state : State; duo_pcA : ReposPC; duo_pcB : ReposPC }.

Inductive duoStep (clientA clientB : Client) (teamA teamB : Z) : Duo -> Duo -> Prop :=
| duo_stepA s pcA pcB pcA' s' :
    reposThreadStep clientA teamA pcA s = Some (pcA', s') ->
    duoStep clientA clientB teamA teamB
      {| duo_state := s; duo_pcA := pcA; duo_pcB := pcB |}
      {| duo_state := s'; duo_pcA := pcA'; duo_pcB := pcB |}
| duo_stepB s pcA pcB pcB' s' :
    reposThreadStep clientB teamB pcB s = Some (pcB', s') ->
    duoStep clientA clientB teamA teamB
      {| duo_state := s; duo_pcA := pcA; duo_pcB := pcB |}
      {| duo_state := s'; duo_pcA := pcA; duo_pcB := pcB' |}.

(** A caller is blocked when it has statements left and cannot execute the
    next one. *)
Definition reposThreadBlocked (client : Client) (teamID : Z) (pc : ReposPC) (s : State)
  : Prop :=
  reposThreadOver pc = false /\ reposThreadStep client teamID pc s = None.

(** What a statement does to the plain Go map [pgDoneGetAllTeamRepos]:
    line 102 reads it, line 124 assigns to it, no other statement of the
    children load touches it. *)
Inductive MapAccess := MapRead | MapWrite.

Definition reposThreadDoneAccess (pc : ReposPC) : option MapAccess :=
  match pc with
  | AtCheck => Some MapRead
  | AtSetDone => Some MapWrite
  | _ => None
  end.

(** Two accesses to one Go map conflict when at least one of them writes;
    the key does not matter. *)
Definition mapAccessesConflict (a b : option MapAccess) : bool :=
  match a, b with
  | Some MapWrite, Some _ | Some _, Some MapWrite => true
  | _, _ => false
  end.

(** Both callers stand at an access to [pgDoneGetAllTeamRepos], one of them
    at least at the assignment of line 124: the next statements of the two
    are not ordered by anything and can overlap. *)
Definition duoRace (d : Duo) : bool :=
  mapAccessesConflict (reposThreadDoneAccess (duo_pcA d))
                      (reposThreadDoneAccess (duo_pcB d)).

(** A schedule says whose turn it is, statement by statement. *)
Inductive Turn := TurnA | TurnB.

Definition duoTurn (clientA clientB : Client) (teamA teamB : Z) (t : Turn) (d : Duo)
  : option Duo :=
  match t with
  | TurnA =>
    match reposThreadStep clientA teamA (duo_pcA d) (duo_state d) with
    | Some (pcA', s') => Some {| duo_state := s'; duo_pcA := pcA'; duo_pcB := duo_pcB d |}
    | None => None
    end
  | TurnB =>
    match reposThreadStep clientB teamB (duo_pcB d) (duo_state d) with
    | Some (pcB', s') => Some {| duo_state := s'; duo_pcA := duo_pcA d; duo_pcB := pcB' |}
    | None => None
    end
  end.

(** The configuration a schedule leads to. [None]: the caller whose turn it
    is cannot move, or the schedule goes on from a configuration where two
    accesses to the plain map can overlap. So no configuration before the
    one returned has such a pair of accesses. *)
Fixpoint duoSchedule (clientA clientB : Client) (teamA teamB : Z) (turns : list Turn)
    (d : Duo) : option Duo :=
  match turns with
  | [] => Some d
  | t :: turns =>
    if duoRace d then None
    else
      match duoTurn clientA clientB teamA teamB t d with
      | Some d' => duoSchedule clientA clientB teamA teamB turns d'
      | None => None
      end
  end.

(** The process as the Go runtime runs it: the callers step as in
    [duoStep], and where two conflicting accesses to the plain map can
    overlap the runtime may stop the whole process with its fatal error for
    concurrent map accesses, which no caller can recover from. *)
Inductive GoRun :=
| Running (d : Duo)
| FatalError.

Inductive goStep (clientA clientB : Client) (teamA teamB : Z) : GoRun -> GoRun -> Prop :=
| go_step d d' :
    duoStep clientA clientB teamA teamB d d' ->
    goStep clientA clientB teamA teamB (Running d) (Running d')
| go_fatal d :
    duoRace d = true ->
    goStep clientA clientB teamA teamB (Running d) FatalError.

(** ** Concrete upstreams *)

Module Fixtures.

Definition digit (n : nat) : Ascii.ascii := Ascii.ascii_of_nat (48 + n mod 10).

(** Team number [i]: identifier [i], slug ["team-"] followed by three
    digits. *)
Definition team (i : nat) : Team := {|
  team_ID := Some (Z.of_nat i);
  team_Slug := Some ("team-" +:+ String (digit (i / 100))
                        (String (digit (i / 10)) (String (digit i) EmptyString)));
  team_Name := "a team"
|}.

Definition repo (name : string) : Repository :=
  {| repo_Name := Some name; repo_FullName := "propertyguru/" +:+ name |}.

Definition response (next last : Z) : option Response :=
  Some {| NextPage := next; LastPage := last |}.

Definition timeout : error := TransportError "context deadline exceeded".

(** An upstream whose listings never change: the answer to page [p] is
    the [p]-th element of a fixed list, an empty page beyond. *)
Definition pageOf {A : Type} (pages : list (list A * option Response * option error))
    (opts : ListOptions) : list A * option Response * option error :=
  nth (Z.to_nat (Page opts) - 1) pages ([], response 0 0, None).

Definition fixedClient (teamPages : list TeamsAnswer)
    (repoPages : Z -> list ReposAnswer) : Client := {|
  ListTeams := fun _ _ opts => pageOf teamPages opts;
  ListTeamReposByID := fun _ _ teamID opts => pageOf (repoPages teamID) opts
|}.

(** 103 teams on two pages. *)
Definition twoPages : list TeamsAnswer :=
  [ (map team (seq 1 100), response 2 2, None);
    (map team (seq 101 3), response 0 2, None) ].

(** A full first page, then a failure. *)
Definition failsOnPage2 : list TeamsAnswer :=
  [ (map team (seq 1 100), response 2 2, None);
    ([], None, Some timeout) ].

(** Four teams on one page; team 1 owns one repository, team 2 has no
    children, the listing of team 3 fails on its second page, that of
    team 4 on its first. *)
Definition smallOrg : list TeamsAnswer :=
  [ ([team 1; team 2; team 3; team 4], response 0 1, None) ].

Definition smallOrgRepos (teamID : Z) : list ReposAnswer :=
  if decide (teamID = 1) then [ ([repo "infra"], response 0 1, None) ]
  else if decide (teamID = 2) then [ ([], response 0 0, None) ]
  else if decide (teamID = 3) then
    [ (map (fun i => repo (Team_GetSlug (team i))) (seq 1 100), response 2 2, None);
      ([], response 0 0, Some timeout) ]
  else [ ([], None, Some timeout) ].

Definition smallClient : Client := fixedClient smallOrg smallOrgRepos.

(** An upstream that fails the very first request it ever gets and
    answers every later one. *)
Definition flakyClient : Client := {|
  ListTeams := fun L _ opts =>
    match L with
    | [] => ([], None, Some timeout)
    | _ :: _ => pageOf smallOrg opts
    end;
  ListTeamReposByID := fun _ _ teamID opts => pageOf (smallOrgRepos teamID) opts
|}.

(** The state after the teams of [smallOrg] were loaded into a fresh
    process. *)
Definition smallLoaded : State :=
  teamsLoadedState (teamsListing smallClient [] 1 1) pgInitialState.

(** Then the children of team 1 were loaded, and then the load of the
    children of team 4 failed. *)
Definition team1Loaded : State :=
  reposLoadedState 1 (reposListing smallClient (pgApiCalls smallLoaded) 1 1 1)
    smallLoaded.

Definition team4Failed : State :=
  reposFailedState 4 (reposListing smallClient (pgApiCalls team1Loaded) 4 1 1)
    team1Loaded.

(** Or, after the children of team 1, those of team 2 were loaded. *)
Definition team1Then2Loaded : State :=
  reposLoadedState 2 (reposListing smallClient (pgApiCalls team1Loaded) 2 1 1)
    team1Loaded.

(** Or the children of team 2, which has none, were loaded, and then the
    load of the children of team 4 failed. *)
Definition team2Loaded : State :=
  reposLoadedState 2 (reposListing smallClient (pgApiCalls smallLoaded) 2 1 1)
    smallLoaded.

Definition team2Loaded4Failed : State :=
  reposFailedState 4 (reposListing smallClient (pgApiCalls team2Loaded) 4 1 1)
    team2Loaded.

(** Two callers about to load the children of the teams 1 and 2, with the
    teams loaded. *)
Definition twoCallers : Duo :=
  {| duo_state := smallLoaded; duo_pcA := AtLock; duo_pcB := AtLock |}.

(** The load of the children of team 3 fails on its second page. *)
Definition team3Failed : State :=
  reposFailedState 3 (reposListing smallClient (pgApiCalls smallLoaded) 3 1 2)
    smallLoaded.

(** The very first request of a process fails. *)
Definition teamsFailed : State :=
  teamsFailedState (teamsListing flakyClient [] 1 1) pgInitialState.

End Fixtures.

(** ** The requests a process has made *)

(** The requests of [n] iterations of a page loop entered at [page], with
    the page counter as the loops advance it. *)
Fixpoint teamsRequestsFrom (page : Z) (n : nat) : list ApiCall :=
  match n with
  | O => []
  | S n => teamsRequest page :: teamsRequestsFrom (int_wrap (page + 1)) n
  end.

Fixpoint reposRequestsFrom (teamID : Z) (page : Z) (n : nat) : list ApiCall :=
  match n with
  | O => []
  | S n => reposRequest teamID page :: reposRequestsFrom teamID (int_wrap (page + 1)) n
  end.

Definition isTeamsRequest (c : ApiCall) : bool :=
  match c with
  | CallListTeams _ _ => true
  | CallListTeamReposByID _ _ _ => false
  end.

Definition isReposRequestFor (teamID : Z) (c : ApiCall) : bool :=
  match c with
  | CallListTeams _ _ => false
  | CallListTeamReposByID _ t _ => bool_decide (t = teamID)
  end.

(** The log shows one pagination of the teams at most, and for every team
    one pagination of its children at most, which has left the team's flag
    set or its mutex locked. *)
Definition paginatedOnce (s : State) : Prop :=
  (exists k, List.filter isTeamsRequest (pgApiCalls s) = teamsRequestsFrom 1 k) /\
  forall teamID : Z, exists k,
    List.filter (isReposRequestFor teamID) (pgApiCalls s)
    = reposRequestsFrom teamID 1 k /\
    (k <> 0%nat ->
     pgDoneGetAllTeamRepos s !! teamID = Some true \/
     pgMutexInitializeLocalDataTeamRepos s !! teamID = Some Locked).

(** Every entry of an index sits under the key its accessor gives. *)
Definition keysSound {K A : Type} `{Countable K} (key : A -> K) (m : gmap K A) : Prop :=
  forall k x, m !! k = Some x -> key x = k.

Definition indexKeysSound (s : State) : Prop :=
  keysSound Team_GetID (pgTeamsByTeamId s) /\
  keysSound Team_GetSlug (pgTeamsByTeamSlug s) /\
  forall teamID m, pgReposByTeamIdAndRepoName s !! teamID = Some m ->
                   keysSound Repository_GetName m.

(** Every indexed team has its mutex and its flag registered. *)
Definition indexedTeamsRegistered (s : State) : Prop :=
  forall id : Z, is_Some (pgTeamsByTeamId s !! id) ->
    is_Some (pgMutexInitializeLocalDataTeamRepos s !! id) /\
    is_Some (pgDoneGetAllTeamRepos s !! id).

Module MoreFixtures.

(** An upstream whose every page is full: the same hundred teams, the same
    hundred repositories, whatever page is asked. *)
Definition endlessClient : Client := {|
  ListTeams := fun _ _ _ => (map Fixtures.team (seq 1 100), Fixtures.response 1 1, None);
  ListTeamReposByID := fun _ _ _ _ =>
    (map (fun i => Fixtures.repo (Team_GetSlug (Fixtures.team i))) (seq 1 100),
     Fixtures.response 1 1, None)
|}.

(** The organization lists team 7 twice, renamed in between. *)
Definition renamed : Team :=
  {| team_ID := Some 7; team_Slug := Some "platform"; team_Name := "Platform" |}.

Definition listedTwice : list TeamsAnswer :=
  [ ([Fixtures.team 7; Fixtures.team 8; renamed], Fixtures.response 0 1, None) ].

(** Team 7 owns two repositories, the first of them listed twice. *)
Definition forked : Repository :=
  {| repo_Name := Some "infra"; repo_FullName := "propertyguru-archive/infra" |}.

Definition listedTwiceRepos (teamID : Z) : list ReposAnswer :=
  [ ([Fixtures.repo "infra"; Fixtures.repo "website"; forked], Fixtures.response 0 1, None) ].

Definition listedTwiceClient : Client := Fixtures.fixedClient listedTwice listedTwiceRepos.

End MoreFixtures.

(** * Properties *)

(** ** Arithmetic of the page counter *)

Lemma int_wrap_small (z : Z) : - 2 ^ 63 <= z < 2 ^ 63 -> int_wrap z = z.
Proof.
  intros Hz. unfold int_wrap.
  rewrite Z.mod_small; lia.
Qed.

Lemma int_wrap_next (page : Z) :
  0 <= page -> page + 1 < 2 ^ 63 -> int_wrap (page + 1) = page + 1.
Proof. intros ? ?. apply int_wrap_small. lia. Qed.

(** ** Maps filled from a list *)

Section IndexBy.
Context {K A : Type} `{Countable K} (key : A -> K).

Lemma index_by_cons x l (m : gmap K A) :
  index_by key (x :: l) m = index_by key l (<[key x := x]> m).
Proof. reflexivity. Qed.

Lemma index_by_app l1 l2 (m : gmap K A) :
  index_by key (l1 ++ l2) m = index_by key l2 (index_by key l1 m).
Proof. unfold index_by. apply fold_left_app. Qed.

Lemma index_by_snoc l x (m : gmap K A) :
  index_by key (l ++ [x]) m = <[key x := x]> (index_by key l m).
Proof. rewrite index_by_app. reflexivity. Qed.

Lemma index_by_lookup_notin l : forall (m : gmap K A) k,
  k ∉ map key l -> index_by key l m !! k = m !! k.
Proof.
  induction l as [|x l IH]; intros m k Hk; [reflexivity|].
  rewrite index_by_cons, IH.
  - apply lookup_insert_ne. intros Heq. apply Hk. subst k. simpl. left.
  - intros Hin. apply Hk. simpl. right. exact Hin.
Qed.

Lemma index_by_lookup_inv l : forall (m : gmap K A) k y,
  index_by key l m !! k = Some y -> (y ∈ l /\ key y = k) \/ m !! k = Some y.
Proof.
  induction l as [|x l IH]; intros m k y Hy; [right; exact Hy|].
  rewrite index_by_cons in Hy. apply IH in Hy as [[Hin Hk]|Hy].
  - left. split; [right; exact Hin | exact Hk].
  - destruct (decide (key x = k)) as [Heq|Hne].
    + subst k. rewrite lookup_insert_eq in Hy. injection Hy as <-.
      left. split; [left | reflexivity].
    + rewrite lookup_insert_ne in Hy by exact Hne. right. exact Hy.
Qed.

Lemma index_by_lookup_in l (m : gmap K A) : forall x,
  x ∈ l -> exists y, index_by key l m !! key x = Some y /\ y ∈ l /\ key y = key x.
Proof.
  induction l as [|x0 l IH] using rev_ind; intros x Hx; [inversion Hx|].
  rewrite index_by_snoc.
  destruct (decide (key x0 = key x)) as [Heq|Hne].
  - exists x0. rewrite <- Heq, lookup_insert_eq.
    split; [reflexivity|]. split; [|reflexivity].
    apply elem_of_app. right. left.
  - apply elem_of_app in Hx as [Hx|Hx].
    + destruct (IH x Hx) as (y & Hy & Hin & Hk).
      exists y. rewrite lookup_insert_ne by exact Hne.
      split; [exact Hy|]. split; [|exact Hk].
      apply elem_of_app. left. exact Hin.
    + apply list_elem_of_singleton in Hx. subst x0. congruence.
Qed.

Lemma NoDup_key_inj l : NoDup (map key l) ->
  forall x y, x ∈ l -> y ∈ l -> key x = key y -> x = y.
Proof.
  induction l as [|x0 l IH]; intros Hnd x y Hx Hy Hk; [inversion Hx|].
  simpl in Hnd. apply NoDup_cons in Hnd as [Hnin Hnd].
  apply elem_of_cons in Hx as [->|Hx]; apply elem_of_cons in Hy as [->|Hy].
  - reflexivity.
  - exfalso. apply Hnin. rewrite Hk. apply (list_elem_of_fmap_2 key). exact Hy.
  - exfalso. apply Hnin. rewrite <- Hk. apply (list_elem_of_fmap_2 key). exact Hx.
  - apply IH; assumption.
Qed.

Lemma index_by_lookup_NoDup l (m : gmap K A) x :
  NoDup (map key l) -> x ∈ l -> index_by key l m !! key x = Some x.
Proof.
  intros Hnd Hx. destruct (index_by_lookup_in l m x Hx) as (y & Hy & Hin & Hk).
  rewrite Hy. f_equal. apply (NoDup_key_inj l Hnd); assumption.
Qed.
End IndexBy.

(** ** What one page does to the state *)

(** The range loop of lines 80-85 writes four maps and nothing else. *)
Lemma fold_pgIndexTeam_frame (l : list Team) : forall s,
  let s' := fold_left pgIndexTeam l s in
  pgGetAllTeamsResponse s' = pgGetAllTeamsResponse s /\
  pgGetAllTeamReposResponse s' = pgGetAllTeamReposResponse s /\
  pgReposByTeamIdAndRepoName s' = pgReposByTeamIdAndRepoName s /\
  pgMutexInitializeLocalDataTeams s' = pgMutexInitializeLocalDataTeams s /\
  pgDoneGetAllTeams s' = pgDoneGetAllTeams s /\
  pgApiCalls s' = pgApiCalls s.
Proof.
  induction l as [|t l IH]; intros s; simpl; [tauto|].
  destruct (IH (pgIndexTeam s t)) as (-> & -> & -> & -> & -> & ->).
  simpl. tauto.
Qed.

Lemma fold_pgIndexTeam_byId (l : list Team) : forall s,
  pgTeamsByTeamId (fold_left pgIndexTeam l s) = index_by Team_GetID l (pgTeamsByTeamId s).
Proof. induction l as [|t l IH]; intros s; simpl; [reflexivity|]. rewrite IH. reflexivity. Qed.

Lemma fold_pgIndexTeam_bySlug (l : list Team) : forall s,
  pgTeamsByTeamSlug (fold_left pgIndexTeam l s)
  = index_by Team_GetSlug l (pgTeamsByTeamSlug s).
Proof. induction l as [|t l IH]; intros s; simpl; [reflexivity|]. rewrite IH. reflexivity. Qed.

(** Every team of the page gets an unlocked mutex and a cleared flag; the
    entries of other identifiers stay. *)
Lemma fold_pgIndexTeam_mutex (l : list Team) : forall s id,
  pgMutexInitializeLocalDataTeamRepos (fold_left pgIndexTeam l s) !! id
  = if decide (id ∈ map Team_GetID l) then Some Unlocked
    else pgMutexInitializeLocalDataTeamRepos s !! id.
Proof.
  induction l as [|t l IH]; intros s id; simpl.
  - reflexivity.
  - rewrite IH. simpl.
    destruct (decide (id ∈ map Team_GetID l)) as [Hin|Hnin].
    + rewrite decide_True by (right; exact Hin). reflexivity.
    + destruct (decide (Team_GetID t = id)) as [Heq|Hne].
      * subst id. rewrite lookup_insert_eq, decide_True by left. reflexivity.
      * rewrite lookup_insert_ne by exact Hne.
        rewrite decide_False; [reflexivity|].
        intros Hin. apply elem_of_cons in Hin as [Heq|Hin]; [congruence|tauto].
Qed.

Lemma fold_pgIndexTeam_done (l : list Team) : forall s id,
  pgDoneGetAllTeamRepos (fold_left pgIndexTeam l s) !! id
  = if decide (id ∈ map Team_GetID l) then Some false
    else pgDoneGetAllTeamRepos s !! id.
Proof.
  induction l as [|t l IH]; intros s id; simpl.
  - reflexivity.
  - rewrite IH. simpl.
    destruct (decide (id ∈ map Team_GetID l)) as [Hin|Hnin].
    + rewrite decide_True by (right; exact Hin). reflexivity.
    + destruct (decide (Team_GetID t = id)) as [Heq|Hne].
      * subst id. rewrite lookup_insert_eq, decide_True by left. reflexivity.
      * rewrite lookup_insert_ne by exact Hne.
        rewrite decide_False; [reflexivity|].
        intros Hin. apply elem_of_cons in Hin as [Heq|Hin]; [congruence|tauto].
Qed.

(** ** The page loop of the teams load, one iteration *)

Lemma pgTeamsLoop_failed fuel client page s :
  pageFailed (teamsAnswer client (pgApiCalls s) page) = true ->
  pgTeamsLoop (S fuel) client page s
  = LoopReturn (answer_err (teamsAnswer client (pgApiCalls s) page))
               (teamsStore page (teamsAnswer client (pgApiCalls s) page) s).
Proof.
  unfold pageFailed, teamsAnswer, teamsStore, answer_err, answer_items, answer_resp.
  simpl. unfold pageOpts.
  destruct (ListTeams _ _ _ _) as [[ts resp] [e|]]; simpl; [reflexivity|discriminate].
Qed.

Lemma pgTeamsLoop_short fuel client page s :
  pageShort (teamsAnswer client (pgApiCalls s) page) = true ->
  pgTeamsLoop (S fuel) client page s
  = LoopBreak tt (teamsAbsorb page (teamsAnswer client (pgApiCalls s) page) s).
Proof.
  unfold pageShort, teamsAnswer, teamsAbsorb, teamsStore, answer_err, answer_items,
    answer_resp.
  simpl. unfold pageOpts.
  destruct (ListTeams _ _ _ _) as [[ts resp] [e|]]; simpl; [discriminate|].
  intros Hlen.
  destruct (fold_pgIndexTeam_frame ts
    (set_pgGetAllTeamsResponse {| teams := ts; teams_resp := resp; teams_err := None |}
       (log_call (CallListTeams pgGithubOrgName {| PerPage := 100; Page := page |}) s)))
    as (-> & _).
  simpl. rewrite Hlen. reflexivity.
Qed.

Lemma pgTeamsLoop_full fuel client page s :
  pageFull (teamsAnswer client (pgApiCalls s) page) = true ->
  pgTeamsLoop (S fuel) client page s
  = pgTeamsLoop fuel client (int_wrap (page + 1))
      (teamsAbsorb page (teamsAnswer client (pgApiCalls s) page) s).
Proof.
  unfold pageFull, teamsAnswer, teamsAbsorb, teamsStore, answer_err, answer_items,
    answer_resp.
  simpl. unfold pageOpts.
  destruct (ListTeams _ _ _ _) as [[ts resp] [e|]]; simpl; [discriminate|].
  intros Hlen. apply negb_true_iff in Hlen.
  destruct (fold_pgIndexTeam_frame ts
    (set_pgGetAllTeamsResponse {| teams := ts; teams_resp := resp; teams_err := None |}
       (log_call (CallListTeams pgGithubOrgName {| PerPage := 100; Page := page |}) s)))
    as (-> & _).
  simpl. rewrite Hlen. reflexivity.
Qed.

Lemma teamsAbsorb_calls page a s :
  pgApiCalls (teamsAbsorb page a s) = pgApiCalls s ++ [teamsRequest page].
Proof.
  unfold teamsAbsorb.
  destruct (fold_pgIndexTeam_frame (answer_items a) (teamsStore page a s))
    as (_ & _ & _ & _ & _ & ->).
  reflexivity.
Qed.

(** ** The page loop of the teams load, a run of full pages *)

Lemma pgTeamsLoop_full_pages client (n : nat) : forall fuel page s,
  0 <= page -> page + Z.of_nat n < 2 ^ 63 ->
  forallb pageFull (teamsListing client (pgApiCalls s) page n) = true ->
  pgTeamsLoop (n + fuel) client page s
  = pgTeamsLoop fuel client (page + Z.of_nat n)
      (teamsAbsorbAll page (teamsListing client (pgApiCalls s) page n) s).
Proof.
  induction n as [|n IH]; intros fuel page s Hpage Hbound Hfull.
  - simpl. rewrite Z.add_0_r. reflexivity.
  - cbn [teamsListing forallb] in Hfull. apply andb_true_iff in Hfull as [Hhd Htl].
    cbn [Nat.add teamsListing teamsAbsorbAll].
    rewrite pgTeamsLoop_full by exact Hhd.
    rewrite int_wrap_next by lia.
    rewrite IH.
    + rewrite teamsAbsorb_calls. f_equal. lia.
    + lia.
    + lia.
    + rewrite teamsAbsorb_calls. exact Htl.
Qed.

(** ** Shapes of a complete pagination *)

Lemma endsShort_inv {A : Type} (answers : list (list A * option Response * option error)) :
  endsShort answers = true ->
  exists fulls a, answers = fulls ++ [a] /\
    forallb pageFull fulls = true /\ pageShort a = true.
Proof.
  induction answers as [|a rest IH]; [discriminate|].
  destruct rest as [|b rest].
  - intros Ha. exists [], a. auto.
  - cbn [endsShort]. intros Hab. apply andb_true_iff in Hab as [Ha Hrest].
    destruct (IH Hrest) as (fulls & z & -> & Hfulls & Hz).
    exists (a :: fulls), z. simpl. rewrite Ha, Hfulls. auto.
Qed.

Lemma endsFailed_inv {A : Type} (answers : list (list A * option Response * option error)) :
  endsFailed answers = true ->
  exists fulls a, answers = fulls ++ [a] /\
    forallb pageFull fulls = true /\ pageFailed a = true.
Proof.
  induction answers as [|a rest IH]; [discriminate|].
  destruct rest as [|b rest].
  - intros Ha. exists [], a. auto.
  - cbn [endsFailed]. intros Hab. apply andb_true_iff in Hab as [Ha Hrest].
    destruct (IH Hrest) as (fulls & z & -> & Hfulls & Hz).
    exists (a :: fulls), z. simpl. rewrite Ha, Hfulls. auto.
Qed.

Lemma firstBelow100_inv {A : Type} (answers : list (list A * option Response * option error)) :
  firstBelow100 answers = true ->
  exists fulls a, answers = fulls ++ [a] /\
    Forall (fun b => (100 <= length (answer_items b))%nat) fulls /\
    (length (answer_items a) < 100)%nat.
Proof.
  induction answers as [|a rest IH]; [discriminate|].
  destruct rest as [|b rest].
  - cbn [firstBelow100]. intros Ha. apply Nat.ltb_lt in Ha. exists [], a. auto.
  - cbn [firstBelow100]. intros Hab. apply andb_true_iff in Hab as [Ha Hrest].
    apply negb_true_iff, Nat.ltb_ge in Ha.
    destruct (IH Hrest) as (fulls & z & -> & Hfulls & Hz).
    exists (a :: fulls), z. simpl. auto.
Qed.

(** With a client that returns no items along with an error, the first page
    below 100 items is where the pagination ends, one way or the other. *)
Lemma firstBelow100_ends {A : Type}
    (answers : list (list A * option Response * option error)) :
  forallb nilOnError answers = true -> firstBelow100 answers = true ->
  endsShort answers = true \/ endsFailed answers = true.
Proof.
  induction answers as [|a rest IH]; [discriminate|].
  destruct rest as [|b rest].
  - cbn [firstBelow100 endsShort endsFailed forallb]. unfold pageShort, pageFailed.
    intros _ Ha. destruct (answer_err a); [right; reflexivity|left; exact Ha].
  - cbn [firstBelow100 endsShort endsFailed]. intros Hnil Hab.
    change (forallb nilOnError (a :: b :: rest))
      with (nilOnError a && forallb nilOnError (b :: rest)) in Hnil.
    apply andb_true_iff in Hnil as [Hnila Hnil].
    apply andb_true_iff in Hab as [Ha Hrest].
    assert (Hfull : pageFull a = true).
    { unfold pageFull. unfold nilOnError in Hnila.
      destruct (answer_err a); [|exact Ha].
      destruct (answer_items a); [discriminate Ha|discriminate Hnila]. }
    rewrite Hfull. simpl. apply IH; assumption.
Qed.

Lemma teamsListing_length client n : forall L page,
  length (teamsListing client L page n) = n.
Proof. induction n as [|n IH]; intros L page; simpl; [reflexivity|]. rewrite IH. reflexivity. Qed.

Lemma teamsRequests_length n : forall page, length (teamsRequests page n) = n.
Proof. induction n as [|n IH]; intros page; simpl; [reflexivity|]. rewrite IH. reflexivity. Qed.

Lemma teamsRequests_snoc n : forall page,
  teamsRequests page (S n) = teamsRequests page n ++ [teamsRequest (page + Z.of_nat n)].
Proof.
  induction n as [|n IH]; intros page.
  - simpl. rewrite Z.add_0_r. reflexivity.
  - change (teamsRequests page (S (S n)))
      with (teamsRequest page :: teamsRequests (page + 1) (S n)).
    rewrite IH.
    replace (page + Z.of_nat (S n)) with (page + 1 + Z.of_nat n) by lia.
    reflexivity.
Qed.

Lemma teamsListing_snoc client n : forall L page,
  teamsListing client L page (S n)
  = teamsListing client L page n
    ++ [teamsAnswer client (L ++ teamsRequests page n) (page + Z.of_nat n)].
Proof.
  induction n as [|n IH]; intros L page.
  - simpl. rewrite Z.add_0_r, app_nil_r. reflexivity.
  - change (teamsListing client L page (S (S n)))
      with (teamsAnswer client L page
              :: teamsListing client (L ++ [teamsRequest page]) (page + 1) (S n)).
    rewrite IH.
    replace (page + Z.of_nat (S n)) with (page + 1 + Z.of_nat n) by lia.
    cbn [teamsListing teamsRequests app]. rewrite <- app_assoc. reflexivity.
Qed.

Lemma teamsAbsorbAll_snoc answers : forall page a s,
  teamsAbsorbAll page (answers ++ [a]) s
  = teamsAbsorb (page + Z.of_nat (length answers)) a (teamsAbsorbAll page answers s).
Proof.
  induction answers as [|b answers IH]; intros page a s.
  - simpl. rewrite Z.add_0_r. reflexivity.
  - cbn [app teamsAbsorbAll length]. rewrite IH. f_equal. lia.
Qed.

Lemma teamsAbsorbAll_calls answers : forall page s,
  pgApiCalls (teamsAbsorbAll page answers s)
  = pgApiCalls s ++ teamsRequests page (length answers).
Proof.
  induction answers as [|a answers IH]; intros page s.
  - simpl. rewrite app_nil_r. reflexivity.
  - cbn [teamsAbsorbAll length teamsRequests]. rewrite IH, teamsAbsorb_calls.
    rewrite <- app_assoc. reflexivity.
Qed.

(** What a run of pages leaves in the variables of the teams load. *)
Lemma teamsAbsorb_frame page a s :
  let s' := teamsAbsorb page a s in
  pgGetAllTeamsResponse s'
    = {| teams := answer_items a; teams_resp := answer_resp a; teams_err := answer_err a |} /\
  pgGetAllTeamReposResponse s' = pgGetAllTeamReposResponse s /\
  pgReposByTeamIdAndRepoName s' = pgReposByTeamIdAndRepoName s /\
  pgMutexInitializeLocalDataTeams s' = pgMutexInitializeLocalDataTeams s /\
  pgDoneGetAllTeams s' = pgDoneGetAllTeams s.
Proof.
  unfold teamsAbsorb.
  destruct (fold_pgIndexTeam_frame (answer_items a) (teamsStore page a s))
    as (-> & -> & -> & -> & -> & _).
  simpl. tauto.
Qed.

Lemma teamsAbsorbAll_frame answers : forall page s,
  let s' := teamsAbsorbAll page answers s in
  pgGetAllTeamReposResponse s' = pgGetAllTeamReposResponse s /\
  pgReposByTeamIdAndRepoName s' = pgReposByTeamIdAndRepoName s /\
  pgMutexInitializeLocalDataTeams s' = pgMutexInitializeLocalDataTeams s /\
  pgDoneGetAllTeams s' = pgDoneGetAllTeams s.
Proof.
  induction answers as [|a answers IH]; intros page s; cbn [teamsAbsorbAll]; [tauto|].
  destruct (IH (page + 1) (teamsAbsorb page a s)) as (-> & -> & -> & ->).
  destruct (teamsAbsorb_frame page a s) as (_ & -> & -> & -> & ->). tauto.
Qed.

Lemma teamsAbsorbAll_byId answers : forall page s,
  pgTeamsByTeamId (teamsAbsorbAll page answers s)
  = index_by Team_GetID (fetched answers) (pgTeamsByTeamId s).
Proof.
  induction answers as [|a answers IH]; intros page s; [reflexivity|].
  cbn [teamsAbsorbAll]. rewrite IH. unfold teamsAbsorb.
  rewrite fold_pgIndexTeam_byId. unfold fetched. simpl.
  rewrite index_by_app. reflexivity.
Qed.

Lemma teamsAbsorbAll_bySlug answers : forall page s,
  pgTeamsByTeamSlug (teamsAbsorbAll page answers s)
  = index_by Team_GetSlug (fetched answers) (pgTeamsByTeamSlug s).
Proof.
  induction answers as [|a answers IH]; intros page s; [reflexivity|].
  cbn [teamsAbsorbAll]. rewrite IH. unfold teamsAbsorb.
  rewrite fold_pgIndexTeam_bySlug. unfold fetched. simpl.
  rewrite index_by_app. reflexivity.
Qed.

(** Case analysis on the membership tests of a goal about a list that was
    split with [++]. *)
Ltac split_membership :=
  repeat match goal with
  | |- context [decide (?x ∈ ?l)] =>
    lazymatch l with
    | _ ++ _ => fail
    | _ => destruct (decide (x ∈ l))
    end
  end;
  first [ rewrite decide_True by (apply elem_of_app; auto)
        | rewrite decide_False by (rewrite elem_of_app; tauto) ];
  reflexivity.

Lemma teamsAbsorbAll_mutex answers : forall page s id,
  pgMutexInitializeLocalDataTeamRepos (teamsAbsorbAll page answers s) !! id
  = if decide (id ∈ map Team_GetID (fetched answers)) then Some Unlocked
    else pgMutexInitializeLocalDataTeamRepos s !! id.
Proof.
  induction answers as [|a answers IH]; intros page s id; [reflexivity|].
  cbn [teamsAbsorbAll]. rewrite IH. unfold teamsAbsorb.
  rewrite fold_pgIndexTeam_mutex. unfold fetched.
  cbn [map concat]. rewrite map_app.
  split_membership.
Qed.

Lemma teamsAbsorbAll_done answers : forall page s id,
  pgDoneGetAllTeamRepos (teamsAbsorbAll page answers s) !! id
  = if decide (id ∈ map Team_GetID (fetched answers)) then Some false
    else pgDoneGetAllTeamRepos s !! id.
Proof.
  induction answers as [|a answers IH]; intros page s id; [reflexivity|].
  cbn [teamsAbsorbAll]. rewrite IH. unfold teamsAbsorb.
  rewrite fold_pgIndexTeam_done. unfold fetched.
  cbn [map concat]. rewrite map_app.
  split_membership.
Qed.

(** ** The teams load as a whole *)

(** A pagination that ends by a short page: the load returns nil and leaves
    [teamsLoadedState]. *)
Lemma pgInitializeLocalDataTeams_succeeds fuel client s k :
  pgMutexInitializeLocalDataTeams s = Unlocked ->
  pgDoneGetAllTeams s = false ->
  endsShort (teamsListing client (pgApiCalls s) 1 k) = true ->
  Z.of_nat k < 2 ^ 63 -> (k <= fuel)%nat ->
  pgInitializeLocalDataTeams fuel client s
  = Returned None (teamsLoadedState (teamsListing client (pgApiCalls s) 1 k) s).
Proof.
  intros Hmutex Hdone Hends Hk Hfuel.
  destruct k as [|n]; [discriminate Hends|].
  rewrite teamsListing_snoc in Hends |- *.
  apply endsShort_inv in Hends as (fulls & a & Heq & Hfulls & Ha).
  apply app_inj_tail in Heq as [<- <-].
  unfold pgInitializeLocalDataTeams, teamsLoadedState. rewrite Hmutex.
  cbn [pgDoneGetAllTeams set_pgMutexInitializeLocalDataTeams]. rewrite Hdone. cbn [negb].
  set (s1 := set_pgMutexInitializeLocalDataTeams Locked s).
  change (pgApiCalls s) with (pgApiCalls s1) in *.
  replace fuel with (n + S (fuel - S n))%nat by lia.
  rewrite pgTeamsLoop_full_pages by (try exact Hfulls; lia).
  rewrite teamsAbsorbAll_snoc, teamsListing_length.
  rewrite pgTeamsLoop_short by (rewrite teamsAbsorbAll_calls, teamsListing_length; exact Ha).
  rewrite teamsAbsorbAll_calls, teamsListing_length.
  set (a := teamsAnswer client _ _) in *.
  set (s2 := teamsAbsorb (1 + Z.of_nat n) a _).
  unfold pgTeamsUnlockReturn. cbn [pgMutexInitializeLocalDataTeams set_pgDoneGetAllTeams].
  destruct (teamsAbsorb_frame (1 + Z.of_nat n) a
              (teamsAbsorbAll 1 (teamsListing client (pgApiCalls s1) 1 n) s1))
    as (Hresp & _ & _ & Hm & _).
  fold s2 in Hresp, Hm. rewrite Hm.
  destruct (teamsAbsorbAll_frame (teamsListing client (pgApiCalls s1) 1 n) 1 s1)
    as (_ & _ & -> & _).
  cbn [pgMutexInitializeLocalDataTeams s1 set_pgMutexInitializeLocalDataTeams].
  cbn [pgGetAllTeamsResponse set_pgMutexInitializeLocalDataTeams set_pgDoneGetAllTeams].
  rewrite Hresp. cbn [teams_err].
  unfold pageShort in Ha. destruct (answer_err a); [discriminate Ha|reflexivity].
Qed.

(** A pagination that ends by an error: the load returns it from inside the
    loop and leaves [teamsFailedState]. *)
Lemma pgInitializeLocalDataTeams_fails fuel client s k :
  pgMutexInitializeLocalDataTeams s = Unlocked ->
  pgDoneGetAllTeams s = false ->
  endsFailed (teamsListing client (pgApiCalls s) 1 k) = true ->
  Z.of_nat k < 2 ^ 63 -> (k <= fuel)%nat ->
  pgInitializeLocalDataTeams fuel client s
  = Returned (answer_err (lastAnswer (teamsListing client (pgApiCalls s) 1 k)))
             (teamsFailedState (teamsListing client (pgApiCalls s) 1 k) s).
Proof.
  intros Hmutex Hdone Hends Hk Hfuel.
  destruct k as [|n]; [discriminate Hends|].
  unfold teamsFailedState, lastAnswer. rewrite teamsListing_length.
  rewrite teamsListing_snoc in Hends |- *.
  apply endsFailed_inv in Hends as (fulls & a & Heq & Hfulls & Ha).
  apply app_inj_tail in Heq as [<- <-].
  rewrite last_last, removelast_last.
  unfold pgInitializeLocalDataTeams. rewrite Hmutex.
  cbn [pgDoneGetAllTeams set_pgMutexInitializeLocalDataTeams]. rewrite Hdone. cbn [negb].
  set (s1 := set_pgMutexInitializeLocalDataTeams Locked s).
  change (pgApiCalls s) with (pgApiCalls s1) in *.
  replace fuel with (n + S (fuel - S n))%nat by lia.
  rewrite pgTeamsLoop_full_pages by (try exact Hfulls; lia).
  rewrite pgTeamsLoop_failed by (rewrite teamsAbsorbAll_calls, teamsListing_length; exact Ha).
  rewrite teamsAbsorbAll_calls, teamsListing_length.
  replace (Z.of_nat (S n)) with (1 + Z.of_nat n) by lia.
  reflexivity.
Qed.

(** With the flag set, the load is skipped: nothing changes and the stored
    error comes back (lines 68-69, 94-95). *)
Lemma pgInitializeLocalDataTeams_done fuel client s :
  pgMutexInitializeLocalDataTeams s = Unlocked ->
  pgDoneGetAllTeams s = true ->
  pgInitializeLocalDataTeams fuel client s
  = Returned (teams_err (pgGetAllTeamsResponse s)) s.
Proof.
  intros Hmutex Hdone. unfold pgInitializeLocalDataTeams. rewrite Hmutex.
  cbn [pgDoneGetAllTeams set_pgMutexInitializeLocalDataTeams]. rewrite Hdone.
  cbn [negb]. unfold pgTeamsUnlockReturn.
  cbn [pgMutexInitializeLocalDataTeams set_pgMutexInitializeLocalDataTeams
       pgGetAllTeamsResponse].
  f_equal. destruct s; simpl in *; subst; reflexivity.
Qed.

(** With the mutex held, the call never gets past [Lock]. *)
Lemma pgInitializeLocalDataTeams_blocked fuel client s :
  pgMutexInitializeLocalDataTeams s = Locked ->
  pgInitializeLocalDataTeams fuel client s = Blocked s.
Proof. intros Hmutex. unfold pgInitializeLocalDataTeams. rewrite Hmutex. reflexivity. Qed.

(** ** The page loop of a children load *)

Lemma pgTeamReposLoop_failed fuel client teamID page m s :
  pageFailed (reposAnswer client (pgApiCalls s) teamID page) = true ->
  pgTeamReposLoop (S fuel) client teamID page m s
  = LoopReturn (answer_err (reposAnswer client (pgApiCalls s) teamID page))
               (reposStore teamID page (reposAnswer client (pgApiCalls s) teamID page) s).
Proof.
  unfold pageFailed, reposAnswer, reposStore, answer_err, answer_items, answer_resp.
  simpl. unfold pageOpts.
  destruct (ListTeamReposByID _ _ _ _ _) as [[rs resp] [e|]]; simpl;
    [reflexivity|discriminate].
Qed.

Lemma pgTeamReposLoop_short fuel client teamID page m s :
  pageShort (reposAnswer client (pgApiCalls s) teamID page) = true ->
  pgTeamReposLoop (S fuel) client teamID page m s
  = LoopBreak
      (index_by Repository_GetName
         (answer_items (reposAnswer client (pgApiCalls s) teamID page)) m)
      (reposStore teamID page (reposAnswer client (pgApiCalls s) teamID page) s).
Proof.
  unfold pageShort, reposAnswer, reposStore, answer_err, answer_items, answer_resp.
  simpl. unfold pageOpts.
  destruct (ListTeamReposByID _ _ _ _ _) as [[rs resp] [e|]]; simpl; [discriminate|].
  intros ->. reflexivity.
Qed.

Lemma pgTeamReposLoop_full fuel client teamID page m s :
  pageFull (reposAnswer client (pgApiCalls s) teamID page) = true ->
  pgTeamReposLoop (S fuel) client teamID page m s
  = pgTeamReposLoop fuel client teamID (int_wrap (page + 1))
      (index_by Repository_GetName
         (answer_items (reposAnswer client (pgApiCalls s) teamID page)) m)
      (reposStore teamID page (reposAnswer client (pgApiCalls s) teamID page) s).
Proof.
  unfold pageFull, reposAnswer, reposStore, answer_err, answer_items, answer_resp.
  simpl. unfold pageOpts.
  destruct (ListTeamReposByID _ _ _ _ _) as [[rs resp] [e|]]; simpl; [discriminate|].
  intros Hlen. apply negb_true_iff in Hlen. rewrite Hlen. reflexivity.
Qed.

Lemma reposStore_calls teamID page a s :
  pgApiCalls (reposStore teamID page a s) = pgApiCalls s ++ [reposRequest teamID page].
Proof. reflexivity. Qed.

Lemma pgTeamReposLoop_full_pages client teamID (n : nat) : forall fuel page m s,
  0 <= page -> page + Z.of_nat n < 2 ^ 63 ->
  forallb pageFull (reposListing client (pgApiCalls s) teamID page n) = true ->
  pgTeamReposLoop (n + fuel) client teamID page m s
  = pgTeamReposLoop fuel client teamID (page + Z.of_nat n)
      (index_by Repository_GetName
         (fetched (reposListing client (pgApiCalls s) teamID page n)) m)
      (reposStoreAll teamID page (reposListing client (pgApiCalls s) teamID page n) s).
Proof.
  induction n as [|n IH]; intros fuel page m s Hpage Hbound Hfull.
  - simpl. rewrite Z.add_0_r. reflexivity.
  - cbn [reposListing forallb] in Hfull. apply andb_true_iff in Hfull as [Hhd Htl].
    cbn [Nat.add reposListing reposStoreAll].
    rewrite pgTeamReposLoop_full by exact Hhd.
    rewrite int_wrap_next by lia.
    rewrite IH.
    + rewrite reposStore_calls. unfold fetched. cbn [map concat].
      rewrite index_by_app. f_equal. lia.
    + lia.
    + lia.
    + rewrite reposStore_calls. exact Htl.
Qed.

Lemma reposListing_length client teamID n : forall L page,
  length (reposListing client L teamID page n) = n.
Proof. induction n as [|n IH]; intros L page; simpl; [reflexivity|]. rewrite IH. reflexivity. Qed.

Lemma reposRequests_snoc teamID n : forall page,
  reposRequests teamID page (S n)
  = reposRequests teamID page n ++ [reposRequest teamID (page + Z.of_nat n)].
Proof.
  induction n as [|n IH]; intros page.
  - simpl. rewrite Z.add_0_r. reflexivity.
  - change (reposRequests teamID page (S (S n)))
      with (reposRequest teamID page :: reposRequests teamID (page + 1) (S n)).
    rewrite IH.
    replace (page + Z.of_nat (S n)) with (page + 1 + Z.of_nat n) by lia.
    reflexivity.
Qed.

Lemma reposListing_snoc client teamID n : forall L page,
  reposListing client L teamID page (S n)
  = reposListing client L teamID page n
    ++ [reposAnswer client (L ++ reposRequests teamID page n) teamID (page + Z.of_nat n)].
Proof.
  induction n as [|n IH]; intros L page.
  - simpl. rewrite Z.add_0_r, app_nil_r. reflexivity.
  - change (reposListing client L teamID page (S (S n)))
      with (reposAnswer client L teamID page
              :: reposListing client (L ++ [reposRequest teamID page]) teamID
                   (page + 1) (S n)).
    rewrite IH.
    replace (page + Z.of_nat (S n)) with (page + 1 + Z.of_nat n) by lia.
    cbn [reposListing reposRequests app]. rewrite <- app_assoc. reflexivity.
Qed.

Lemma reposStoreAll_snoc teamID answers : forall page a s,
  reposStoreAll teamID page (answers ++ [a]) s
  = reposStore teamID (page + Z.of_nat (length answers)) a
      (reposStoreAll teamID page answers s).
Proof.
  induction answers as [|b answers IH]; intros page a s.
  - simpl. rewrite Z.add_0_r. reflexivity.
  - cbn [app reposStoreAll length]. rewrite IH. f_equal. lia.
Qed.

Lemma reposStoreAll_calls teamID answers : forall page s,
  pgApiCalls (reposStoreAll teamID page answers s)
  = pgApiCalls s ++ reposRequests teamID page (length answers).
Proof.
  induction answers as [|a answers IH]; intros page s.
  - simpl. rewrite app_nil_r. reflexivity.
  - cbn [reposStoreAll length reposRequests]. rewrite IH, reposStore_calls.
    rewrite <- app_assoc. reflexivity.
Qed.

(** The pages of a children load only touch the shared response holder and
    the log. *)
Lemma reposStoreAll_frame teamID answers : forall page s,
  let s' := reposStoreAll teamID page answers s in
  pgGetAllTeamsResponse s' = pgGetAllTeamsResponse s /\
  pgTeamsByTeamId s' = pgTeamsByTeamId s /\
  pgTeamsByTeamSlug s' = pgTeamsByTeamSlug s /\
  pgReposByTeamIdAndRepoName s' = pgReposByTeamIdAndRepoName s /\
  pgMutexInitializeLocalDataTeams s' = pgMutexInitializeLocalDataTeams s /\
  pgDoneGetAllTeams s' = pgDoneGetAllTeams s /\
  pgMutexInitializeLocalDataTeamRepos s' = pgMutexInitializeLocalDataTeamRepos s /\
  pgDoneGetAllTeamRepos s' = pgDoneGetAllTeamRepos s.
Proof.
  induction answers as [|a answers IH]; intros page s; cbn [reposStoreAll].
  - repeat split.
  - destruct (IH (page + 1) (reposStore teamID page a s))
      as (-> & -> & -> & -> & -> & -> & -> & ->).
    repeat split.
Qed.

Lemma reposStoreAll_response teamID answers a : forall page s,
  pgGetAllTeamReposResponse (reposStoreAll teamID page (answers ++ [a]) s)
  = {| repos := answer_items a; repos_resp := answer_resp a; repos_err := answer_err a |}.
Proof. intros page s. rewrite reposStoreAll_snoc. reflexivity. Qed.

(** ** A children load as a whole *)

Lemma pgInitializeLocalDataTeamRepos_succeeds fuel client s teamID k :
  pgMutexInitializeLocalDataTeamRepos s !! teamID = Some Unlocked ->
  default false (pgDoneGetAllTeamRepos s !! teamID) = false ->
  endsShort (reposListing client (pgApiCalls s) teamID 1 k) = true ->
  Z.of_nat k < 2 ^ 63 -> (k <= fuel)%nat ->
  pgInitializeLocalDataTeamRepos fuel client s teamID
  = Returned None
      (reposLoadedState teamID (reposListing client (pgApiCalls s) teamID 1 k) s).
Proof.
  intros Hmutex Hdone Hends Hk Hfuel.
  destruct k as [|n]; [discriminate Hends|].
  unfold pgInitializeLocalDataTeamRepos, reposLoadedState. rewrite Hmutex.
  fold (reposLockedState teamID s).
  change (pgDoneGetAllTeamRepos (reposLockedState teamID s))
    with (pgDoneGetAllTeamRepos s).
  rewrite Hdone. cbn [negb].
  set (s1 := reposLockedState teamID s).
  change (pgApiCalls s) with (pgApiCalls s1) in *.
  rewrite reposListing_snoc in Hends |- *.
  apply endsShort_inv in Hends as (fulls & a & Heq & Hfulls & Ha).
  apply app_inj_tail in Heq as [<- <-].
  replace fuel with (n + S (fuel - S n))%nat by lia.
  rewrite pgTeamReposLoop_full_pages by (try exact Hfulls; lia).
  rewrite pgTeamReposLoop_short
    by (rewrite reposStoreAll_calls, reposListing_length; exact Ha).
  rewrite reposStoreAll_calls, reposListing_length.
  rewrite reposStoreAll_snoc, reposListing_length.
  set (fulls := reposListing client (pgApiCalls s1) teamID 1 n) in *.
  set (a := reposAnswer client _ _ _) in *.
  set (s2 := reposStore teamID (1 + Z.of_nat n) a (reposStoreAll teamID 1 fulls s1)).
  assert (Hfetched : fetched (fulls ++ [a]) = fetched fulls ++ answer_items a).
  { unfold fetched. rewrite map_app, concat_app. simpl. rewrite app_nil_r. reflexivity. }
  rewrite Hfetched, index_by_app.
  unfold pgTeamReposUnlockReturn.
  cbn [pgMutexInitializeLocalDataTeamRepos set_pgDoneGetAllTeamRepos
       set_pgReposByTeamIdAndRepoName].
  assert (Hm2 : pgMutexInitializeLocalDataTeamRepos s2
                = <[teamID := Locked]> (pgMutexInitializeLocalDataTeamRepos s)).
  { unfold s2. cbn [reposStore pgMutexInitializeLocalDataTeamRepos
                    set_pgGetAllTeamReposResponse log_call].
    destruct (reposStoreAll_frame teamID fulls 1 s1) as (_ & _ & _ & _ & _ & _ & -> & _).
    reflexivity. }
  rewrite Hm2, lookup_insert_eq.
  cbn [pgGetAllTeamReposResponse set_pgMutexInitializeLocalDataTeamRepos
       set_pgDoneGetAllTeamRepos set_pgReposByTeamIdAndRepoName].
  replace (repos_err (pgGetAllTeamReposResponse s2)) with (@None error); [reflexivity|].
  unfold s2. cbn. unfold pageShort in Ha.
  destruct (answer_err a); [discriminate Ha|reflexivity].
Qed.

Lemma pgInitializeLocalDataTeamRepos_fails fuel client s teamID k :
  pgMutexInitializeLocalDataTeamRepos s !! teamID = Some Unlocked ->
  default false (pgDoneGetAllTeamRepos s !! teamID) = false ->
  endsFailed (reposListing client (pgApiCalls s) teamID 1 k) = true ->
  Z.of_nat k < 2 ^ 63 -> (k <= fuel)%nat ->
  pgInitializeLocalDataTeamRepos fuel client s teamID
  = Returned (answer_err (lastAnswer (reposListing client (pgApiCalls s) teamID 1 k)))
      (reposFailedState teamID (reposListing client (pgApiCalls s) teamID 1 k) s).
Proof.
  intros Hmutex Hdone Hends Hk Hfuel.
  destruct k as [|n]; [discriminate Hends|].
  unfold pgInitializeLocalDataTeamRepos, reposFailedState, lastAnswer. rewrite Hmutex.
  fold (reposLockedState teamID s).
  change (pgDoneGetAllTeamRepos (reposLockedState teamID s))
    with (pgDoneGetAllTeamRepos s).
  rewrite Hdone. cbn [negb].
  set (s1 := reposLockedState teamID s).
  change (pgApiCalls s) with (pgApiCalls s1) in *.
  rewrite reposListing_snoc in Hends |- *.
  apply endsFailed_inv in Hends as (fulls & a & Heq & Hfulls & Ha).
  apply app_inj_tail in Heq as [<- <-].
  rewrite last_last.
  replace fuel with (n + S (fuel - S n))%nat by lia.
  rewrite pgTeamReposLoop_full_pages by (try exact Hfulls; lia).
  rewrite pgTeamReposLoop_failed
    by (rewrite reposStoreAll_calls, reposListing_length; exact Ha).
  rewrite reposStoreAll_calls, reposListing_length.
  rewrite reposStoreAll_snoc, reposListing_length.
  reflexivity.
Qed.

Lemma pgInitializeLocalDataTeamRepos_done fuel client s teamID :
  pgMutexInitializeLocalDataTeamRepos s !! teamID = Some Unlocked ->
  pgDoneGetAllTeamRepos s !! teamID = Some true ->
  pgInitializeLocalDataTeamRepos fuel client s teamID
  = Returned (repos_err (pgGetAllTeamReposResponse s)) s.
Proof.
  intros Hmutex Hdone. unfold pgInitializeLocalDataTeamRepos. rewrite Hmutex.
  cbn [pgDoneGetAllTeamRepos set_pgMutexInitializeLocalDataTeamRepos].
  rewrite Hdone. cbn [default negb]. unfold pgTeamReposUnlockReturn.
  cbn [pgMutexInitializeLocalDataTeamRepos set_pgMutexInitializeLocalDataTeamRepos].
  rewrite lookup_insert_eq.
  cbn [pgGetAllTeamReposResponse set_pgMutexInitializeLocalDataTeamRepos].
  f_equal. rewrite insert_insert_eq, (insert_id _ _ _ Hmutex).
  destruct s; reflexivity.
Qed.

Lemma pgInitializeLocalDataTeamRepos_blocked fuel client s teamID :
  pgMutexInitializeLocalDataTeamRepos s !! teamID = Some Locked ->
  pgInitializeLocalDataTeamRepos fuel client s teamID = Blocked s.
Proof. intros Hmutex. unfold pgInitializeLocalDataTeamRepos. rewrite Hmutex. reflexivity. Qed.

Lemma pgInitializeLocalDataTeamRepos_nil fuel client s teamID :
  pgMutexInitializeLocalDataTeamRepos s !! teamID = None ->
  pgInitializeLocalDataTeamRepos fuel client s teamID = Panicked s.
Proof. intros Hmutex. unfold pgInitializeLocalDataTeamRepos. rewrite Hmutex. reflexivity. Qed.

(** ** Which way a load can return *)

Lemma pgTeamsLoop_exit client fuel : forall page s,
  match pgTeamsLoop fuel client page s with
  | LoopBreak _ s' => teams_err (pgGetAllTeamsResponse s') = None
  | LoopReturn e s' => e <> None /\ teams_err (pgGetAllTeamsResponse s') = e
  | LoopOutOfFuel => True
  end.
Proof.
  induction fuel as [|fuel IH]; intros page s; [exact I|].
  set (a := teamsAnswer client (pgApiCalls s) page).
  destruct (answer_err a) as [e|] eqn:Herr.
  - rewrite pgTeamsLoop_failed by (unfold pageFailed; fold a; rewrite Herr; reflexivity).
    fold a. split; [rewrite Herr; discriminate|reflexivity].
  - destruct (length (answer_items a) <? 100)%nat eqn:Hlen.
    + rewrite pgTeamsLoop_short
        by (unfold pageShort; fold a; rewrite Herr; exact Hlen).
      fold a. destruct (teamsAbsorb_frame page a s) as (-> & _). exact Herr.
    + rewrite pgTeamsLoop_full
        by (unfold pageFull; fold a; rewrite Herr, Hlen; reflexivity).
      apply IH.
Qed.

(** Any property that each page request and each indexed team keeps is kept
    by the whole loop. *)
Lemma pgTeamsLoop_preserves (P : State -> Prop) client :
  (forall page a s, P s -> P (teamsStore page a s)) ->
  (forall s t, P s -> P (pgIndexTeam s t)) ->
  forall fuel page s, P s ->
  match pgTeamsLoop fuel client page s with
  | LoopBreak _ s' => P s'
  | LoopReturn _ s' => P s'
  | LoopOutOfFuel => True
  end.
Proof.
  intros Hstore Hindex.
  assert (Hfold : forall l s, P s -> P (fold_left pgIndexTeam l s)).
  { induction l as [|t l IHl]; intros s Hs; simpl; [exact Hs|]. apply IHl, Hindex, Hs. }
  induction fuel as [|fuel IH]; intros page s Hs; [exact I|].
  set (a := teamsAnswer client (pgApiCalls s) page).
  destruct (answer_err a) as [e|] eqn:Herr.
  - rewrite pgTeamsLoop_failed by (unfold pageFailed; fold a; rewrite Herr; reflexivity).
    apply Hstore, Hs.
  - destruct (length (answer_items a) <? 100)%nat eqn:Hlen.
    + rewrite pgTeamsLoop_short
        by (unfold pageShort; fold a; rewrite Herr; exact Hlen).
      apply Hfold, Hstore, Hs.
    + rewrite pgTeamsLoop_full
        by (unfold pageFull; fold a; rewrite Herr, Hlen; reflexivity).
      apply IH. apply Hfold, Hstore, Hs.
Qed.

(** The three ways the teams load returns: skipped, completed, failed. *)
Lemma pgInitializeLocalDataTeams_returned fuel client s e s' :
  pgInitializeLocalDataTeams fuel client s = Returned e s' ->
  pgMutexInitializeLocalDataTeams s = Unlocked /\
  teams_err (pgGetAllTeamsResponse s') = e /\
  sameChildren s s' /\
  ( (pgDoneGetAllTeams s = true /\ s' = s)
    \/ (pgDoneGetAllTeams s = false /\ e = None /\
        pgDoneGetAllTeams s' = true /\ pgMutexInitializeLocalDataTeams s' = Unlocked)
    \/ (pgDoneGetAllTeams s = false /\ e <> None /\
        pgDoneGetAllTeams s' = false /\ pgMutexInitializeLocalDataTeams s' = Locked) ).
Proof.
  intros Hret.
  destruct (pgMutexInitializeLocalDataTeams s) eqn:Hmutex;
    [|rewrite pgInitializeLocalDataTeams_blocked in Hret by exact Hmutex; discriminate].
  split; [reflexivity|].
  destruct (pgDoneGetAllTeams s) eqn:Hdone.
  - rewrite pgInitializeLocalDataTeams_done in Hret by assumption.
    injection Hret as <- <-. split; [reflexivity|]. split; [split; reflexivity|].
    left. split; reflexivity.
  - unfold pgInitializeLocalDataTeams in Hret. rewrite Hmutex in Hret.
    cbn [pgDoneGetAllTeams set_pgMutexInitializeLocalDataTeams] in Hret.
    rewrite Hdone in Hret. cbn [negb] in Hret.
    set (s1 := set_pgMutexInitializeLocalDataTeams Locked s) in Hret.
    pose proof (pgTeamsLoop_exit client fuel 1 s1) as Hexit.
    pose proof (pgTeamsLoop_preserves
      (fun x => sameChildren s x /\ pgMutexInitializeLocalDataTeams x = Locked /\
                pgDoneGetAllTeams x = false) client) as Hpres.
    specialize (Hpres ltac:(intros ? ? ? H; exact H) ltac:(intros ? ? H; exact H)
                  fuel 1 s1 ltac:(repeat split; exact Hdone)).
    destruct (pgTeamsLoop fuel client 1 s1) as [[] s2|e2 s2|]; [| |discriminate Hret].
    + destruct Hpres as (Hsame & Hm2 & Hd2).
      unfold pgTeamsUnlockReturn in Hret.
      cbn [pgMutexInitializeLocalDataTeams set_pgDoneGetAllTeams] in Hret.
      rewrite Hm2 in Hret. injection Hret as <- <-.
      cbn. split; [reflexivity|]. split; [exact Hsame|].
      right. left. repeat split. exact Hexit.
    + destruct Hpres as (Hsame & Hm2 & Hd2). destruct Hexit as [Hne Herr].
      injection Hret as <- <-.
      split; [exact Herr|]. split; [exact Hsame|].
      right. right. repeat split; assumption.
Qed.

Lemma pgTeamReposLoop_exit client teamID fuel : forall page m s,
  match pgTeamReposLoop fuel client teamID page m s with
  | LoopBreak _ s' =>
    sameButReposHolder s s' /\ repos_err (pgGetAllTeamReposResponse s') = None
  | LoopReturn e s' =>
    sameButReposHolder s s' /\ e <> None /\ repos_err (pgGetAllTeamReposResponse s') = e
  | LoopOutOfFuel => True
  end.
Proof.
  induction fuel as [|fuel IH]; intros page m s; [exact I|].
  set (a := reposAnswer client (pgApiCalls s) teamID page).
  destruct (answer_err a) as [e|] eqn:Herr.
  - rewrite pgTeamReposLoop_failed
      by (unfold pageFailed; fold a; rewrite Herr; reflexivity).
    fold a. split; [repeat split|]. split; [rewrite Herr; discriminate|reflexivity].
  - destruct (length (answer_items a) <? 100)%nat eqn:Hlen.
    + rewrite pgTeamReposLoop_short
        by (unfold pageShort; fold a; rewrite Herr; exact Hlen).
      fold a. split; [repeat split|exact Herr].
    + rewrite pgTeamReposLoop_full
        by (unfold pageFull; fold a; rewrite Herr, Hlen; reflexivity).
      fold a.
      specialize (IH (int_wrap (page + 1))
                    (index_by Repository_GetName (answer_items a) m)
                    (reposStore teamID page a s)).
      destruct (pgTeamReposLoop _ _ _ _ _ _) as [m' s'|e s'|]; [| |exact I].
      * destruct IH as [Hsame Herr']. split; [|exact Herr'].
        unfold sameButReposHolder in *. exact Hsame.
      * destruct IH as [Hsame Herr']. split; [|exact Herr'].
        unfold sameButReposHolder in *. exact Hsame.
Qed.

(** The three ways a children load returns: skipped, completed, failed. *)
Lemma pgInitializeLocalDataTeamRepos_returned fuel client s teamID e s' :
  pgInitializeLocalDataTeamRepos fuel client s teamID = Returned e s' ->
  pgMutexInitializeLocalDataTeamRepos s !! teamID = Some Unlocked /\
  repos_err (pgGetAllTeamReposResponse s') = e /\
  sameTeams s s' /\
  ( (pgDoneGetAllTeamRepos s !! teamID = Some true /\ s' = s)
    \/ (default false (pgDoneGetAllTeamRepos s !! teamID) = false /\ e = None /\
        (exists m, pgReposByTeamIdAndRepoName s'
                   = <[teamID := m]> (pgReposByTeamIdAndRepoName s)) /\
        pgDoneGetAllTeamRepos s' = <[teamID := true]> (pgDoneGetAllTeamRepos s) /\
        pgMutexInitializeLocalDataTeamRepos s' = pgMutexInitializeLocalDataTeamRepos s)
    \/ (default false (pgDoneGetAllTeamRepos s !! teamID) = false /\ e <> None /\
        pgReposByTeamIdAndRepoName s' = pgReposByTeamIdAndRepoName s /\
        pgDoneGetAllTeamRepos s' = pgDoneGetAllTeamRepos s /\
        pgMutexInitializeLocalDataTeamRepos s'
        = <[teamID := Locked]> (pgMutexInitializeLocalDataTeamRepos s)) ).
Proof.
  intros Hret.
  destruct (pgMutexInitializeLocalDataTeamRepos s !! teamID) as [[]|] eqn:Hmutex;
    [| rewrite pgInitializeLocalDataTeamRepos_blocked in Hret by exact Hmutex; discriminate
     | rewrite pgInitializeLocalDataTeamRepos_nil in Hret by exact Hmutex; discriminate].
  split; [reflexivity|].
  destruct (pgDoneGetAllTeamRepos s !! teamID) as [[]|] eqn:Hdone.
  - rewrite pgInitializeLocalDataTeamRepos_done in Hret by assumption.
    injection Hret as <- <-. split; [reflexivity|]. split; [repeat split|].
    left. split; reflexivity.
  - revert Hret. unfold pgInitializeLocalDataTeamRepos. rewrite Hmutex.
    fold (reposLockedState teamID s).
    change (pgDoneGetAllTeamRepos (reposLockedState teamID s))
      with (pgDoneGetAllTeamRepos s).
    rewrite Hdone. cbn [default negb].
    pose proof (pgTeamReposLoop_exit client teamID fuel 1 ∅ (reposLockedState teamID s))
      as Hexit.
    destruct (pgTeamReposLoop _ _ _ _ _ _) as [m s2|e2 s2|]; [| |discriminate].
    + destruct Hexit as [(H1 & H2 & H3 & H4 & H5 & H6 & H7 & H8) Herr].
      unfold pgTeamReposUnlockReturn.
      cbn [pgMutexInitializeLocalDataTeamRepos set_pgDoneGetAllTeamRepos
           set_pgReposByTeamIdAndRepoName].
      rewrite H7. cbn [reposLockedState pgMutexInitializeLocalDataTeamRepos
                       set_pgMutexInitializeLocalDataTeamRepos].
      rewrite lookup_insert_eq. intros Hret. injection Hret as <- <-.
      cbn. split; [reflexivity|]. split; [repeat split; assumption|].
      right. left. split; [reflexivity|]. split; [exact Herr|].
      split; [exists m; rewrite H4; reflexivity|].
      split; [rewrite H8; reflexivity|].
      rewrite insert_insert_eq. apply insert_id. exact Hmutex.
    + destruct Hexit as [(H1 & H2 & H3 & H4 & H5 & H6 & H7 & H8) [Hne Herr]].
      intros Hret. injection Hret as <- <-.
      split; [exact Herr|]. split; [repeat split; assumption|].
      right. right. repeat split; assumption.
  - revert Hret. unfold pgInitializeLocalDataTeamRepos. rewrite Hmutex.
    fold (reposLockedState teamID s).
    change (pgDoneGetAllTeamRepos (reposLockedState teamID s))
      with (pgDoneGetAllTeamRepos s).
    rewrite Hdone. cbn [default negb].
    pose proof (pgTeamReposLoop_exit client teamID fuel 1 ∅ (reposLockedState teamID s))
      as Hexit.
    destruct (pgTeamReposLoop _ _ _ _ _ _) as [m s2|e2 s2|]; [| |discriminate].
    + destruct Hexit as [(H1 & H2 & H3 & H4 & H5 & H6 & H7 & H8) Herr].
      unfold pgTeamReposUnlockReturn.
      cbn [pgMutexInitializeLocalDataTeamRepos set_pgDoneGetAllTeamRepos
           set_pgReposByTeamIdAndRepoName].
      rewrite H7. cbn [reposLockedState pgMutexInitializeLocalDataTeamRepos
                       set_pgMutexInitializeLocalDataTeamRepos].
      rewrite lookup_insert_eq. intros Hret. injection Hret as <- <-.
      cbn. split; [reflexivity|]. split; [repeat split; assumption|].
      right. left. split; [reflexivity|]. split; [exact Herr|].
      split; [exists m; rewrite H4; reflexivity|].
      split; [rewrite H8; reflexivity|].
      rewrite insert_insert_eq. apply insert_id. exact Hmutex.
    + destruct Hexit as [(H1 & H2 & H3 & H4 & H5 & H6 & H7 & H8) [Hne Herr]].
      intros Hret. injection Hret as <- <-.
      split; [exact Herr|]. split; [repeat split; assumption|].
      right. right. repeat split; assumption.
Qed.

(** Any property kept by the four kinds of assignments of the teams load is
    kept by a returning call. *)
Lemma pgInitializeLocalDataTeams_preserves (P : State -> Prop) fuel client s e s' :
  (forall page a x, P x -> P (teamsStore page a x)) ->
  (forall x t, P x -> P (pgIndexTeam x t)) ->
  (forall m x, P x -> P (set_pgMutexInitializeLocalDataTeams m x)) ->
  (forall b x, P x -> P (set_pgDoneGetAllTeams b x)) ->
  pgInitializeLocalDataTeams fuel client s = Returned e s' ->
  P s -> P s'.
Proof.
  intros Hstore Hindex Hmutex Hdone Hret Hs.
  unfold pgInitializeLocalDataTeams in Hret.
  destruct (pgMutexInitializeLocalDataTeams s); [|discriminate Hret].
  set (s1 := set_pgMutexInitializeLocalDataTeams Locked s) in Hret.
  assert (Hs1 : P s1) by apply Hmutex, Hs.
  assert (Hunlock : forall x v x', P x -> pgTeamsUnlockReturn x = Returned v x' -> P x').
  { intros x v x' Hx. unfold pgTeamsUnlockReturn.
    destruct (pgMutexInitializeLocalDataTeams x); [discriminate|].
    intros Heq. injection Heq as _ <-. apply Hmutex, Hx. }
  destruct (negb (pgDoneGetAllTeams s1)).
  - pose proof (pgTeamsLoop_preserves P client Hstore Hindex fuel 1 s1 Hs1) as Hloop.
    destruct (pgTeamsLoop fuel client 1 s1) as [[] s2|e2 s2|]; [| |discriminate Hret].
    + eapply Hunlock; [|exact Hret]. apply Hdone, Hloop.
    + injection Hret as _ <-. exact Hloop.
  - eapply Hunlock; [exact Hs1|exact Hret].
Qed.

(** ** Invariants of sequential runs *)

Lemma and_then_returned {A B : Type} (o : Outcome A) (k : State -> Outcome B) v s' :
  and_then o k = Returned v s' ->
  exists e s1, o = Returned e s1 /\ k s1 = Returned v s'.
Proof. destruct o as [e s1| | |]; simpl; [eauto|discriminate..]. Qed.

(** Every call that returns went through one of the two loads, and the
    lookups add nothing to what the load did to the state. *)
Lemma pgStep_load s s' :
  pgStep s s' ->
  (exists fuel client e, pgInitializeLocalDataTeams fuel client s = Returned e s')
  \/ (exists fuel client teamID e,
        pgInitializeLocalDataTeamRepos fuel client s teamID = Returned e s').
Proof.
  intros [fuel client s0 e s0' H|fuel client s0 teamID e s0' H|fuel client s0 id v s0' H
         |fuel client s0 slug v s0' H|fuel client s0 teamID repoName v s0' H].
  - left. eauto.
  - right. eauto.
  - left. unfold pgGetTeamByTeamId in H.
    apply and_then_returned in H as (e & s1 & Hload & Hk).
    destruct (pgTeamsByTeamId s1 !! id); injection Hk as _ <-; eauto.
  - left. unfold pgGetTeamByTeamSlug in H.
    apply and_then_returned in H as (e & s1 & Hload & Hk).
    destruct (pgTeamsByTeamSlug s1 !! slug); injection Hk as _ <-; eauto.
  - right. unfold pgGetRepoByTeamIDAndRepoName in H.
    apply and_then_returned in H as (e & s1 & Hload & Hk).
    destruct (pgReposByTeamIdAndRepoName s1 !! teamID) as [m|];
      [destruct (m !! repoName)|]; injection Hk as _ <-; eauto.
Qed.

(** A teams load clears children flags and never sets one. *)
Lemma pgInitializeLocalDataTeams_sets_no_flag fuel client s e s' :
  pgInitializeLocalDataTeams fuel client s = Returned e s' ->
  (forall t : Z, pgDoneGetAllTeamRepos s !! t <> Some true) ->
  forall t : Z, pgDoneGetAllTeamRepos s' !! t <> Some true.
Proof.
  intros Hret.
  apply (pgInitializeLocalDataTeams_preserves
           (fun x => forall t : Z, pgDoneGetAllTeamRepos x !! t <> Some true)
           fuel client s e s'); [| | | |exact Hret].
  - intros ? ? ? H; exact H.
  - intros x t H t'. cbn.
    destruct (decide (Team_GetID t = t')) as [->|Hne];
      [rewrite lookup_insert_eq; discriminate
      |rewrite lookup_insert_ne by exact Hne; apply H].
  - intros ? ? H; exact H.
  - intros ? ? H; exact H.
Qed.

Lemma pgInvariant_initial : pgInvariant pgInitialState.
Proof.
  split; [|reflexivity].
  intros teamID. simpl. rewrite !lookup_empty. split; [intros [x Hx]|]; discriminate.
Qed.

Lemma pgInvariant_step s s' : pgInvariant s -> pgStep s s' -> pgInvariant s'.
Proof.
  intros [HI3 Hfresh] Hstep.
  apply pgStep_load in Hstep as [(fuel & client & e & Hret)|(fuel & client & A & e & Hret)].
  - pose proof (pgInitializeLocalDataTeams_returned _ _ _ _ _ Hret)
      as (Hmutex & _ & [_ Hidx] & Hcases).
    destruct Hcases as [[_ ->]|[(Hdone & _ & Hdone' & _)|(Hdone & _ & _ & Hmutex')]];
      [split; assumption| |].
    + split; [|congruence].
      specialize (Hfresh Hdone Hmutex). subst s.
      assert (Hno : forall t, pgDoneGetAllTeamRepos s' !! t <> Some true).
      { apply (pgInitializeLocalDataTeams_sets_no_flag _ _ _ _ _ Hret).
        intros t. simpl. rewrite lookup_empty. discriminate. }
      intros t. rewrite Hidx. simpl. rewrite lookup_empty.
      split; [intros [x Hx]; discriminate|intros Ht; destruct (Hno t Ht)].
    + split; [|congruence].
      specialize (Hfresh Hdone Hmutex). subst s.
      assert (Hno : forall t, pgDoneGetAllTeamRepos s' !! t <> Some true).
      { apply (pgInitializeLocalDataTeams_sets_no_flag _ _ _ _ _ Hret).
        intros t. simpl. rewrite lookup_empty. discriminate. }
      intros t. rewrite Hidx. simpl. rewrite lookup_empty.
      split; [intros [x Hx]; discriminate|intros Ht; destruct (Hno t Ht)].
  - pose proof (pgInitializeLocalDataTeamRepos_returned _ _ _ _ _ _ Hret)
      as (Hmutex & _ & (_ & _ & _ & Htm & Htd) & Hcases).
    assert (Hnotfresh : pgDoneGetAllTeams s' = false ->
                        pgMutexInitializeLocalDataTeams s' = Unlocked ->
                        s' = pgInitialState).
    { rewrite Htm, Htd. intros Hd Hm. specialize (Hfresh Hd Hm). subst s.
      simpl in Hmutex. rewrite lookup_empty in Hmutex. discriminate. }
    destruct Hcases as [[_ ->]|[(_ & _ & [m Hidx] & Hdone' & _)|(_ & _ & Hidx & Hdone' & _)]];
      [split; assumption| |]; (split; [|exact Hnotfresh]).
    + intros t. rewrite Hidx, Hdone'.
      destruct (decide (A = t)) as [->|Hne].
      * rewrite !lookup_insert_eq. split; [reflexivity|eauto].
      * rewrite !lookup_insert_ne by exact Hne. apply HI3.
    + intros t. rewrite Hidx, Hdone'. apply HI3.
Qed.

Lemma pgInvariant_steps s s' : pgInvariant s -> rtc pgStep s s' -> pgInvariant s'.
Proof.
  intros Hs Hsteps. induction Hsteps as [|s s1 s' Hstep _ IH]; [exact Hs|].
  apply IH. eapply pgInvariant_step; eassumption.
Qed.

Lemma pgReachable_invariant s : pgReachable s -> pgInvariant s.
Proof. apply pgInvariant_steps, pgInvariant_initial. Qed.

(** ** Completed loads stay completed *)

Lemma teams_loaded_step s s' :
  pgDoneGetAllTeams s = true -> pgMutexInitializeLocalDataTeams s = Unlocked ->
  pgStep s s' ->
  pgDoneGetAllTeams s' = true /\ pgMutexInitializeLocalDataTeams s' = Unlocked /\
  pgGetAllTeamsResponse s' = pgGetAllTeamsResponse s.
Proof.
  intros Hdone Hmutex Hstep.
  apply pgStep_load in Hstep as [(fuel & client & e & Hret)|(fuel & client & A & e & Hret)].
  - rewrite pgInitializeLocalDataTeams_done in Hret by assumption.
    injection Hret as _ <-. auto.
  - pose proof (pgInitializeLocalDataTeamRepos_returned _ _ _ _ _ _ Hret)
      as (_ & _ & (Hresp & _ & _ & Htm & Htd) & _).
    rewrite Htm, Htd. auto.
Qed.

Lemma teams_loaded_steps s s' :
  pgDoneGetAllTeams s = true -> pgMutexInitializeLocalDataTeams s = Unlocked ->
  rtc pgStep s s' ->
  pgDoneGetAllTeams s' = true /\ pgMutexInitializeLocalDataTeams s' = Unlocked /\
  pgGetAllTeamsResponse s' = pgGetAllTeamsResponse s.
Proof.
  intros Hdone Hmutex Hsteps. induction Hsteps as [|s s1 s' Hstep _ IH]; [auto|].
  destruct (teams_loaded_step s s1 Hdone Hmutex Hstep) as (Hd1 & Hm1 & Hr1).
  destruct (IH Hd1 Hm1) as (Hd & Hm & Hr). rewrite <- Hr1. auto.
Qed.

Lemma repos_loaded_step s s' teamID :
  pgInvariant s ->
  pgDoneGetAllTeamRepos s !! teamID = Some true ->
  pgMutexInitializeLocalDataTeamRepos s !! teamID = Some Unlocked ->
  pgStep s s' ->
  pgDoneGetAllTeamRepos s' !! teamID = Some true /\
  pgMutexInitializeLocalDataTeamRepos s' !! teamID = Some Unlocked /\
  pgReposByTeamIdAndRepoName s' !! teamID = pgReposByTeamIdAndRepoName s !! teamID.
Proof.
  intros [_ Hfresh] Hdone Hmutex Hstep.
  apply pgStep_load in Hstep as [(fuel & client & e & Hret)|(fuel & client & B & e & Hret)].
  - pose proof (pgInitializeLocalDataTeams_returned _ _ _ _ _ Hret)
      as (Htm & _ & _ & Hcases).
    destruct Hcases as [[_ ->]|[(Htd & _)|(Htd & _)]]; [auto| |];
      specialize (Hfresh Htd Htm); subst s;
      simpl in Hmutex; rewrite lookup_empty in Hmutex; discriminate.
  - pose proof (pgInitializeLocalDataTeamRepos_returned _ _ _ _ _ _ Hret)
      as (HmB & _ & _ & Hcases).
    destruct Hcases as [[_ ->]|[(HdB & _ & [m Hidx] & Hdone' & Hmutex')
                                |(HdB & _ & Hidx & Hdone' & Hmutex')]]; [auto| |].
    + assert (Hne : B <> teamID) by (intros ->; rewrite Hdone in HdB; discriminate).
      rewrite Hidx, Hdone', Hmutex', !lookup_insert_ne by exact Hne. auto.
    + assert (Hne : B <> teamID) by (intros ->; rewrite Hdone in HdB; discriminate).
      rewrite Hidx, Hdone', Hmutex', !lookup_insert_ne by exact Hne. auto.
Qed.

Lemma repos_loaded_steps s s' teamID :
  pgInvariant s ->
  pgDoneGetAllTeamRepos s !! teamID = Some true ->
  pgMutexInitializeLocalDataTeamRepos s !! teamID = Some Unlocked ->
  rtc pgStep s s' ->
  pgDoneGetAllTeamRepos s' !! teamID = Some true /\
  pgMutexInitializeLocalDataTeamRepos s' !! teamID = Some Unlocked /\
  pgReposByTeamIdAndRepoName s' !! teamID = pgReposByTeamIdAndRepoName s !! teamID.
Proof.
  intros Hinv Hdone Hmutex Hsteps.
  induction Hsteps as [|s s1 s' Hstep _ IH]; [auto|].
  destruct (repos_loaded_step s s1 teamID Hinv Hdone Hmutex Hstep) as (Hd1 & Hm1 & Hi1).
  destruct (IH (pgInvariant_step _ _ Hinv Hstep) Hd1 Hm1) as (Hd & Hm & Hi).
  rewrite <- Hi1. auto.
Qed.

(** A load that returned nil has its flag set, its mutex free and a nil
    stored error. *)
Lemma pgInitializeLocalDataTeams_nil fuel client s s' :
  pgInitializeLocalDataTeams fuel client s = Returned None s' ->
  pgDoneGetAllTeams s' = true /\ pgMutexInitializeLocalDataTeams s' = Unlocked /\
  teams_err (pgGetAllTeamsResponse s') = None.
Proof.
  intros Hret.
  pose proof (pgInitializeLocalDataTeams_returned _ _ _ _ _ Hret)
    as (Hmutex & Herr & _ & Hcases).
  destruct Hcases as [[Hdone ->]|[(_ & _ & Hdone' & Hmutex')|(_ & Hne & _)]];
    [auto|auto|congruence].
Qed.

Lemma pgInitializeLocalDataTeamRepos_nil_error fuel client s teamID s' :
  pgInitializeLocalDataTeamRepos fuel client s teamID = Returned None s' ->
  pgDoneGetAllTeamRepos s' !! teamID = Some true /\
  pgMutexInitializeLocalDataTeamRepos s' !! teamID = Some Unlocked /\
  repos_err (pgGetAllTeamReposResponse s') = None.
Proof.
  intros Hret.
  pose proof (pgInitializeLocalDataTeamRepos_returned _ _ _ _ _ _ Hret)
    as (Hmutex & Herr & _ & Hcases).
  destruct Hcases as [[Hdone ->]|[(_ & _ & _ & Hdone' & Hmutex')|(_ & Hne & _)]];
    [auto| |congruence].
  rewrite Hdone', Hmutex', lookup_insert_eq. auto.
Qed.

(** X18. No completed load is run again. Once the teams load has completed
    (flag set, mutex free), whatever calls return afterwards, a call of
    [pgInitializeLocalDataTeams] leaves the whole state as it is (no page
    request is logged, no index changes) and returns the error stored by the
    load. A call of a team's children load, once that load has completed,
    leaves the whole state as it is too, in any later state of a sequential
    run; what it returns is the error found in the holder shared by all
    teams at that time, which need not be the error of this team's load.
    And a load that returned nil has set its flag and stored a nil error. *)
Theorem loaded_collection_is_never_refetched :
  (forall s s2 fuel client,
      pgDoneGetAllTeams s = true -> pgMutexInitializeLocalDataTeams s = Unlocked ->
      rtc pgStep s s2 ->
      pgInitializeLocalDataTeams fuel client s2
      = Returned (teams_err (pgGetAllTeamsResponse s)) s2) /\
  (forall fuel client s s',
      pgInitializeLocalDataTeams fuel client s = Returned None s' ->
      pgDoneGetAllTeams s' = true /\ pgMutexInitializeLocalDataTeams s' = Unlocked /\
      teams_err (pgGetAllTeamsResponse s') = None) /\
  (forall s s2 teamID fuel client,
      pgReachable s ->
      pgDoneGetAllTeamRepos s !! teamID = Some true ->
      pgMutexInitializeLocalDataTeamRepos s !! teamID = Some Unlocked ->
      rtc pgStep s s2 ->
      pgInitializeLocalDataTeamRepos fuel client s2 teamID
      = Returned (repos_err (pgGetAllTeamReposResponse s2)) s2) /\
  (forall fuel client s teamID s',
      pgInitializeLocalDataTeamRepos fuel client s teamID = Returned None s' ->
      pgDoneGetAllTeamRepos s' !! teamID = Some true /\
      pgMutexInitializeLocalDataTeamRepos s' !! teamID = Some Unlocked /\
      repos_err (pgGetAllTeamReposResponse s') = None).
Proof.
  split; [|split; [|split]].
  - intros s s2 fuel client Hdone Hmutex Hsteps.
    destruct (teams_loaded_steps s s2 Hdone Hmutex Hsteps) as (Hd & Hm & Hr).
    rewrite <- Hr. apply pgInitializeLocalDataTeams_done; assumption.
  - intros fuel client s s'. apply pgInitializeLocalDataTeams_nil.
  - intros s s2 teamID fuel client Hreach Hdone Hmutex Hsteps.
    destruct (repos_loaded_steps s s2 teamID (pgReachable_invariant s Hreach)
                Hdone Hmutex Hsteps) as (Hd & Hm & _).
    apply pgInitializeLocalDataTeamRepos_done; assumption.
  - intros fuel client s teamID s'. apply pgInitializeLocalDataTeamRepos_nil_error.
Qed.

(** The runs behind the concrete states. *)
Lemma smallLoaded_step : pgStep pgInitialState Fixtures.smallLoaded.
Proof.
  apply (step_InitializeTeams 1 Fixtures.smallClient pgInitialState None).
  vm_compute. reflexivity.
Defined.

Lemma team1Loaded_step : pgStep Fixtures.smallLoaded Fixtures.team1Loaded.
Proof.
  apply (step_InitializeTeamRepos 1 Fixtures.smallClient Fixtures.smallLoaded 1 None).
  vm_compute. reflexivity.
Defined.

Lemma team4Failed_step : pgStep Fixtures.team1Loaded Fixtures.team4Failed.
Proof.
  apply (step_InitializeTeamRepos 1 Fixtures.smallClient Fixtures.team1Loaded 4
           (Some Fixtures.timeout)).
  vm_compute. reflexivity.
Defined.

Lemma loaded_collection_is_never_refetched_witness :
  pgInitializeLocalDataTeams 0 Fixtures.flakyClient Fixtures.team1Loaded
  = Returned None Fixtures.team1Loaded /\
  pgInitializeLocalDataTeamRepos 0 Fixtures.smallClient Fixtures.team4Failed 1
  = Returned (Some Fixtures.timeout) Fixtures.team4Failed.
Proof.
  destruct loaded_collection_is_never_refetched as (Hteams & _ & Hrepos & _).
  split.
  - apply (Hteams Fixtures.smallLoaded Fixtures.team1Loaded 0%nat Fixtures.flakyClient).
    + reflexivity.
    + reflexivity.
    + apply rtc_once, team1Loaded_step.
  - apply (Hrepos Fixtures.team1Loaded Fixtures.team4Failed 1 0%nat Fixtures.smallClient).
    + apply rtc_l with Fixtures.smallLoaded; [exact smallLoaded_step|].
      apply rtc_once, team1Loaded_step.
    + vm_compute. reflexivity.
    + vm_compute. reflexivity.
    + apply rtc_once, team4Failed_step.
Defined.

(** ** Lookups *)

(** A lookup consults the state the load left, whatever the load returned. *)
Lemma pgGetTeamByTeamId_after fuel client s id e s' :
  pgInitializeLocalDataTeams fuel client s = Returned e s' ->
  pgGetTeamByTeamId fuel client s id
  = match pgTeamsByTeamId s' !! id with
    | Some team =>
      Returned (Some team, teams_resp (pgGetAllTeamsResponse s'),
                teams_err (pgGetAllTeamsResponse s')) s'
    | None =>
      Returned (None, teams_resp (pgGetAllTeamsResponse s'),
                pgOrNotFound (teams_err (pgGetAllTeamsResponse s'))) s'
    end.
Proof. intros Hret. unfold pgGetTeamByTeamId. rewrite Hret. reflexivity. Qed.

Lemma pgGetTeamByTeamSlug_after fuel client s slug e s' :
  pgInitializeLocalDataTeams fuel client s = Returned e s' ->
  pgGetTeamByTeamSlug fuel client s slug
  = match pgTeamsByTeamSlug s' !! slug with
    | Some team =>
      Returned (Some team, teams_resp (pgGetAllTeamsResponse s'),
                teams_err (pgGetAllTeamsResponse s')) s'
    | None =>
      Returned (None, teams_resp (pgGetAllTeamsResponse s'),
                pgOrNotFound (teams_err (pgGetAllTeamsResponse s'))) s'
    end.
Proof. intros Hret. unfold pgGetTeamByTeamSlug. rewrite Hret. reflexivity. Qed.

Lemma pgGetRepoByTeamIDAndRepoName_after fuel client s teamID repoName e s' :
  pgInitializeLocalDataTeamRepos fuel client s teamID = Returned e s' ->
  pgGetRepoByTeamIDAndRepoName fuel client s teamID repoName
  = match pgReposByTeamIdAndRepoName s' !! teamID ≫= (.!! repoName) with
    | Some repo =>
      Returned (Some repo, repos_resp (pgGetAllTeamReposResponse s'),
                repos_err (pgGetAllTeamReposResponse s')) s'
    | None =>
      Returned (None, repos_resp (pgGetAllTeamReposResponse s'),
                pgOrNotFound (repos_err (pgGetAllTeamReposResponse s'))) s'
    end.
Proof.
  intros Hret. unfold pgGetRepoByTeamIDAndRepoName. rewrite Hret. cbn [and_then].
  destruct (pgReposByTeamIdAndRepoName s' !! teamID) as [m|]; cbn [mbind option_bind];
    [destruct (m !! repoName)|]; reflexivity.
Qed.

(** A load that returned nil is skipped when asked again. *)
Lemma pgInitializeLocalDataTeams_again fuel client s s' fuel' client' :
  pgInitializeLocalDataTeams fuel client s = Returned None s' ->
  pgInitializeLocalDataTeams fuel' client' s' = Returned None s'.
Proof.
  intros Hret. destruct (pgInitializeLocalDataTeams_nil _ _ _ _ Hret) as (Hd & Hm & He).
  rewrite <- He at 1. apply pgInitializeLocalDataTeams_done; assumption.
Qed.

Lemma pgInitializeLocalDataTeamRepos_again fuel client s teamID s' fuel' client' :
  pgInitializeLocalDataTeamRepos fuel client s teamID = Returned None s' ->
  pgInitializeLocalDataTeamRepos fuel' client' s' teamID = Returned None s'.
Proof.
  intros Hret.
  destruct (pgInitializeLocalDataTeamRepos_nil_error _ _ _ _ _ Hret) as (Hd & Hm & He).
  rewrite <- He at 1. apply pgInitializeLocalDataTeamRepos_done; assumption.
Qed.

(** X17. When the ensure-load call behind a lookup returned nil and the key
    is absent from the index it left, the lookup returns no entity and the
    synthesized error, an [ErrorResponse] with status 404 that is neither
    nil nor a transport error; this holds for the lookup that ran the load
    and for every lookup made in the very state it left, for
    [pgGetTeamByTeamId], [pgGetTeamByTeamSlug] and
    [pgGetRepoByTeamIDAndRepoName]. It says nothing of a children lookup
    whose ensure-load call returns an error although the team's own load
    had succeeded. *)
Theorem absent_key_gives_not_found :
  (pgNotFound = ErrorResponse {| http.StatusCode := 404 |} /\
   forall msg, pgNotFound <> TransportError msg) /\
  (forall fuel client s s' id,
      pgInitializeLocalDataTeams fuel client s = Returned None s' ->
      pgTeamsByTeamId s' !! id = None ->
      pgGetTeamByTeamId fuel client s id
      = Returned (None, teams_resp (pgGetAllTeamsResponse s'), Some pgNotFound) s' /\
      forall fuel' client',
        pgGetTeamByTeamId fuel' client' s' id
        = Returned (None, teams_resp (pgGetAllTeamsResponse s'), Some pgNotFound) s') /\
  (forall fuel client s s' slug,
      pgInitializeLocalDataTeams fuel client s = Returned None s' ->
      pgTeamsByTeamSlug s' !! slug = None ->
      pgGetTeamByTeamSlug fuel client s slug
      = Returned (None, teams_resp (pgGetAllTeamsResponse s'), Some pgNotFound) s' /\
      forall fuel' client',
        pgGetTeamByTeamSlug fuel' client' s' slug
        = Returned (None, teams_resp (pgGetAllTeamsResponse s'), Some pgNotFound) s') /\
  (forall fuel client s s' teamID repoName,
      pgInitializeLocalDataTeamRepos fuel client s teamID = Returned None s' ->
      pgReposByTeamIdAndRepoName s' !! teamID ≫= (.!! repoName) = None ->
      pgGetRepoByTeamIDAndRepoName fuel client s teamID repoName
      = Returned (None, repos_resp (pgGetAllTeamReposResponse s'), Some pgNotFound) s' /\
      forall fuel' client',
        pgGetRepoByTeamIDAndRepoName fuel' client' s' teamID repoName
        = Returned (None, repos_resp (pgGetAllTeamReposResponse s'), Some pgNotFound) s').
Proof.
  split; [split; [reflexivity|discriminate]|].
  split; [|split].
  - intros fuel client s s' id Hret Habsent.
    destruct (pgInitializeLocalDataTeams_nil _ _ _ _ Hret) as (_ & _ & He).
    split; [|intros fuel' client'].
    + rewrite (pgGetTeamByTeamId_after _ _ _ _ _ _ Hret), Habsent, He. reflexivity.
    + rewrite (pgGetTeamByTeamId_after _ _ _ _ _ _
                 (pgInitializeLocalDataTeams_again _ _ _ _ fuel' client' Hret)),
        Habsent, He.
      reflexivity.
  - intros fuel client s s' slug Hret Habsent.
    destruct (pgInitializeLocalDataTeams_nil _ _ _ _ Hret) as (_ & _ & He).
    split; [|intros fuel' client'].
    + rewrite (pgGetTeamByTeamSlug_after _ _ _ _ _ _ Hret), Habsent, He. reflexivity.
    + rewrite (pgGetTeamByTeamSlug_after _ _ _ _ _ _
                 (pgInitializeLocalDataTeams_again _ _ _ _ fuel' client' Hret)),
        Habsent, He.
      reflexivity.
  - intros fuel client s s' teamID repoName Hret Habsent.
    destruct (pgInitializeLocalDataTeamRepos_nil_error _ _ _ _ _ Hret) as (_ & _ & He).
    split; [|intros fuel' client'].
    + rewrite (pgGetRepoByTeamIDAndRepoName_after _ _ _ _ _ _ _ Hret), Habsent, He.
      reflexivity.
    + rewrite (pgGetRepoByTeamIDAndRepoName_after _ _ _ _ _ _ _
                 (pgInitializeLocalDataTeamRepos_again _ _ _ _ _ fuel' client' Hret)),
        Habsent, He.
      reflexivity.
Qed.

Lemma absent_key_gives_not_found_witness :
  pgGetTeamByTeamId 1 Fixtures.smallClient pgInitialState 99
  = Returned (None, Fixtures.response 0 1, Some pgNotFound) Fixtures.smallLoaded /\
  pgGetTeamByTeamSlug 0 Fixtures.flakyClient Fixtures.smallLoaded "team-099"
  = Returned (None, Fixtures.response 0 1, Some pgNotFound) Fixtures.smallLoaded /\
  pgGetRepoByTeamIDAndRepoName 1 Fixtures.smallClient Fixtures.smallLoaded 1 "website"
  = Returned (None, Fixtures.response 0 1, Some pgNotFound) Fixtures.team1Loaded.
Proof.
  destruct absent_key_gives_not_found as (_ & Hid & Hslug & Hrepo).
  split; [|split].
  - apply (Hid 1%nat Fixtures.smallClient pgInitialState Fixtures.smallLoaded 99).
    + vm_compute. reflexivity.
    + vm_compute. reflexivity.
  - apply (Hslug 1%nat Fixtures.smallClient pgInitialState Fixtures.smallLoaded "team-099").
    + vm_compute. reflexivity.
    + vm_compute. reflexivity.
  - apply (Hrepo 1%nat Fixtures.smallClient Fixtures.smallLoaded Fixtures.team1Loaded
             1 "website").
    + vm_compute. reflexivity.
    + vm_compute. reflexivity.
Defined.

(** ** The indices after a completed teams load *)

Lemma teamsLoadedState_byId answers s :
  pgTeamsByTeamId (teamsLoadedState answers s)
  = index_by Team_GetID (fetched answers) (pgTeamsByTeamId s).
Proof. unfold teamsLoadedState. cbn. rewrite teamsAbsorbAll_byId. reflexivity. Qed.

Lemma teamsLoadedState_bySlug answers s :
  pgTeamsByTeamSlug (teamsLoadedState answers s)
  = index_by Team_GetSlug (fetched answers) (pgTeamsByTeamSlug s).
Proof. unfold teamsLoadedState. cbn. rewrite teamsAbsorbAll_bySlug. reflexivity. Qed.

Lemma teamsLoadedState_calls answers s :
  pgApiCalls (teamsLoadedState answers s)
  = pgApiCalls s ++ teamsRequests 1 (length answers).
Proof. unfold teamsLoadedState. cbn. rewrite teamsAbsorbAll_calls. reflexivity. Qed.

(** The values of an index filled from [l] on an empty map are the items of
    [l], when their keys are distinct. *)
Lemma index_by_values {K A : Type} `{Countable K} (key : A -> K) (l : list A) (x : A) :
  NoDup (map key l) ->
  (exists k, index_by key l ∅ !! k = Some x) <-> x ∈ l.
Proof.
  intros Hnd. split.
  - intros [k Hk]. apply index_by_lookup_inv in Hk as [[Hin _]|Hempty]; [exact Hin|].
    rewrite lookup_empty in Hempty. discriminate.
  - intros Hin. exists (key x). apply index_by_lookup_NoDup; assumption.
Qed.

(** C4. After a teams load whose pagination ended by a short page, started
    with empty team indices, and whose fetched teams have pairwise distinct
    identifiers and pairwise distinct slugs: for every fetched team T,
    [pgGetTeamByTeamId] on T's identifier and [pgGetTeamByTeamSlug] on T's
    slug both return T with a nil error, and the teams stored in the
    by-identifier index and in the by-slug index are both exactly the
    fetched teams. *)
Theorem team_indices_agree_after_load (client : Client) (s : State) (k fuel : nat) :
  pgMutexInitializeLocalDataTeams s = Unlocked ->
  pgDoneGetAllTeams s = false ->
  pgTeamsByTeamId s = ∅ -> pgTeamsByTeamSlug s = ∅ ->
  endsShort (teamsListing client (pgApiCalls s) 1 k) = true ->
  Z.of_nat k < 2 ^ 63 -> (k <= fuel)%nat ->
  NoDup (map Team_GetID (fetched (teamsListing client (pgApiCalls s) 1 k))) ->
  NoDup (map Team_GetSlug (fetched (teamsListing client (pgApiCalls s) 1 k))) ->
  exists s',
    pgInitializeLocalDataTeams fuel client s = Returned None s' /\
    (forall T, T ∈ fetched (teamsListing client (pgApiCalls s) 1 k) ->
       forall fuel' client',
         pgGetTeamByTeamId fuel' client' s' (Team_GetID T)
         = Returned (Some T, teams_resp (pgGetAllTeamsResponse s'), None) s' /\
         pgGetTeamByTeamSlug fuel' client' s' (Team_GetSlug T)
         = Returned (Some T, teams_resp (pgGetAllTeamsResponse s'), None) s') /\
    (forall T, (exists id, pgTeamsByTeamId s' !! id = Some T)
               <-> T ∈ fetched (teamsListing client (pgApiCalls s) 1 k)) /\
    (forall T, (exists slug, pgTeamsByTeamSlug s' !! slug = Some T)
               <-> T ∈ fetched (teamsListing client (pgApiCalls s) 1 k)).
Proof.
  intros Hmutex Hdone HbyId HbySlug Hends Hk Hfuel HndId HndSlug.
  set (answers := teamsListing client (pgApiCalls s) 1 k) in *.
  exists (teamsLoadedState answers s).
  pose proof (pgInitializeLocalDataTeams_succeeds fuel client s k
                Hmutex Hdone Hends Hk Hfuel) as Hret.
  fold answers in Hret.
  destruct (pgInitializeLocalDataTeams_nil _ _ _ _ Hret) as (_ & _ & He).
  split; [exact Hret|]. split; [|split].
  - intros T HT fuel' client'.
    pose proof (pgInitializeLocalDataTeams_again _ _ _ _ fuel' client' Hret) as Hagain.
    split.
    + rewrite (pgGetTeamByTeamId_after _ _ _ _ _ _ Hagain).
      rewrite teamsLoadedState_byId, index_by_lookup_NoDup by assumption.
      rewrite He. reflexivity.
    + rewrite (pgGetTeamByTeamSlug_after _ _ _ _ _ _ Hagain).
      rewrite teamsLoadedState_bySlug, index_by_lookup_NoDup by assumption.
      rewrite He. reflexivity.
  - intros T. rewrite teamsLoadedState_byId, HbyId. apply index_by_values, HndId.
  - intros T. rewrite teamsLoadedState_bySlug, HbySlug. apply index_by_values, HndSlug.
Qed.

Lemma team_indices_agree_after_load_witness :
  exists s',
    pgInitializeLocalDataTeams 2 (Fixtures.fixedClient Fixtures.twoPages (fun _ => []))
      pgInitialState = Returned None s' /\
    (forall T, T ∈ fetched Fixtures.twoPages ->
       forall fuel' client',
         pgGetTeamByTeamId fuel' client' s' (Team_GetID T)
         = Returned (Some T, teams_resp (pgGetAllTeamsResponse s'), None) s' /\
         pgGetTeamByTeamSlug fuel' client' s' (Team_GetSlug T)
         = Returned (Some T, teams_resp (pgGetAllTeamsResponse s'), None) s') /\
    (forall T, (exists id, pgTeamsByTeamId s' !! id = Some T)
               <-> T ∈ fetched Fixtures.twoPages) /\
    (forall T, (exists slug, pgTeamsByTeamSlug s' !! slug = Some T)
               <-> T ∈ fetched Fixtures.twoPages).
Proof.
  apply (team_indices_agree_after_load
           (Fixtures.fixedClient Fixtures.twoPages (fun _ => [])) pgInitialState 2 2).
  - reflexivity.
  - reflexivity.
  - reflexivity.
  - reflexivity.
  - vm_compute. reflexivity.
  - vm_compute. reflexivity.
  - lia.
  - apply (bool_decide_unpack _). vm_compute. exact I.
  - apply (bool_decide_unpack _). vm_compute. exact I.
Defined.

(** ** The page requests of a teams load *)

Lemma fetched_snoc {A : Type} (answers : list (list A * option Response * option error)) a :
  fetched (answers ++ [a]) = fetched answers ++ answer_items a.
Proof. unfold fetched. rewrite map_app, concat_app. simpl. rewrite app_nil_r. reflexivity. Qed.

Lemma teamsRequests_lookup k : forall page i,
  (i < k)%nat -> teamsRequests page k !! i = Some (teamsRequest (page + Z.of_nat i)).
Proof.
  induction k as [|k IH]; intros page i Hi; [lia|].
  destruct i as [|i]; cbn [teamsRequests].
  - rewrite Z.add_0_r. reflexivity.
  - change ((teamsRequest page :: teamsRequests (page + 1) k) !! S i)
      with (teamsRequests (page + 1) k !! i).
    rewrite IH by lia. do 2 f_equal. lia.
Qed.

Lemma teamsFailedState_calls answers a s :
  pgApiCalls (teamsFailedState (answers ++ [a]) s)
  = pgApiCalls s ++ teamsRequests 1 (length (answers ++ [a])).
Proof.
  unfold teamsFailedState. rewrite removelast_last, length_app. cbn.
  rewrite teamsAbsorbAll_calls. cbn.
  replace (length answers + 1)%nat with (S (length answers)) by lia.
  rewrite teamsRequests_snoc, <- app_assoc.
  replace (Z.of_nat (S (length answers))) with (1 + Z.of_nat (length answers)) by lia.
  reflexivity.
Qed.

Lemma teamsFailedState_byId answers a s :
  pgTeamsByTeamId (teamsFailedState (answers ++ [a]) s)
  = index_by Team_GetID (fetched answers) (pgTeamsByTeamId s).
Proof.
  unfold teamsFailedState. rewrite removelast_last. cbn.
  rewrite teamsAbsorbAll_byId. reflexivity.
Qed.

Lemma teamsFailedState_bySlug answers a s :
  pgTeamsByTeamSlug (teamsFailedState (answers ++ [a]) s)
  = index_by Team_GetSlug (fetched answers) (pgTeamsByTeamSlug s).
Proof.
  unfold teamsFailedState. rewrite removelast_last. cbn.
  rewrite teamsAbsorbAll_bySlug. reflexivity.
Qed.

(** C6. When page [k] is the first page of the listing with fewer than 100
    teams (and, as go-github does, a page that reports an error carries no
    teams), the teams load returns as soon as the bound on iterations is at
    least [k]: it has asked exactly the [k] pages 1, 2, ..., [k], each with
    page size 100 - what one sequential pagination needs - and every team of
    every page it got is in both indices under its identifier and its slug
    (held by a fetched team with that key: the last one indexed). The load
    leaves the loop at page [k] by [break] or, if that page failed, by the
    early [return]; [e] tells which. *)
Theorem teams_load_stops_at_first_short_page (client : Client) (s : State) (k fuel : nat) :
  pgMutexInitializeLocalDataTeams s = Unlocked ->
  pgDoneGetAllTeams s = false ->
  forallb nilOnError (teamsListing client (pgApiCalls s) 1 k) = true ->
  firstBelow100 (teamsListing client (pgApiCalls s) 1 k) = true ->
  Z.of_nat k < 2 ^ 63 -> (k <= fuel)%nat ->
  exists e s',
    pgInitializeLocalDataTeams fuel client s = Returned e s' /\
    e = answer_err (lastAnswer (teamsListing client (pgApiCalls s) 1 k)) /\
    pgApiCalls s' = pgApiCalls s ++ teamsRequests 1 k /\
    length (teamsRequests 1 k) = k /\
    (forall i, (i < k)%nat ->
       teamsRequests 1 k !! i
       = Some (CallListTeams pgGithubOrgName
                 {| PerPage := 100; Page := 1 + Z.of_nat i |})) /\
    (forall T, T ∈ fetched (teamsListing client (pgApiCalls s) 1 k) ->
       (exists T', pgTeamsByTeamId s' !! Team_GetID T = Some T' /\
                   T' ∈ fetched (teamsListing client (pgApiCalls s) 1 k) /\
                   Team_GetID T' = Team_GetID T) /\
       (exists T', pgTeamsByTeamSlug s' !! Team_GetSlug T = Some T' /\
                   T' ∈ fetched (teamsListing client (pgApiCalls s) 1 k) /\
                   Team_GetSlug T' = Team_GetSlug T)).
Proof.
  intros Hmutex Hdone Hnil Hfirst Hk Hfuel.
  set (answers := teamsListing client (pgApiCalls s) 1 k) in *.
  assert (Hlen : length answers = k) by apply teamsListing_length.
  destruct (firstBelow100_ends answers Hnil Hfirst) as [Hends|Hends].
  - exists None, (teamsLoadedState answers s).
    split; [apply pgInitializeLocalDataTeams_succeeds; assumption|].
    split.
    { apply endsShort_inv in Hends as (fulls & a & -> & _ & Ha).
      unfold lastAnswer. rewrite last_last. unfold pageShort in Ha.
      destruct (answer_err a); [discriminate Ha|reflexivity]. }
    split; [rewrite teamsLoadedState_calls, Hlen; reflexivity|].
    split; [apply teamsRequests_length|].
    split; [intros i Hi; apply teamsRequests_lookup; exact Hi|].
    intros T HT. split.
    + rewrite teamsLoadedState_byId. apply index_by_lookup_in, HT.
    + rewrite teamsLoadedState_bySlug. apply index_by_lookup_in, HT.
  - exists (answer_err (lastAnswer answers)), (teamsFailedState answers s).
    split; [apply pgInitializeLocalDataTeams_fails; assumption|].
    split; [reflexivity|].
    split.
    { apply endsFailed_inv in Hends as (fulls & a & Heq & _).
      rewrite <- Hlen, Heq. apply teamsFailedState_calls. }
    split; [apply teamsRequests_length|].
    split; [intros i Hi; apply teamsRequests_lookup; exact Hi|].
    apply endsFailed_inv in Hends as (fulls & a & Heq & _ & Ha).
    rewrite Heq in Hnil |- *.
    assert (Hitems : answer_items a = []).
    { rewrite forallb_app in Hnil. apply andb_true_iff in Hnil as [_ Hnila].
      cbn in Hnila. rewrite andb_true_r in Hnila.
      unfold nilOnError in Hnila. unfold pageFailed in Ha.
      destruct (answer_err a); [|discriminate Ha].
      destruct (answer_items a); [reflexivity|discriminate Hnila]. }
    rewrite fetched_snoc, Hitems, app_nil_r.
    intros T HT. split.
    + rewrite teamsFailedState_byId. apply index_by_lookup_in, HT.
    + rewrite teamsFailedState_bySlug. apply index_by_lookup_in, HT.
Qed.

Lemma teams_load_stops_at_first_short_page_witness :
  exists e s',
    pgInitializeLocalDataTeams 2 (Fixtures.fixedClient Fixtures.twoPages (fun _ => []))
      pgInitialState = Returned e s' /\
    e = None /\
    pgApiCalls s' = [] ++ teamsRequests 1 2 /\
    length (teamsRequests 1 2) = 2%nat /\
    (forall i, (i < 2)%nat ->
       teamsRequests 1 2 !! i
       = Some (CallListTeams pgGithubOrgName
                 {| PerPage := 100; Page := 1 + Z.of_nat i |})) /\
    (forall T, T ∈ fetched Fixtures.twoPages ->
       (exists T', pgTeamsByTeamId s' !! Team_GetID T = Some T' /\
                   T' ∈ fetched Fixtures.twoPages /\
                   Team_GetID T' = Team_GetID T) /\
       (exists T', pgTeamsByTeamSlug s' !! Team_GetSlug T = Some T' /\
                   T' ∈ fetched Fixtures.twoPages /\
                   Team_GetSlug T' = Team_GetSlug T)).
Proof.
  apply (teams_load_stops_at_first_short_page
           (Fixtures.fixedClient Fixtures.twoPages (fun _ => [])) pgInitialState 2 2).
  - reflexivity.
  - reflexivity.
  - vm_compute. reflexivity.
  - vm_compute. reflexivity.
  - lia.
  - lia.
Defined.

(** ** A team without children *)

(** X19. In a reachable state, for a registered team whose mutex is free
    and whose flag is unset (so that it has no index yet), when the first
    page of its children listing comes back empty and without error: the
    children load returns nil after that single request (page 1, page size
    100), the team's index is the empty map and its flag is set, every team
    has an index exactly when its flag is set, and in the very state the
    load leaves, before any other call, [pgGetRepoByTeamIDAndRepoName] for
    that team and any name returns no repository and the synthesized
    not-found error. *)
Theorem empty_first_page_completes_children_load
    (client : Client) (s : State) (teamID : Z) (fuel : nat) :
  pgReachable s ->
  pgMutexInitializeLocalDataTeamRepos s !! teamID = Some Unlocked ->
  default false (pgDoneGetAllTeamRepos s !! teamID) = false ->
  answer_items (reposAnswer client (pgApiCalls s) teamID 1) = [] ->
  answer_err (reposAnswer client (pgApiCalls s) teamID 1) = None ->
  (1 <= fuel)%nat ->
  exists s',
    pgReposByTeamIdAndRepoName s !! teamID = None /\
    pgInitializeLocalDataTeamRepos fuel client s teamID = Returned None s' /\
    pgApiCalls s'
    = pgApiCalls s
      ++ [CallListTeamReposByID pgGithubOrgId teamID {| PerPage := 100; Page := 1 |}] /\
    pgReposByTeamIdAndRepoName s' !! teamID = Some ∅ /\
    pgDoneGetAllTeamRepos s' !! teamID = Some true /\
    indexIffDone s' /\
    forall fuel' client' repoName,
      pgGetRepoByTeamIDAndRepoName fuel' client' s' teamID repoName
      = Returned (None, answer_resp (reposAnswer client (pgApiCalls s) teamID 1),
                  Some pgNotFound) s'.
Proof.
  intros Hreach Hmutex Hdone Hitems Herr Hfuel.
  pose proof (pgReachable_invariant s Hreach) as Hinv.
  set (a := reposAnswer client (pgApiCalls s) teamID 1) in *.
  assert (Hends : endsShort (reposListing client (pgApiCalls s) teamID 1 1) = true).
  { cbn [reposListing endsShort]. fold a. unfold pageShort. rewrite Herr, Hitems.
    reflexivity. }
  pose proof (pgInitializeLocalDataTeamRepos_succeeds fuel client s teamID 1
                Hmutex Hdone Hends ltac:(lia) Hfuel) as Hret.
  cbn [reposListing] in Hret. fold a in Hret.
  exists (reposLoadedState teamID [a] s).
  split.
  { destruct Hinv as [HI3 _]. specialize (HI3 teamID).
    destruct (pgReposByTeamIdAndRepoName s !! teamID) as [m|]; [|reflexivity].
    destruct HI3 as [HI3 _]. rewrite HI3 in Hdone by eauto. discriminate. }
  split; [exact Hret|].
  split; [reflexivity|].
  assert (Hidx : pgReposByTeamIdAndRepoName (reposLoadedState teamID [a] s) !! teamID
                 = Some ∅).
  { cbn. rewrite lookup_insert_eq. unfold fetched. cbn. rewrite Hitems. reflexivity. }
  split; [exact Hidx|].
  split; [cbn; apply lookup_insert_eq|].
  split.
  { apply (pgInvariant_step s); [exact Hinv|].
    exact (step_InitializeTeamRepos _ _ _ _ _ _ Hret). }
  intros fuel' client' repoName.
  rewrite (pgGetRepoByTeamIDAndRepoName_after _ _ _ _ _ _ _
             (pgInitializeLocalDataTeamRepos_again _ _ _ _ _ fuel' client' Hret)).
  rewrite Hidx. cbn [mbind option_bind]. rewrite lookup_empty.
  cbn. rewrite Herr. reflexivity.
Qed.

Lemma empty_first_page_completes_children_load_witness :
  exists s',
    pgReposByTeamIdAndRepoName Fixtures.team1Loaded !! 2 = None /\
    pgInitializeLocalDataTeamRepos 1 Fixtures.smallClient Fixtures.team1Loaded 2
    = Returned None s' /\
    pgApiCalls s'
    = pgApiCalls Fixtures.team1Loaded
      ++ [CallListTeamReposByID pgGithubOrgId 2 {| PerPage := 100; Page := 1 |}] /\
    pgReposByTeamIdAndRepoName s' !! 2 = Some ∅ /\
    pgDoneGetAllTeamRepos s' !! 2 = Some true /\
    indexIffDone s' /\
    forall fuel' client' repoName,
      pgGetRepoByTeamIDAndRepoName fuel' client' s' 2 repoName
      = Returned (None, Fixtures.response 0 0, Some pgNotFound) s'.
Proof.
  apply (empty_first_page_completes_children_load
           Fixtures.smallClient Fixtures.team1Loaded 2 1).
  - apply rtc_l with Fixtures.smallLoaded; [exact smallLoaded_step|].
    apply rtc_once, team1Loaded_step.
  - vm_compute. reflexivity.
  - vm_compute. reflexivity.
  - vm_compute. reflexivity.
  - vm_compute. reflexivity.
  - lia.
Defined.

(** ** A teams load that fails on a later page *)

(** C10. The team lookups discard what the ensure-load call returns and
    read the indices in any case. When the pagination of the teams load
    fails on page [k] after [k - 1] full pages, the caller that triggered the
    load gets from [pgGetTeamByTeamId] and [pgGetTeamByTeamSlug] whatever the
    partly filled index holds under the key, together with the transport
    error of page [k]; for the identifier or slug of any team of the earlier
    pages that is a non-nil team with that key (and the mutex stays
    locked). *)
Theorem failed_teams_load_serves_partial_index
    (client : Client) (s : State) (k fuel : nat) :
  pgMutexInitializeLocalDataTeams s = Unlocked ->
  pgDoneGetAllTeams s = false ->
  endsFailed (teamsListing client (pgApiCalls s) 1 k) = true ->
  Z.of_nat k < 2 ^ 63 -> (k <= fuel)%nat ->
  exists e s',
    answer_err (lastAnswer (teamsListing client (pgApiCalls s) 1 k)) = Some e /\
    pgInitializeLocalDataTeams fuel client s = Returned (Some e) s' /\
    pgMutexInitializeLocalDataTeams s' = Locked /\
    (forall id,
       pgGetTeamByTeamId fuel client s id
       = Returned (pgTeamsByTeamId s' !! id,
                   answer_resp (lastAnswer (teamsListing client (pgApiCalls s) 1 k)),
                   Some e) s') /\
    (forall slug,
       pgGetTeamByTeamSlug fuel client s slug
       = Returned (pgTeamsByTeamSlug s' !! slug,
                   answer_resp (lastAnswer (teamsListing client (pgApiCalls s) 1 k)),
                   Some e) s') /\
    (forall T,
       T ∈ fetched (List.removelast (teamsListing client (pgApiCalls s) 1 k)) ->
       (exists T', pgTeamsByTeamId s' !! Team_GetID T = Some T' /\
                   Team_GetID T' = Team_GetID T) /\
       (exists T', pgTeamsByTeamSlug s' !! Team_GetSlug T = Some T' /\
                   Team_GetSlug T' = Team_GetSlug T)).
Proof.
  intros Hmutex Hdone Hends Hk Hfuel.
  pose proof (pgInitializeLocalDataTeams_fails fuel client s k
                Hmutex Hdone Hends Hk Hfuel) as Hret.
  set (answers := teamsListing client (pgApiCalls s) 1 k) in *.
  destruct (endsFailed_inv answers Hends) as (fulls & a & Heq & _ & Ha).
  assert (Hlast : lastAnswer answers = a).
  { rewrite Heq. unfold lastAnswer. apply last_last. }
  rewrite Hlast in *.
  unfold pageFailed in Ha. destruct (answer_err a) as [e|] eqn:Herr; [|discriminate Ha].
  exists e, (teamsFailedState answers s).
  assert (Hholder : pgGetAllTeamsResponse (teamsFailedState answers s)
                    = {| teams := answer_items a; teams_resp := answer_resp a;
                         teams_err := answer_err a |}).
  { unfold teamsFailedState. rewrite Hlast. reflexivity. }
  split; [reflexivity|]. split; [exact Hret|].
  split.
  { unfold teamsFailedState. cbn.
    destruct (teamsAbsorbAll_frame (List.removelast answers) 1
                (set_pgMutexInitializeLocalDataTeams Locked s)) as (_ & _ & -> & _).
    reflexivity. }
  split; [|split].
  - intros id. rewrite (pgGetTeamByTeamId_after _ _ _ _ _ _ Hret), Hholder. cbn.
    rewrite Herr. destruct (pgTeamsByTeamId _ !! id); reflexivity.
  - intros slug. rewrite (pgGetTeamByTeamSlug_after _ _ _ _ _ _ Hret), Hholder. cbn.
    rewrite Herr. destruct (pgTeamsByTeamSlug _ !! slug); reflexivity.
  - rewrite Heq, removelast_last. intros T HT. split.
    + rewrite teamsFailedState_byId.
      destruct (index_by_lookup_in Team_GetID (fetched fulls) (pgTeamsByTeamId s) T HT)
        as (T' & HT' & _ & Hkey).
      eauto.
    + rewrite teamsFailedState_bySlug.
      destruct (index_by_lookup_in Team_GetSlug (fetched fulls) (pgTeamsByTeamSlug s) T HT)
        as (T' & HT' & _ & Hkey).
      eauto.
Qed.

Lemma failed_teams_load_serves_partial_index_witness :
  let client := Fixtures.fixedClient Fixtures.failsOnPage2 (fun _ => []) in
  exists e s',
    Some Fixtures.timeout = Some e /\
    pgInitializeLocalDataTeams 2 client pgInitialState = Returned (Some e) s' /\
    pgMutexInitializeLocalDataTeams s' = Locked /\
    (forall id,
       pgGetTeamByTeamId 2 client pgInitialState id
       = Returned (pgTeamsByTeamId s' !! id, None, Some e) s') /\
    (forall slug,
       pgGetTeamByTeamSlug 2 client pgInitialState slug
       = Returned (pgTeamsByTeamSlug s' !! slug, None, Some e) s') /\
    (forall T,
       T ∈ map Fixtures.team (seq 1 100) ++ [] ->
       (exists T', pgTeamsByTeamId s' !! Team_GetID T = Some T' /\
                   Team_GetID T' = Team_GetID T) /\
       (exists T', pgTeamsByTeamSlug s' !! Team_GetSlug T = Some T' /\
                   Team_GetSlug T' = Team_GetSlug T)).
Proof.
  apply (failed_teams_load_serves_partial_index
           (Fixtures.fixedClient Fixtures.failsOnPage2 (fun _ => [])) pgInitialState 2 2).
  - reflexivity.
  - reflexivity.
  - vm_compute. reflexivity.
  - lia.
  - lia.
Defined.

(** ** The early return *)

(** After a load that returned an error from inside its loop, every later
    call of the same function waits in [Lock] and requests nothing. *)
Lemma failed_teams_load_blocks_later_calls fuel client s e s' :
  pgDoneGetAllTeams s = false ->
  pgInitializeLocalDataTeams fuel client s = Returned (Some e) s' ->
  pgMutexInitializeLocalDataTeams s' = Locked /\
  pgDoneGetAllTeams s' = false /\
  forall fuel' client', pgInitializeLocalDataTeams fuel' client' s' = Blocked s'.
Proof.
  intros Hdone Hret.
  pose proof (pgInitializeLocalDataTeams_returned _ _ _ _ _ Hret) as (_ & _ & _ & Hcases).
  destruct Hcases as [[Hd _]|[(_ & He & _)|(_ & _ & Hd' & Hm')]];
    [congruence|discriminate He|].
  split; [exact Hm'|]. split; [exact Hd'|].
  intros fuel' client'. apply pgInitializeLocalDataTeams_blocked, Hm'.
Qed.

Lemma failed_children_load_blocks_later_calls fuel client s teamID e s' :
  default false (pgDoneGetAllTeamRepos s !! teamID) = false ->
  pgInitializeLocalDataTeamRepos fuel client s teamID = Returned (Some e) s' ->
  pgMutexInitializeLocalDataTeamRepos s' !! teamID = Some Locked /\
  default false (pgDoneGetAllTeamRepos s' !! teamID) = false /\
  forall fuel' client',
    pgInitializeLocalDataTeamRepos fuel' client' s' teamID = Blocked s'.
Proof.
  intros Hdone Hret.
  pose proof (pgInitializeLocalDataTeamRepos_returned _ _ _ _ _ _ Hret)
    as (_ & _ & _ & Hcases).
  destruct Hcases as [[Hd _]|[(_ & He & _)|(_ & _ & _ & Hd' & Hm')]];
    [rewrite Hd in Hdone; discriminate Hdone|discriminate He|].
  assert (Hlocked : pgMutexInitializeLocalDataTeamRepos s' !! teamID = Some Locked)
    by (rewrite Hm'; apply lookup_insert_eq).
  split; [exact Hlocked|]. split; [rewrite Hd'; exact Hdone|].
  intros fuel' client'. apply pgInitializeLocalDataTeamRepos_blocked, Hlocked.
Qed.

(** C1 (the code departs from it). A fresh process whose first teams
    request fails: the error is stored and returned and the flag stays
    unset, but the mutex is still locked when the call returns, and the next
    call, instead of paginating again from page 1, waits in [Lock] forever
    without a single request - although this upstream would answer it. The
    same for the children of team 3, whose listing fails on page 2. *)
Theorem failed_load_leaves_mutex_locked :
  (pgInitializeLocalDataTeams 1 Fixtures.flakyClient pgInitialState
   = Returned (Some Fixtures.timeout) Fixtures.teamsFailed /\
   teams_err (pgGetAllTeamsResponse Fixtures.teamsFailed) = Some Fixtures.timeout /\
   pgDoneGetAllTeams Fixtures.teamsFailed = false /\
   pgMutexInitializeLocalDataTeams Fixtures.teamsFailed = Locked /\
   forall fuel client,
     pgInitializeLocalDataTeams fuel client Fixtures.teamsFailed
     = Blocked Fixtures.teamsFailed) /\
  (pgInitializeLocalDataTeamRepos 2 Fixtures.smallClient Fixtures.smallLoaded 3
   = Returned (Some Fixtures.timeout) Fixtures.team3Failed /\
   repos_err (pgGetAllTeamReposResponse Fixtures.team3Failed) = Some Fixtures.timeout /\
   pgDoneGetAllTeamRepos Fixtures.team3Failed !! 3 = Some false /\
   pgMutexInitializeLocalDataTeamRepos Fixtures.team3Failed !! 3 = Some Locked /\
   forall fuel client,
     pgInitializeLocalDataTeamRepos fuel client Fixtures.team3Failed 3
     = Blocked Fixtures.team3Failed).
Proof.
  split.
  - assert (Hret : pgInitializeLocalDataTeams 1 Fixtures.flakyClient pgInitialState
                   = Returned (Some Fixtures.timeout) Fixtures.teamsFailed)
      by (vm_compute; reflexivity).
    split; [exact Hret|]. split; [reflexivity|]. split; [reflexivity|].
    split; [reflexivity|].
    apply (failed_teams_load_blocks_later_calls 1 Fixtures.flakyClient pgInitialState
             Fixtures.timeout Fixtures.teamsFailed); [reflexivity|exact Hret].
  - assert (Hret : pgInitializeLocalDataTeamRepos 2 Fixtures.smallClient
                     Fixtures.smallLoaded 3
                   = Returned (Some Fixtures.timeout) Fixtures.team3Failed)
      by (vm_compute; reflexivity).
    split; [exact Hret|]. split; [reflexivity|].
    split; [vm_compute; reflexivity|]. split; [vm_compute; reflexivity|].
    apply (failed_children_load_blocks_later_calls 2 Fixtures.smallClient
             Fixtures.smallLoaded 3 Fixtures.timeout Fixtures.team3Failed);
      [vm_compute; reflexivity|exact Hret].
Qed.

(** ** A lookup of children before the teams were loaded *)

Lemma pgGetRepoByTeamIDAndRepoName_nil fuel client s teamID repoName :
  pgMutexInitializeLocalDataTeamRepos s !! teamID = None ->
  pgGetRepoByTeamIDAndRepoName fuel client s teamID repoName = Panicked s.
Proof.
  intros Hnil. unfold pgGetRepoByTeamIDAndRepoName.
  rewrite pgInitializeLocalDataTeamRepos_nil by exact Hnil. reflexivity.
Qed.

(** The children lookup never runs the teams load: whenever it returns, the
    variables of the teams load are as before. *)
Lemma pgGetRepoByTeamIDAndRepoName_sameTeams fuel client s teamID repoName v s' :
  pgGetRepoByTeamIDAndRepoName fuel client s teamID repoName = Returned v s' ->
  sameTeams s s'.
Proof.
  intros Hret. unfold pgGetRepoByTeamIDAndRepoName in Hret.
  apply and_then_returned in Hret as (e & s1 & Hload & Hk).
  pose proof (pgInitializeLocalDataTeamRepos_returned _ _ _ _ _ _ Hload)
    as (_ & _ & Hsame & _).
  destruct (pgReposByTeamIdAndRepoName s1 !! teamID) as [m|];
    [destruct (m !! repoName)|]; injection Hk as _ <-; exact Hsame.
Qed.

(** C2 (the code departs from it). The children lookup does not drive the
    teams load: it calls the children load only, whose first statement calls
    [Lock] on the entry of the map of mutexes. As the first operation of a
    process, for team 1, the map is empty, the entry is a nil pointer and
    the call faults, without a single request made; after the teams 1 to 4
    of the organization were loaded it faults likewise for the identifier
    42, which is no team of the organization, where the team lookup next to
    it answers the same identifier with the not-found error. *)
Theorem children_lookup_faults_on_unregistered_team :
  pgGetRepoByTeamIDAndRepoName 1 Fixtures.smallClient pgInitialState 1 "infra"
  = Panicked pgInitialState /\
  pgGetRepoByTeamIDAndRepoName 1 Fixtures.smallClient Fixtures.smallLoaded 42 "infra"
  = Panicked Fixtures.smallLoaded /\
  pgGetTeamByTeamId 1 Fixtures.smallClient Fixtures.smallLoaded 42
  = Returned (None, Fixtures.response 0 1, Some pgNotFound) Fixtures.smallLoaded.
Proof.
  split; [|split].
  - apply pgGetRepoByTeamIDAndRepoName_nil. reflexivity.
  - apply pgGetRepoByTeamIDAndRepoName_nil. vm_compute. reflexivity.
  - vm_compute. reflexivity.
Qed.

Lemma reposLoadedState_calls teamID answers s :
  pgApiCalls (reposLoadedState teamID answers s)
  = pgApiCalls s ++ reposRequests teamID 1 (length answers).
Proof. unfold reposLoadedState. cbn. rewrite reposStoreAll_calls. reflexivity. Qed.

Lemma reposFailedState_calls teamID answers s :
  pgApiCalls (reposFailedState teamID answers s)
  = pgApiCalls s ++ reposRequests teamID 1 (length answers).
Proof. unfold reposFailedState. rewrite reposStoreAll_calls. reflexivity. Qed.

(** X15. For a team whose mutex an earlier teams load has registered and
    which is free, and any name, the children lookup drives the children
    load of that team - skipped when the team's flag is set, else paginating
    to a short page or an error - and then consults that team's index in the
    state the load left. It does not drive the teams load: the variables of
    the teams load stay as they are and the only requests made are children
    requests for this team. *)
Theorem children_lookup_drives_only_children_load
    (client : Client) (s : State) (teamID : Z) (repoName : string) (k fuel : nat) :
  pgMutexInitializeLocalDataTeamRepos s !! teamID = Some Unlocked ->
  pgDoneGetAllTeamRepos s !! teamID = Some true
  \/ (default false (pgDoneGetAllTeamRepos s !! teamID) = false /\
      (endsShort (reposListing client (pgApiCalls s) teamID 1 k) = true
       \/ endsFailed (reposListing client (pgApiCalls s) teamID 1 k) = true) /\
      Z.of_nat k < 2 ^ 63 /\ (k <= fuel)%nat) ->
  exists e s' n,
    pgInitializeLocalDataTeamRepos fuel client s teamID = Returned e s' /\
    pgGetRepoByTeamIDAndRepoName fuel client s teamID repoName
    = Returned
        (pgReposByTeamIdAndRepoName s' !! teamID ≫= (.!! repoName),
         repos_resp (pgGetAllTeamReposResponse s'),
         match pgReposByTeamIdAndRepoName s' !! teamID ≫= (.!! repoName) with
         | Some _ => repos_err (pgGetAllTeamReposResponse s')
         | None => pgOrNotFound (repos_err (pgGetAllTeamReposResponse s'))
         end) s' /\
    sameTeams s s' /\
    pgApiCalls s' = pgApiCalls s ++ reposRequests teamID 1 n.
Proof.
  intros Hmutex Hcases.
  assert (Hgen : forall e s' n,
    pgInitializeLocalDataTeamRepos fuel client s teamID = Returned e s' ->
    pgApiCalls s' = pgApiCalls s ++ reposRequests teamID 1 n ->
    exists e s' n,
      pgInitializeLocalDataTeamRepos fuel client s teamID = Returned e s' /\
      pgGetRepoByTeamIDAndRepoName fuel client s teamID repoName
      = Returned
          (pgReposByTeamIdAndRepoName s' !! teamID ≫= (.!! repoName),
           repos_resp (pgGetAllTeamReposResponse s'),
           match pgReposByTeamIdAndRepoName s' !! teamID ≫= (.!! repoName) with
           | Some _ => repos_err (pgGetAllTeamReposResponse s')
           | None => pgOrNotFound (repos_err (pgGetAllTeamReposResponse s'))
           end) s' /\
      sameTeams s s' /\
      pgApiCalls s' = pgApiCalls s ++ reposRequests teamID 1 n).
  { intros e s' n Hret Hcalls. exists e, s', n.
    split; [exact Hret|]. split; [|split; [|exact Hcalls]].
    - rewrite (pgGetRepoByTeamIDAndRepoName_after _ _ _ _ _ _ _ Hret).
      destruct (pgReposByTeamIdAndRepoName s' !! teamID ≫= (.!! repoName)); reflexivity.
    - apply (pgInitializeLocalDataTeamRepos_returned _ _ _ _ _ _ Hret). }
  destruct Hcases as [Hdone|(Hdone & [Hends|Hends] & Hk & Hfuel)].
  - apply (Hgen _ _ 0%nat (pgInitializeLocalDataTeamRepos_done fuel client s teamID
                             Hmutex Hdone)).
    cbn. rewrite app_nil_r. reflexivity.
  - apply (Hgen _ _ k (pgInitializeLocalDataTeamRepos_succeeds fuel client s teamID k
                         Hmutex Hdone Hends Hk Hfuel)).
    rewrite reposLoadedState_calls, reposListing_length. reflexivity.
  - apply (Hgen _ _ k (pgInitializeLocalDataTeamRepos_fails fuel client s teamID k
                         Hmutex Hdone Hends Hk Hfuel)).
    rewrite reposFailedState_calls, reposListing_length. reflexivity.
Qed.

Lemma children_lookup_drives_only_children_load_witness :
  exists e s' n,
    pgInitializeLocalDataTeamRepos 1 Fixtures.smallClient Fixtures.smallLoaded 1
    = Returned e s' /\
    pgGetRepoByTeamIDAndRepoName 1 Fixtures.smallClient Fixtures.smallLoaded 1 "infra"
    = Returned
        (pgReposByTeamIdAndRepoName s' !! 1 ≫= (.!! "infra"%string),
         repos_resp (pgGetAllTeamReposResponse s'),
         match pgReposByTeamIdAndRepoName s' !! 1 ≫= (.!! "infra"%string) with
         | Some _ => repos_err (pgGetAllTeamReposResponse s')
         | None => pgOrNotFound (repos_err (pgGetAllTeamReposResponse s'))
         end) s' /\
    sameTeams Fixtures.smallLoaded s' /\
    pgApiCalls s' = pgApiCalls Fixtures.smallLoaded ++ reposRequests 1 1 n.
Proof.
  apply (children_lookup_drives_only_children_load
           Fixtures.smallClient Fixtures.smallLoaded 1 "infra" 1 1).
  - vm_compute. reflexivity.
  - right. split; [vm_compute; reflexivity|].
    split; [left; vm_compute; reflexivity|]. split; lia.
Defined.

(** ** One holder for the children of all teams *)

Lemma reposLoadedState_other teamB answers s teamA :
  teamA <> teamB ->
  pgReposByTeamIdAndRepoName (reposLoadedState teamB answers s) !! teamA
  = pgReposByTeamIdAndRepoName s !! teamA /\
  pgDoneGetAllTeamRepos (reposLoadedState teamB answers s) !! teamA
  = pgDoneGetAllTeamRepos s !! teamA /\
  pgMutexInitializeLocalDataTeamRepos (reposLoadedState teamB answers s) !! teamA
  = pgMutexInitializeLocalDataTeamRepos s !! teamA.
Proof.
  intros Hne. unfold reposLoadedState. cbn.
  destruct (reposStoreAll_frame teamB answers 1 (reposLockedState teamB s))
    as (_ & _ & _ & -> & _ & _ & -> & ->).
  cbn. rewrite !lookup_insert_ne by congruence. auto.
Qed.

Lemma reposFailedState_other teamB answers s teamA :
  teamA <> teamB ->
  pgReposByTeamIdAndRepoName (reposFailedState teamB answers s) !! teamA
  = pgReposByTeamIdAndRepoName s !! teamA /\
  pgDoneGetAllTeamRepos (reposFailedState teamB answers s) !! teamA
  = pgDoneGetAllTeamRepos s !! teamA /\
  pgMutexInitializeLocalDataTeamRepos (reposFailedState teamB answers s) !! teamA
  = pgMutexInitializeLocalDataTeamRepos s !! teamA.
Proof.
  intros Hne. unfold reposFailedState.
  destruct (reposStoreAll_frame teamB answers 1 (reposLockedState teamB s))
    as (_ & _ & _ & -> & _ & _ & -> & ->).
  cbn. rewrite !lookup_insert_ne by congruence. auto.
Qed.

Lemma reposLoadedState_holder teamB answers a s :
  pgGetAllTeamReposResponse (reposLoadedState teamB (answers ++ [a]) s)
  = {| repos := answer_items a; repos_resp := answer_resp a; repos_err := answer_err a |}.
Proof. unfold reposLoadedState. cbn. apply reposStoreAll_response. Qed.

Lemma reposFailedState_holder teamB answers a s :
  pgGetAllTeamReposResponse (reposFailedState teamB (answers ++ [a]) s)
  = {| repos := answer_items a; repos_resp := answer_resp a; repos_err := answer_err a |}.
Proof. unfold reposFailedState. apply reposStoreAll_response. Qed.

(** X16. What the single holder [pgGetAllTeamReposResponse] does to the
    lookups in general. With the children of [teamA] loaded, let the load
    for another team [teamB] paginate to its end, a short page or an error.
    Then it returns the error of its last page, and every lookup for [teamA]
    made in the state it leaves finds what [teamA]'s own index held before -
    the other load does not touch it - but returns with it the response and
    the error of [teamB]'s last page (the not-found error only if that error
    is nil and the name is absent). *)
Theorem children_holder_is_shared
    (client : Client) (s : State) (teamA teamB : Z) (k fuel : nat) :
  teamA <> teamB ->
  pgDoneGetAllTeamRepos s !! teamA = Some true ->
  pgMutexInitializeLocalDataTeamRepos s !! teamA = Some Unlocked ->
  pgMutexInitializeLocalDataTeamRepos s !! teamB = Some Unlocked ->
  default false (pgDoneGetAllTeamRepos s !! teamB) = false ->
  endsShort (reposListing client (pgApiCalls s) teamB 1 k) = true
  \/ endsFailed (reposListing client (pgApiCalls s) teamB 1 k) = true ->
  Z.of_nat k < 2 ^ 63 -> (k <= fuel)%nat ->
  exists s',
    pgInitializeLocalDataTeamRepos fuel client s teamB
    = Returned (answer_err (lastAnswer (reposListing client (pgApiCalls s) teamB 1 k))) s' /\
    forall fuel' client' repoName,
      pgGetRepoByTeamIDAndRepoName fuel' client' s' teamA repoName
      = Returned
          (pgReposByTeamIdAndRepoName s !! teamA ≫= (.!! repoName),
           answer_resp (lastAnswer (reposListing client (pgApiCalls s) teamB 1 k)),
           match pgReposByTeamIdAndRepoName s !! teamA ≫= (.!! repoName) with
           | Some _ => answer_err (lastAnswer (reposListing client (pgApiCalls s) teamB 1 k))
           | None =>
             pgOrNotFound
               (answer_err (lastAnswer (reposListing client (pgApiCalls s) teamB 1 k)))
           end) s'.
Proof.
  intros Hne HdA HmA HmB HdB Hends Hk Hfuel.
  set (answers := reposListing client (pgApiCalls s) teamB 1 k) in *.
  assert (Hgen : forall s',
    pgInitializeLocalDataTeamRepos fuel client s teamB
    = Returned (answer_err (lastAnswer answers)) s' ->
    pgGetAllTeamReposResponse s'
    = {| repos := answer_items (lastAnswer answers);
         repos_resp := answer_resp (lastAnswer answers);
         repos_err := answer_err (lastAnswer answers) |} ->
    pgReposByTeamIdAndRepoName s' !! teamA = pgReposByTeamIdAndRepoName s !! teamA /\
    pgDoneGetAllTeamRepos s' !! teamA = pgDoneGetAllTeamRepos s !! teamA /\
    pgMutexInitializeLocalDataTeamRepos s' !! teamA
    = pgMutexInitializeLocalDataTeamRepos s !! teamA ->
    forall fuel' client' repoName,
      pgGetRepoByTeamIDAndRepoName fuel' client' s' teamA repoName
      = Returned
          (pgReposByTeamIdAndRepoName s !! teamA ≫= (.!! repoName),
           answer_resp (lastAnswer answers),
           match pgReposByTeamIdAndRepoName s !! teamA ≫= (.!! repoName) with
           | Some _ => answer_err (lastAnswer answers)
           | None => pgOrNotFound (answer_err (lastAnswer answers))
           end) s').
  { intros s' Hret Hholder (Hidx & Hdone & Hmutex) fuel' client' repoName.
    rewrite (pgGetRepoByTeamIDAndRepoName_after fuel' client' s' teamA repoName
               (repos_err (pgGetAllTeamReposResponse s')) s').
    - rewrite Hidx, Hholder. cbn [repos_resp repos_err].
      destruct (pgReposByTeamIdAndRepoName s !! teamA ≫= (.!! repoName)); reflexivity.
    - apply pgInitializeLocalDataTeamRepos_done; congruence. }
  destruct Hends as [Hends|Hends].
  - exists (reposLoadedState teamB answers s).
    pose proof (pgInitializeLocalDataTeamRepos_succeeds fuel client s teamB k
                  HmB HdB Hends Hk Hfuel) as Hret.
    fold answers in Hret.
    destruct (endsShort_inv answers Hends) as (fulls & a & Heq & _ & Ha).
    assert (Hlast : lastAnswer answers = a)
      by (rewrite Heq; unfold lastAnswer; apply last_last).
    assert (Herr : answer_err (lastAnswer answers) = None).
    { rewrite Hlast. unfold pageShort in Ha.
      destruct (answer_err a); [discriminate Ha|reflexivity]. }
    rewrite <- Herr in Hret at 1.
    split; [exact Hret|]. apply Hgen; [exact Hret| |].
    + rewrite Hlast, Heq. apply reposLoadedState_holder.
    + apply reposLoadedState_other, Hne.
  - exists (reposFailedState teamB answers s).
    pose proof (pgInitializeLocalDataTeamRepos_fails fuel client s teamB k
                  HmB HdB Hends Hk Hfuel) as Hret.
    fold answers in Hret.
    destruct (endsFailed_inv answers Hends) as (fulls & a & Heq & _ & Ha).
    assert (Hlast : lastAnswer answers = a)
      by (rewrite Heq; unfold lastAnswer; apply last_last).
    split; [exact Hret|]. apply Hgen; [exact Hret| |].
    + rewrite Hlast, Heq. apply reposFailedState_holder.
    + apply reposFailedState_other, Hne.
Qed.

Lemma children_holder_is_shared_witness :
  exists s',
    pgInitializeLocalDataTeamRepos 1 Fixtures.smallClient Fixtures.team1Loaded 4
    = Returned (Some Fixtures.timeout) s' /\
    forall fuel' client' repoName,
      pgGetRepoByTeamIDAndRepoName fuel' client' s' 1 repoName
      = Returned
          (pgReposByTeamIdAndRepoName Fixtures.team1Loaded !! 1 ≫= (.!! repoName),
           None,
           match pgReposByTeamIdAndRepoName Fixtures.team1Loaded !! 1 ≫= (.!! repoName) with
           | Some _ => Some Fixtures.timeout
           | None => pgOrNotFound (Some Fixtures.timeout)
           end) s'.
Proof.
  apply (children_holder_is_shared Fixtures.smallClient Fixtures.team1Loaded 1 4 1 1).
  - discriminate.
  - vm_compute. reflexivity.
  - vm_compute. reflexivity.
  - vm_compute. reflexivity.
  - vm_compute. reflexivity.
  - right. vm_compute. reflexivity.
  - lia.
  - lia.
Defined.

(** ** Two callers at once *)

(** A caller can only be held up in [Lock], and only by the mutex of its
    own team. *)
Lemma reposThreadBlocked_iff client teamID pc s :
  reposThreadBlocked client teamID pc s
  <-> pc = AtLock /\ pgMutexInitializeLocalDataTeamRepos s !! teamID = Some Locked.
Proof.
  unfold reposThreadBlocked. split.
  - intros [Hover Hstep]. destruct pc; simpl in *; try discriminate.
    + destruct (pgMutexInitializeLocalDataTeamRepos s !! teamID) as [[]|];
        [discriminate|auto|discriminate].
    + destruct (negb _); discriminate.
    + destruct (repos_err _); discriminate.
    + destruct (_ <? _)%nat; discriminate.
    + destruct (pgMutexInitializeLocalDataTeamRepos s !! teamID) as [[]|]; discriminate.
  - intros [-> Hlocked]. simpl. rewrite Hlocked. auto.
Qed.

(** A statement of a caller for [teamID] leaves the mutex entries of every
    other team alone and never leads back to [Lock]. *)
Lemma reposThreadStep_mutexes client teamID pc s pc' s' other :
  reposThreadStep client teamID pc s = Some (pc', s') ->
  pc' <> AtLock /\
  (other <> teamID ->
   pgMutexInitializeLocalDataTeamRepos s' !! other
   = pgMutexInitializeLocalDataTeamRepos s !! other).
Proof.
  intros Hstep. destruct pc; simpl in Hstep.
  - destruct (pgMutexInitializeLocalDataTeamRepos s !! teamID) as [[]|];
      [|discriminate|]; injection Hstep as <- <-; (split; [discriminate|]); intros Hne;
      [cbn; rewrite lookup_insert_ne by congruence|]; reflexivity.
  - destruct (negb _); injection Hstep as <- <-; split; (discriminate || reflexivity).
  - injection Hstep as <- <-. split; [discriminate|reflexivity].
  - destruct (repos_err _); injection Hstep as <- <-;
      split; (discriminate || reflexivity).
  - injection Hstep as <- <-. split; [discriminate|reflexivity].
  - injection Hstep as <- <-. split; [discriminate|reflexivity].
  - destruct (_ <? _)%nat; injection Hstep as <- <-;
      split; (discriminate || reflexivity).
  - injection Hstep as <- <-. split; [discriminate|reflexivity].
  - injection Hstep as <- <-. split; [discriminate|reflexivity].
  - destruct (pgMutexInitializeLocalDataTeamRepos s !! teamID) as [[]|];
      injection Hstep as <- <-; (split; [discriminate|]); intros Hne;
      [|cbn; rewrite lookup_insert_ne by congruence|]; reflexivity.
  - injection Hstep as <- <-. split; [discriminate|reflexivity].
  - discriminate.
  - discriminate.
Qed.

(** While a caller still stands before its [Lock], its team's mutex is
    free. *)
Lemma duoStep_lock_free clientA clientB teamA teamB d d' :
  teamA <> teamB ->
  duoStep clientA clientB teamA teamB d d' ->
  (duo_pcA d = AtLock ->
   pgMutexInitializeLocalDataTeamRepos (duo_state d) !! teamA = Some Unlocked) /\
  (duo_pcB d = AtLock ->
   pgMutexInitializeLocalDataTeamRepos (duo_state d) !! teamB = Some Unlocked) ->
  (duo_pcA d' = AtLock ->
   pgMutexInitializeLocalDataTeamRepos (duo_state d') !! teamA = Some Unlocked) /\
  (duo_pcB d' = AtLock ->
   pgMutexInitializeLocalDataTeamRepos (duo_state d') !! teamB = Some Unlocked).
Proof.
  intros Hne Hstep [HA HB].
  destruct Hstep as [s pcA pcB pcA' s' Hstep|s pcA pcB pcB' s' Hstep]; cbn in *.
  - destruct (reposThreadStep_mutexes _ _ _ _ _ _ teamB Hstep) as [Hpc Hother].
    split; [intros ->; destruct Hpc; reflexivity|].
    intros HpcB. rewrite Hother by congruence. apply HB, HpcB.
  - destruct (reposThreadStep_mutexes _ _ _ _ _ _ teamA Hstep) as [Hpc Hother].
    split; [|intros ->; destruct Hpc; reflexivity].
    intros HpcA. rewrite Hother by congruence. apply HA, HpcA.
Qed.

(** X20. The mutexes alone, in the runs that the runtime lets go on (the
    interleavings of [duoStep], whose statements are indivisible). Two
    callers load the children of two distinct registered teams at once,
    their statements interleaved in any order, from a state where both
    teams' mutexes are free. A caller is only ever held up in [Lock], and
    only when the mutex of its own team is held; and in no configuration the
    two can reach is either of them held up in [Lock]. *)
Theorem children_loads_of_distinct_teams_never_block
    (clientA clientB : Client) (teamA teamB : Z) (s0 : State) (d : Duo) :
  teamA <> teamB ->
  pgMutexInitializeLocalDataTeamRepos s0 !! teamA = Some Unlocked ->
  pgMutexInitializeLocalDataTeamRepos s0 !! teamB = Some Unlocked ->
  rtc (duoStep clientA clientB teamA teamB)
      {| duo_state := s0; duo_pcA := AtLock; duo_pcB := AtLock |} d ->
  (forall client teamID pc s,
      reposThreadBlocked client teamID pc s
      <-> pc = AtLock /\ pgMutexInitializeLocalDataTeamRepos s !! teamID = Some Locked) /\
  ~ reposThreadBlocked clientA teamA (duo_pcA d) (duo_state d) /\
  ~ reposThreadBlocked clientB teamB (duo_pcB d) (duo_state d).
Proof.
  intros Hne HA0 HB0 Hrun.
  split; [intros; apply reposThreadBlocked_iff|].
  assert (Hfree :
    (duo_pcA d = AtLock ->
     pgMutexInitializeLocalDataTeamRepos (duo_state d) !! teamA = Some Unlocked) /\
    (duo_pcB d = AtLock ->
     pgMutexInitializeLocalDataTeamRepos (duo_state d) !! teamB = Some Unlocked)).
  { remember {| duo_state := s0; duo_pcA := AtLock; duo_pcB := AtLock |} as d0 eqn:Hd0.
    assert (Hstart :
      (duo_pcA d0 = AtLock ->
       pgMutexInitializeLocalDataTeamRepos (duo_state d0) !! teamA = Some Unlocked) /\
      (duo_pcB d0 = AtLock ->
       pgMutexInitializeLocalDataTeamRepos (duo_state d0) !! teamB = Some Unlocked))
      by (subst d0; cbn; auto).
    clear Hd0 HA0 HB0.
    induction Hrun as [|d0 d1 d Hstep _ IH]; [exact Hstart|].
    apply IH. eapply duoStep_lock_free; eassumption. }
  destruct Hfree as [HA HB].
  split; intros Hblocked; apply reposThreadBlocked_iff in Hblocked as [Hpc Hlocked].
  - rewrite (HA Hpc) in Hlocked. discriminate.
  - rewrite (HB Hpc) in Hlocked. discriminate.
Qed.

Lemma children_loads_of_distinct_teams_never_block_witness :
  let s1 := reposLockedState 2 Fixtures.smallLoaded in
  let s2 := reposStore 2 1 (reposAnswer Fixtures.smallClient (pgApiCalls s1) 2 1) s1 in
  let s3 := reposLockedState 1 s2 in
  (forall client teamID pc s,
      reposThreadBlocked client teamID pc s
      <-> pc = AtLock /\ pgMutexInitializeLocalDataTeamRepos s !! teamID = Some Locked) /\
  ~ reposThreadBlocked Fixtures.smallClient 1 AtCheck s3 /\
  ~ reposThreadBlocked Fixtures.smallClient 2 (AtErrCheck 1 ∅) s3.
Proof.
  intros s1 s2 s3.
  apply (children_loads_of_distinct_teams_never_block
           Fixtures.smallClient Fixtures.smallClient 1 2 Fixtures.smallLoaded
           {| duo_state := s3; duo_pcA := AtCheck; duo_pcB := AtErrCheck 1 ∅ |}).
  - discriminate.
  - vm_compute. reflexivity.
  - vm_compute. reflexivity.
  - apply rtc_l with {| duo_state := s1; duo_pcA := AtLock; duo_pcB := AtCheck |};
      [apply duo_stepB; vm_compute; reflexivity|].
    apply rtc_l with {| duo_state := s1; duo_pcA := AtLock; duo_pcB := AtFetch 1 ∅ |};
      [apply duo_stepB; vm_compute; reflexivity|].
    apply rtc_l with {| duo_state := s2; duo_pcA := AtLock; duo_pcB := AtErrCheck 1 ∅ |};
      [apply duo_stepB; vm_compute; reflexivity|].
    apply rtc_once. apply duo_stepA. vm_compute. reflexivity.
Defined.

(** ** A caller alone does what the sequential function does *)

Lemma reposThreadRun_stuck n client teamID pc s :
  reposThreadStep client teamID pc s = None ->
  reposThreadRun n client teamID pc s = (pc, s).
Proof. intros Hstep. destruct n; simpl; [|rewrite Hstep]; reflexivity. Qed.

Lemma reposThreadRun_add n1 : forall n2 client teamID pc s,
  reposThreadRun (n1 + n2) client teamID pc s
  = reposThreadRun n2 client teamID
      (reposThreadRun n1 client teamID pc s).1 (reposThreadRun n1 client teamID pc s).2.
Proof.
  induction n1 as [|n1 IH]; intros n2 client teamID pc s; [reflexivity|].
  cbn [Nat.add reposThreadRun].
  destruct (reposThreadStep client teamID pc s) as [[pc' s']|] eqn:Hstep.
  - apply IH.
  - cbn. symmetry. apply reposThreadRun_stuck, Hstep.
Qed.

Lemma reposThreadRun_then n1 n2 client teamID pc s pc1 s1 r :
  reposThreadRun n1 client teamID pc s = (pc1, s1) ->
  reposThreadRun n2 client teamID pc1 s1 = r ->
  reposThreadRun (n1 + n2) client teamID pc s = r.
Proof. intros H1 H2. rewrite reposThreadRun_add, H1. exact H2. Qed.

(** The statements of one iteration of the page loop, up to the test that
    depends on the answer [a] with error [Herr]. *)
Ltac thread_iteration a Herr :=
  cbn [reposThreadRun reposThreadStep]; fold a;
  repeat match goal with
  | |- context [repos_err (pgGetAllTeamReposResponse (reposStore ?t ?p a ?s))] =>
    change (repos_err (pgGetAllTeamReposResponse (reposStore t p a s)))
      with (answer_err a);
    rewrite ?Herr; cbn [reposThreadRun reposThreadStep]
  | |- context [repos (pgGetAllTeamReposResponse (reposStore ?t ?p a ?s))] =>
    change (repos (pgGetAllTeamReposResponse (reposStore t p a s)))
      with (answer_items a)
  end.

Lemma pgTeamReposLoop_thread client teamID fuel : forall page m s,
  match pgTeamReposLoop fuel client teamID page m s with
  | LoopBreak m' s' =>
    exists n, reposThreadRun n client teamID (AtFetch page m) s = (AtStore m', s')
  | LoopReturn e s' =>
    exists n, reposThreadRun n client teamID (AtFetch page m) s = (Finished e, s')
  | LoopOutOfFuel => True
  end.
Proof.
  induction fuel as [|fuel IH]; intros page m s; [exact I|].
  set (a := reposAnswer client (pgApiCalls s) teamID page).
  destruct (answer_err a) as [e|] eqn:Herr.
  - rewrite pgTeamReposLoop_failed
      by (unfold pageFailed; fold a; rewrite Herr; reflexivity).
    fold a. exists 3%nat. thread_iteration a Herr. reflexivity.
  - destruct (length (answer_items a) <? 100)%nat eqn:Hlen.
    + rewrite pgTeamReposLoop_short
        by (unfold pageShort; fold a; rewrite Herr; exact Hlen).
      fold a. exists 4%nat. thread_iteration a Herr. rewrite Hlen. reflexivity.
    + rewrite pgTeamReposLoop_full
        by (unfold pageFull; fold a; rewrite Herr, Hlen; reflexivity).
      fold a.
      specialize (IH (int_wrap (page + 1))
                    (index_by Repository_GetName (answer_items a) m)
                    (reposStore teamID page a s)).
      assert (Hfour : reposThreadRun 4 client teamID (AtFetch page m) s
                      = (AtFetch (int_wrap (page + 1))
                           (index_by Repository_GetName (answer_items a) m),
                         reposStore teamID page a s)).
      { thread_iteration a Herr. rewrite Hlen. reflexivity. }
      destruct (pgTeamReposLoop _ _ _ _ _ _) as [m' s'|e s'|]; [| |exact I].
      * destruct IH as [n Hn]. exists (4 + n)%nat.
        exact (reposThreadRun_then _ _ _ _ _ _ _ _ _ Hfour Hn).
      * destruct IH as [n Hn]. exists (4 + n)%nat.
        exact (reposThreadRun_then _ _ _ _ _ _ _ _ _ Hfour Hn).
Qed.

Lemma pgTeamReposUnlockReturn_thread client teamID s :
  match pgTeamReposUnlockReturn teamID s with
  | Returned e s' =>
    reposThreadRun 2 client teamID AtUnlock s = (Finished e, s')
  | Panicked s' => reposThreadRun 1 client teamID AtUnlock s = (Crashed, s')
  | _ => False
  end.
Proof.
  unfold pgTeamReposUnlockReturn. cbn.
  destruct (pgMutexInitializeLocalDataTeamRepos s !! teamID) as [[]|]; reflexivity.
Qed.

(** Running the statements of one caller with nobody else around ends as
    [pgInitializeLocalDataTeamRepos] says. *)
Lemma pgInitializeLocalDataTeamRepos_thread fuel client s teamID :
  match pgInitializeLocalDataTeamRepos fuel client s teamID with
  | Returned e s' =>
    exists n, reposThreadRun n client teamID AtLock s = (Finished e, s')
  | Blocked s' => s' = s /\ reposThreadBlocked client teamID AtLock s
  | Panicked s' =>
    exists n, reposThreadRun n client teamID AtLock s = (Crashed, s')
  | OutOfFuel => True
  end.
Proof.
  unfold pgInitializeLocalDataTeamRepos.
  destruct (pgMutexInitializeLocalDataTeamRepos s !! teamID) as [[]|] eqn:Hmutex.
  - fold (reposLockedState teamID s).
    set (s1 := reposLockedState teamID s).
    assert (Hlock : reposThreadRun 1 client teamID AtLock s = (AtCheck, s1))
      by (cbn; rewrite Hmutex; reflexivity).
    destruct (negb (default false (pgDoneGetAllTeamRepos s1 !! teamID))) eqn:Hdone.
    + assert (Hcheck : reposThreadRun 1 client teamID AtCheck s1 = (AtFetch 1 ∅, s1))
        by (cbn [reposThreadRun reposThreadStep]; rewrite Hdone; reflexivity).
      pose proof (pgTeamReposLoop_thread client teamID fuel 1 ∅ s1) as Hloop.
      destruct (pgTeamReposLoop fuel client teamID 1 ∅ s1) as [m s2|e s2|]; [| |exact I].
      * destruct Hloop as [n Hn].
        set (s3 := set_pgDoneGetAllTeamRepos _ _).
        assert (Hstore : reposThreadRun 2 client teamID (AtStore m) s2 = (AtUnlock, s3))
          by reflexivity.
        pose proof (pgTeamReposUnlockReturn_thread client teamID s3) as Hunlock.
        destruct (pgTeamReposUnlockReturn teamID s3) as [e s4|s4|s4|];
          [| destruct Hunlock | | destruct Hunlock].
        -- exists (1 + (1 + (n + (2 + 2))))%nat.
           eapply reposThreadRun_then; [exact Hlock|].
           eapply reposThreadRun_then; [exact Hcheck|].
           eapply reposThreadRun_then; [exact Hn|].
           eapply reposThreadRun_then; [exact Hstore|exact Hunlock].
        -- exists (1 + (1 + (n + (2 + 1))))%nat.
           eapply reposThreadRun_then; [exact Hlock|].
           eapply reposThreadRun_then; [exact Hcheck|].
           eapply reposThreadRun_then; [exact Hn|].
           eapply reposThreadRun_then; [exact Hstore|exact Hunlock].
      * destruct Hloop as [n Hn]. exists (1 + (1 + n))%nat.
        eapply reposThreadRun_then; [exact Hlock|].
        eapply reposThreadRun_then; [exact Hcheck|exact Hn].
    + assert (Hcheck : reposThreadRun 1 client teamID AtCheck s1 = (AtUnlock, s1))
        by (cbn [reposThreadRun reposThreadStep]; rewrite Hdone; reflexivity).
      pose proof (pgTeamReposUnlockReturn_thread client teamID s1) as Hunlock.
      destruct (pgTeamReposUnlockReturn teamID s1) as [e s4|s4|s4|];
        [| destruct Hunlock | | destruct Hunlock].
      * exists (1 + (1 + 2))%nat.
        eapply reposThreadRun_then; [exact Hlock|].
        eapply reposThreadRun_then; [exact Hcheck|exact Hunlock].
      * exists (1 + (1 + 1))%nat.
        eapply reposThreadRun_then; [exact Hlock|].
        eapply reposThreadRun_then; [exact Hcheck|exact Hunlock].
  - split; [reflexivity|]. apply reposThreadBlocked_iff. auto.
  - exists 1%nat. cbn. rewrite Hmutex. reflexivity.
Qed.

(** ** One holder for all teams, seen by the callers *)

Lemma team1Then2Loaded_step : pgStep Fixtures.team1Loaded Fixtures.team1Then2Loaded.
Proof.
  apply (step_InitializeTeamRepos 1 Fixtures.smallClient Fixtures.team1Loaded 2 None).
  vm_compute. reflexivity.
Defined.

Lemma team2Loaded_step : pgStep Fixtures.smallLoaded Fixtures.team2Loaded.
Proof.
  apply (step_InitializeTeamRepos 1 Fixtures.smallClient Fixtures.smallLoaded 2 None).
  vm_compute. reflexivity.
Defined.

Lemma team2Loaded4Failed_step : pgStep Fixtures.team2Loaded Fixtures.team2Loaded4Failed.
Proof.
  apply (step_InitializeTeamRepos 1 Fixtures.smallClient Fixtures.team2Loaded 4
           (Some Fixtures.timeout)).
  vm_compute. reflexivity.
Defined.

Lemma team1Loaded_reachable : pgReachable Fixtures.team1Loaded.
Proof.
  apply rtc_l with Fixtures.smallLoaded; [exact smallLoaded_step|].
  apply rtc_once, team1Loaded_step.
Qed.

Lemma team4Failed_reachable : pgReachable Fixtures.team4Failed.
Proof.
  eapply rtc_r; [exact team1Loaded_reachable|exact team4Failed_step].
Qed.

Lemma team2Loaded4Failed_reachable : pgReachable Fixtures.team2Loaded4Failed.
Proof.
  apply rtc_l with Fixtures.smallLoaded; [exact smallLoaded_step|].
  apply rtc_l with Fixtures.team2Loaded; [exact team2Loaded_step|].
  apply rtc_once, team2Loaded4Failed_step.
Qed.

(** C3 (the code departs from it). There is one holder,
    [pgGetAllTeamReposResponse], for the children loads of all teams, where
    the mutex, the flag and the index are per team. In the sequential run
    that loads the teams 1 to 4 and then the children of team 1, the lookup
    of team 1's repository "infra" returns it with the response of team 1's
    own load and a nil error. After the children of team 2 were loaded as
    well, the same lookup returns the repository with the response of team
    2's page. And after the load of team 4's children failed instead, which
    leaves the index, the flag and the mutex of team 1 as they were, the
    same lookup returns the repository with a nil response and team 4's
    transport error. *)
Theorem lookup_returns_result_of_another_teams_load :
  pgReachable Fixtures.team1Loaded /\
  pgGetRepoByTeamIDAndRepoName 1 Fixtures.smallClient Fixtures.team1Loaded 1 "infra"
  = Returned (Some (Fixtures.repo "infra"), Fixtures.response 0 1, None)
      Fixtures.team1Loaded /\
  pgInitializeLocalDataTeamRepos 1 Fixtures.smallClient Fixtures.team1Loaded 2
  = Returned None Fixtures.team1Then2Loaded /\
  pgGetRepoByTeamIDAndRepoName 1 Fixtures.smallClient Fixtures.team1Then2Loaded 1 "infra"
  = Returned (Some (Fixtures.repo "infra"), Fixtures.response 0 0, None)
      Fixtures.team1Then2Loaded /\
  pgInitializeLocalDataTeamRepos 1 Fixtures.smallClient Fixtures.team1Loaded 4
  = Returned (Some Fixtures.timeout) Fixtures.team4Failed /\
  pgReposByTeamIdAndRepoName Fixtures.team4Failed !! 1
  = pgReposByTeamIdAndRepoName Fixtures.team1Loaded !! 1 /\
  pgDoneGetAllTeamRepos Fixtures.team4Failed !! 1 = Some true /\
  pgMutexInitializeLocalDataTeamRepos Fixtures.team4Failed !! 1 = Some Unlocked /\
  pgGetRepoByTeamIDAndRepoName 1 Fixtures.smallClient Fixtures.team4Failed 1 "infra"
  = Returned (Some (Fixtures.repo "infra"), None, Some Fixtures.timeout)
      Fixtures.team4Failed.
Proof.
  split; [exact team1Loaded_reachable|].
  repeat split; vm_compute; reflexivity.
Qed.

(** C5 (the code departs from it, by the defect of C3: one holder for the
    children of all teams). The children of team 1 were loaded with
    success: its flag is set and its index holds "infra" and nothing else.
    In that state the lookup of the absent name "website" returns the
    not-found error. After the load of team 4's children failed, the same
    lookup, with team 1's index as fully loaded as before, returns team 4's
    transport error and no not-found error. *)
Theorem absent_repository_gets_another_teams_error :
  pgInitializeLocalDataTeamRepos 1 Fixtures.smallClient Fixtures.smallLoaded 1
  = Returned None Fixtures.team1Loaded /\
  pgGetRepoByTeamIDAndRepoName 1 Fixtures.smallClient Fixtures.team1Loaded 1 "website"
  = Returned (None, Fixtures.response 0 1, Some pgNotFound) Fixtures.team1Loaded /\
  pgReachable Fixtures.team4Failed /\
  pgDoneGetAllTeamRepos Fixtures.team4Failed !! 1 = Some true /\
  pgReposByTeamIdAndRepoName Fixtures.team4Failed !! 1
  = Some {[ "infra"%string := Fixtures.repo "infra" ]} /\
  (forall fuel client,
      pgGetRepoByTeamIDAndRepoName fuel client Fixtures.team4Failed 1 "website"
      = Returned (None, None, Some Fixtures.timeout) Fixtures.team4Failed) /\
  Fixtures.timeout <> pgNotFound.
Proof.
  split; [vm_compute; reflexivity|].
  split; [vm_compute; reflexivity|].
  split; [exact team4Failed_reachable|].
  split; [vm_compute; reflexivity|].
  split; [vm_compute; reflexivity|].
  split; [|discriminate].
  intros fuel client.
  rewrite (pgGetRepoByTeamIDAndRepoName_after fuel client Fixtures.team4Failed 1
             "website" (Some Fixtures.timeout) Fixtures.team4Failed).
  - vm_compute. reflexivity.
  - rewrite pgInitializeLocalDataTeamRepos_done; vm_compute; reflexivity.
Qed.

(** C7 (the code departs from it, by the defect of C3: one holder for the
    children of all teams). The load of team 1's children returned nil and
    set the team's flag. After the load of team 4's children failed, a call
    of the ensure-load function for team 1 makes no request and changes
    nothing, as specified, but the error it returns is team 4's transport
    error, not the nil error of team 1's own load. *)
Theorem completed_children_load_returns_another_teams_error :
  pgInitializeLocalDataTeamRepos 1 Fixtures.smallClient Fixtures.smallLoaded 1
  = Returned None Fixtures.team1Loaded /\
  pgDoneGetAllTeamRepos Fixtures.team1Loaded !! 1 = Some true /\
  pgInitializeLocalDataTeamRepos 1 Fixtures.smallClient Fixtures.team1Loaded 1
  = Returned None Fixtures.team1Loaded /\
  pgInitializeLocalDataTeamRepos 1 Fixtures.smallClient Fixtures.team1Loaded 4
  = Returned (Some Fixtures.timeout) Fixtures.team4Failed /\
  pgReachable Fixtures.team4Failed /\
  pgDoneGetAllTeamRepos Fixtures.team4Failed !! 1 = Some true /\
  forall fuel client,
    pgInitializeLocalDataTeamRepos fuel client Fixtures.team4Failed 1
    = Returned (Some Fixtures.timeout) Fixtures.team4Failed.
Proof.
  split; [vm_compute; reflexivity|].
  split; [vm_compute; reflexivity|].
  split; [vm_compute; reflexivity|].
  split; [vm_compute; reflexivity|].
  split; [exact team4Failed_reachable|].
  split; [vm_compute; reflexivity|].
  intros fuel client.
  rewrite pgInitializeLocalDataTeamRepos_done; vm_compute; reflexivity.
Qed.

(** C8 (the code departs from it, by the defect of C3: one holder for the
    children of all teams). The first page of team 2's children is empty.
    Its load returns nil after that page, stores the empty index and sets
    the flag, and a lookup made right then returns the not-found error, all
    as specified. After the load of team 4's children failed, with the empty
    index and the flag of team 2 still in place, the lookup for team 2 and
    any name returns team 4's transport error. *)
Theorem childless_team_lookup_gets_another_teams_error :
  reposAnswer Fixtures.smallClient (pgApiCalls Fixtures.smallLoaded) 2 1
  = ([], Fixtures.response 0 0, None) /\
  pgInitializeLocalDataTeamRepos 1 Fixtures.smallClient Fixtures.smallLoaded 2
  = Returned None Fixtures.team2Loaded /\
  pgReposByTeamIdAndRepoName Fixtures.team2Loaded !! 2 = Some ∅ /\
  pgDoneGetAllTeamRepos Fixtures.team2Loaded !! 2 = Some true /\
  pgGetRepoByTeamIDAndRepoName 1 Fixtures.smallClient Fixtures.team2Loaded 2 "anything"
  = Returned (None, Fixtures.response 0 0, Some pgNotFound) Fixtures.team2Loaded /\
  pgInitializeLocalDataTeamRepos 1 Fixtures.smallClient Fixtures.team2Loaded 4
  = Returned (Some Fixtures.timeout) Fixtures.team2Loaded4Failed /\
  pgReachable Fixtures.team2Loaded4Failed /\
  pgReposByTeamIdAndRepoName Fixtures.team2Loaded4Failed !! 2 = Some ∅ /\
  pgDoneGetAllTeamRepos Fixtures.team2Loaded4Failed !! 2 = Some true /\
  (forall fuel client repoName,
      pgGetRepoByTeamIDAndRepoName fuel client Fixtures.team2Loaded4Failed 2 repoName
      = Returned (None, None, Some Fixtures.timeout) Fixtures.team2Loaded4Failed) /\
  Fixtures.timeout <> pgNotFound.
Proof.
  split; [vm_compute; reflexivity|].
  split; [vm_compute; reflexivity|].
  split; [vm_compute; reflexivity|].
  split; [vm_compute; reflexivity|].
  split; [vm_compute; reflexivity|].
  split; [vm_compute; reflexivity|].
  split; [exact team2Loaded4Failed_reachable|].
  assert (Hidx : pgReposByTeamIdAndRepoName Fixtures.team2Loaded4Failed !! 2 = Some ∅)
    by (vm_compute; reflexivity).
  split; [exact Hidx|].
  split; [vm_compute; reflexivity|].
  split; [|discriminate].
  intros fuel client repoName.
  rewrite (pgGetRepoByTeamIDAndRepoName_after fuel client Fixtures.team2Loaded4Failed 2
             repoName (Some Fixtures.timeout) Fixtures.team2Loaded4Failed).
  - rewrite Hidx. cbn [mbind option_bind]. rewrite lookup_empty. vm_compute. reflexivity.
  - rewrite pgInitializeLocalDataTeamRepos_done; vm_compute; reflexivity.
Qed.

(** ** The plain map under two callers *)

Lemma duoTurn_step clientA clientB teamA teamB t d d' :
  duoTurn clientA clientB teamA teamB t d = Some d' ->
  duoStep clientA clientB teamA teamB d d'.
Proof.
  destruct d as [s pcA pcB]. destruct t; cbn; intros Hturn.
  - destruct (reposThreadStep clientA teamA pcA s) as [[pcA' s']|] eqn:Hstep;
      [|discriminate].
    injection Hturn as <-. apply duo_stepA, Hstep.
  - destruct (reposThreadStep clientB teamB pcB s) as [[pcB' s']|] eqn:Hstep;
      [|discriminate].
    injection Hturn as <-. apply duo_stepB, Hstep.
Qed.

Lemma duoSchedule_steps clientA clientB teamA teamB turns : forall d d',
  duoSchedule clientA clientB teamA teamB turns d = Some d' ->
  rtc (duoStep clientA clientB teamA teamB) d d' /\
  rtc (goStep clientA clientB teamA teamB) (Running d) (Running d').
Proof.
  induction turns as [|t turns IH]; intros d d' Hrun; cbn in Hrun.
  - injection Hrun as <-. split; apply rtc_refl.
  - destruct (duoRace d); [discriminate|].
    destruct (duoTurn clientA clientB teamA teamB t d) as [d1|] eqn:Hturn;
      [|discriminate].
    apply duoTurn_step in Hturn. destruct (IH _ _ Hrun) as [Hduo Hgo].
    split; [exact (rtc_l _ _ _ _ Hturn Hduo)|].
    exact (rtc_l _ _ _ _ (go_step _ _ _ _ _ _ Hturn) Hgo).
Qed.

(** C9 (the code departs from it). With the teams loaded, two callers load
    the children of the teams 1 and 2 at once. Neither waits for the mutex
    of the other, and that is all the mutexes do: the flags of all teams
    sit in one plain Go map, [pgDoneGetAllTeamRepos], which the callers read
    (line 102) and assign to (line 124) while each holds the mutex of its
    own team only. In the first schedule below the caller for team 1 runs
    up to line 124, then the caller for team 2 takes its mutex and stands at
    its read of line 102; in the second both callers have taken their
    mutexes and fetched their page, one after the other, and both stand at
    the assignment of line 124. No configuration before these has two
    accesses to the map that can overlap; in these the two accesses are
    ordered by nothing, and the runtime may end the process with its fatal
    error for concurrent map accesses. *)
Theorem parallel_children_loads_race_on_flags_map :
  (exists d,
      duoSchedule Fixtures.smallClient Fixtures.smallClient 1 2
        [TurnA; TurnA; TurnA; TurnA; TurnA; TurnA; TurnA; TurnB] Fixtures.twoCallers
      = Some d /\
      duo_pcA d = AtSetDone /\ duo_pcB d = AtCheck /\
      pgMutexInitializeLocalDataTeamRepos (duo_state d) !! 1 = Some Locked /\
      pgMutexInitializeLocalDataTeamRepos (duo_state d) !! 2 = Some Locked /\
      duoRace d = true) /\
  (exists d,
      duoSchedule Fixtures.smallClient Fixtures.smallClient 1 2
        [TurnA; TurnA; TurnB; TurnB;
         TurnA; TurnA; TurnA; TurnA; TurnA;
         TurnB; TurnB; TurnB; TurnB; TurnB] Fixtures.twoCallers
      = Some d /\
      rtc (duoStep Fixtures.smallClient Fixtures.smallClient 1 2) Fixtures.twoCallers d /\
      duo_pcA d = AtSetDone /\ duo_pcB d = AtSetDone /\
      pgMutexInitializeLocalDataTeamRepos (duo_state d) !! 1 = Some Locked /\
      pgMutexInitializeLocalDataTeamRepos (duo_state d) !! 2 = Some Locked /\
      duoRace d = true) /\
  rtc (goStep Fixtures.smallClient Fixtures.smallClient 1 2)
      (Running Fixtures.twoCallers) FatalError.
Proof.
  split; [|split].
  - eexists. split; [vm_compute; reflexivity|].
    repeat split; vm_compute; reflexivity.
  - destruct (duoSchedule Fixtures.smallClient Fixtures.smallClient 1 2
                [TurnA; TurnA; TurnB; TurnB;
                 TurnA; TurnA; TurnA; TurnA; TurnA;
                 TurnB; TurnB; TurnB; TurnB; TurnB] Fixtures.twoCallers)
      as [d|] eqn:Hrun; [|vm_compute in Hrun; discriminate].
    exists d. split; [reflexivity|].
    split; [exact (proj1 (duoSchedule_steps _ _ _ _ _ _ _ Hrun))|].
    vm_compute in Hrun. injection Hrun as <-.
    repeat split; vm_compute; reflexivity.
  - destruct (duoSchedule Fixtures.smallClient Fixtures.smallClient 1 2
                [TurnA; TurnA; TurnA; TurnA; TurnA; TurnA; TurnA; TurnB]
                Fixtures.twoCallers) as [d|] eqn:Hrun;
      [|vm_compute in Hrun; discriminate].
    eapply rtc_r; [exact (proj2 (duoSchedule_steps _ _ _ _ _ _ _ Hrun))|].
    apply go_fatal. vm_compute in Hrun. injection Hrun as <-. reflexivity.
Qed.

(** * Further properties of the loaders and lookups *)

(** ** Faults *)

(** The teams load unlocks the mutex it locked itself: it never faults. *)
Lemma pgInitializeLocalDataTeams_no_fault fuel client s s' :
  pgInitializeLocalDataTeams fuel client s <> Panicked s'.
Proof.
  unfold pgInitializeLocalDataTeams.
  destruct (pgMutexInitializeLocalDataTeams s); [|discriminate].
  set (s1 := set_pgMutexInitializeLocalDataTeams Locked s).
  pose proof (pgTeamsLoop_preserves
    (fun x => pgMutexInitializeLocalDataTeams x = Locked) client
    ltac:(intros ? ? ? H; exact H) ltac:(intros ? ? H; exact H) fuel 1 s1 eq_refl) as Hloop.
  destruct (negb (pgDoneGetAllTeams s1)).
  - destruct (pgTeamsLoop fuel client 1 s1) as [[] s2|e2 s2|]; [|discriminate..].
    unfold pgTeamsUnlockReturn. cbn [pgMutexInitializeLocalDataTeams set_pgDoneGetAllTeams].
    rewrite Hloop. discriminate.
  - unfold pgTeamsUnlockReturn. cbn. discriminate.
Qed.

(** A children load of a registered team whose mutex is free does not
    fault either. *)
Lemma pgInitializeLocalDataTeamRepos_no_fault fuel client s teamID s' :
  pgMutexInitializeLocalDataTeamRepos s !! teamID <> None ->
  pgInitializeLocalDataTeamRepos fuel client s teamID <> Panicked s'.
Proof.
  intros Hreg. unfold pgInitializeLocalDataTeamRepos.
  destruct (pgMutexInitializeLocalDataTeamRepos s !! teamID) as [[]|] eqn:Hmutex;
    [|discriminate|congruence].
  fold (reposLockedState teamID s).
  assert (Hunlock : forall x,
    pgMutexInitializeLocalDataTeamRepos x
    = pgMutexInitializeLocalDataTeamRepos (reposLockedState teamID s) ->
    pgTeamReposUnlockReturn teamID x <> Panicked s').
  { intros x Hx. unfold pgTeamReposUnlockReturn. rewrite Hx. cbn.
    rewrite lookup_insert_eq. discriminate. }
  destruct (negb _).
  - pose proof (pgTeamReposLoop_exit client teamID fuel 1 ∅ (reposLockedState teamID s))
      as Hexit.
    destruct (pgTeamReposLoop _ _ _ _ _ _) as [m s2|e2 s2|]; [|discriminate..].
    destruct Hexit as [(_ & _ & _ & _ & _ & _ & Hm & _) _].
    apply Hunlock. cbn. exact Hm.
  - apply Hunlock. reflexivity.
Qed.

Lemma pgGetRepoByTeamIDAndRepoName_faults_iff fuel client s teamID repoName :
  (exists s', pgGetRepoByTeamIDAndRepoName fuel client s teamID repoName = Panicked s')
  <-> pgMutexInitializeLocalDataTeamRepos s !! teamID = None.
Proof.
  split.
  - intros [s' Hpanic].
    destruct (pgMutexInitializeLocalDataTeamRepos s !! teamID) as [mu|] eqn:Hmutex;
      [|reflexivity].
    exfalso. unfold pgGetRepoByTeamIDAndRepoName in Hpanic.
    pose proof (pgInitializeLocalDataTeamRepos_no_fault fuel client s teamID) as Hno.
    destruct (pgInitializeLocalDataTeamRepos fuel client s teamID) as [e s1|s1|s1|];
      cbn in Hpanic; try discriminate Hpanic.
    + destruct (pgReposByTeamIdAndRepoName s1 !! teamID) as [m|];
        [destruct (m !! repoName)|]; discriminate Hpanic.
    + apply (Hno s1); [rewrite Hmutex; discriminate|reflexivity].
  - intros Hnil. exists s. apply pgGetRepoByTeamIDAndRepoName_nil, Hnil.
Qed.

(** X1. In any state whatever, the team lookups never fault, and the
    children lookup faults exactly when the map of mutexes has no entry for
    the team: nothing else in the file can dereference a nil pointer or
    unlock an unlocked mutex. *)
Theorem lookups_fault_only_on_unregistered_team :
  (forall fuel client s id s', pgGetTeamByTeamId fuel client s id <> Panicked s') /\
  (forall fuel client s slug s', pgGetTeamByTeamSlug fuel client s slug <> Panicked s') /\
  (forall fuel client s teamID repoName,
      (exists s', pgGetRepoByTeamIDAndRepoName fuel client s teamID repoName = Panicked s')
      <-> pgMutexInitializeLocalDataTeamRepos s !! teamID = None).
Proof.
  split; [|split].
  - intros fuel client s id s'. unfold pgGetTeamByTeamId.
    pose proof (pgInitializeLocalDataTeams_no_fault fuel client s) as Hno.
    destruct (pgInitializeLocalDataTeams fuel client s) as [e s1|s1|s1|]; cbn.
    + destruct (pgTeamsByTeamId s1 !! id); discriminate.
    + discriminate.
    + destruct (Hno s1 eq_refl).
    + discriminate.
  - intros fuel client s slug s'. unfold pgGetTeamByTeamSlug.
    pose proof (pgInitializeLocalDataTeams_no_fault fuel client s) as Hno.
    destruct (pgInitializeLocalDataTeams fuel client s) as [e s1|s1|s1|]; cbn.
    + destruct (pgTeamsByTeamSlug s1 !! slug); discriminate.
    + discriminate.
    + destruct (Hno s1 eq_refl).
    + discriminate.
  - apply pgGetRepoByTeamIDAndRepoName_faults_iff.
Qed.

(** ** Entities listed more than once *)

Lemma index_by_lookup_last {K A : Type} `{Countable K} (key : A -> K)
    (l1 : list A) (x : A) (l2 : list A) (m : gmap K A) :
  key x ∉ map key l2 ->
  index_by key (l1 ++ x :: l2) m !! key x = Some x.
Proof.
  intros Hlast. rewrite index_by_app, index_by_cons, index_by_lookup_notin by exact Hlast.
  apply lookup_insert_eq.
Qed.

(** X2. After a teams load whose pagination ended by a short page, with the
    fetched teams in the order received: a team after which no team with the
    same identifier was listed is the one [pgGetTeamByTeamId] returns for
    that identifier, with a nil error; and a team after which no team with
    the same slug was listed is the one [pgGetTeamByTeamSlug] returns for
    that slug. Later entries overwrite earlier ones, key by key, in each
    index on its own. *)
Theorem last_listed_team_is_served
    (client : Client) (s : State) (k fuel : nat) (l1 : list Team) (T : Team)
    (l2 : list Team) :
  pgMutexInitializeLocalDataTeams s = Unlocked ->
  pgDoneGetAllTeams s = false ->
  endsShort (teamsListing client (pgApiCalls s) 1 k) = true ->
  Z.of_nat k < 2 ^ 63 -> (k <= fuel)%nat ->
  fetched (teamsListing client (pgApiCalls s) 1 k) = l1 ++ T :: l2 ->
  exists s',
    pgInitializeLocalDataTeams fuel client s = Returned None s' /\
    (Team_GetID T ∉ map Team_GetID l2 ->
     forall fuel' client',
       pgGetTeamByTeamId fuel' client' s' (Team_GetID T)
       = Returned (Some T, teams_resp (pgGetAllTeamsResponse s'), None) s') /\
    (Team_GetSlug T ∉ map Team_GetSlug l2 ->
     forall fuel' client',
       pgGetTeamByTeamSlug fuel' client' s' (Team_GetSlug T)
       = Returned (Some T, teams_resp (pgGetAllTeamsResponse s'), None) s').
Proof.
  intros Hmutex Hdone Hends Hk Hfuel Hfetched.
  set (answers := teamsListing client (pgApiCalls s) 1 k) in *.
  exists (teamsLoadedState answers s).
  pose proof (pgInitializeLocalDataTeams_succeeds fuel client s k
                Hmutex Hdone Hends Hk Hfuel) as Hret.
  fold answers in Hret.
  destruct (pgInitializeLocalDataTeams_nil _ _ _ _ Hret) as (_ & _ & He).
  split; [exact Hret|]. split.
  - intros Hlast fuel' client'.
    rewrite (pgGetTeamByTeamId_after _ _ _ _ _ _
               (pgInitializeLocalDataTeams_again _ _ _ _ fuel' client' Hret)).
    rewrite teamsLoadedState_byId, Hfetched, index_by_lookup_last by exact Hlast.
    rewrite He. reflexivity.
  - intros Hlast fuel' client'.
    rewrite (pgGetTeamByTeamSlug_after _ _ _ _ _ _
               (pgInitializeLocalDataTeams_again _ _ _ _ fuel' client' Hret)).
    rewrite teamsLoadedState_bySlug, Hfetched, index_by_lookup_last by exact Hlast.
    rewrite He. reflexivity.
Qed.

Lemma last_listed_team_is_served_witness :
  exists s',
    pgInitializeLocalDataTeams 1 MoreFixtures.listedTwiceClient pgInitialState
    = Returned None s' /\
    (7 ∉ map Team_GetID [] ->
     forall fuel' client',
       pgGetTeamByTeamId fuel' client' s' 7
       = Returned (Some MoreFixtures.renamed, teams_resp (pgGetAllTeamsResponse s'), None)
           s') /\
    ("platform"%string ∉ map Team_GetSlug [] ->
     forall fuel' client',
       pgGetTeamByTeamSlug fuel' client' s' "platform"
       = Returned (Some MoreFixtures.renamed, teams_resp (pgGetAllTeamsResponse s'), None)
           s').
Proof.
  apply (last_listed_team_is_served MoreFixtures.listedTwiceClient pgInitialState 1 1
           [Fixtures.team 7; Fixtures.team 8] MoreFixtures.renamed []).
  - reflexivity.
  - reflexivity.
  - vm_compute. reflexivity.
  - lia.
  - lia.
  - reflexivity.
Defined.

Lemma reposLoadedState_index teamID answers s :
  pgReposByTeamIdAndRepoName (reposLoadedState teamID answers s) !! teamID
  = Some (index_by Repository_GetName (fetched answers) ∅).
Proof. unfold reposLoadedState. cbn. apply lookup_insert_eq. Qed.

(** X3. After a children load whose pagination ended by a short page, in
    the state it leaves: a lookup by a name returns a repository only if it
    was fetched for that team and has that name, and for a fetched
    repository after which none of the same name was listed, the lookup by
    its name returns that very repository, with the response of the last
    page and a nil error. *)
Theorem last_listed_repository_is_served
    (client : Client) (s : State) (teamID : Z) (k fuel : nat) :
  pgMutexInitializeLocalDataTeamRepos s !! teamID = Some Unlocked ->
  default false (pgDoneGetAllTeamRepos s !! teamID) = false ->
  endsShort (reposListing client (pgApiCalls s) teamID 1 k) = true ->
  Z.of_nat k < 2 ^ 63 -> (k <= fuel)%nat ->
  exists s',
    pgInitializeLocalDataTeamRepos fuel client s teamID = Returned None s' /\
    (forall l1 R l2,
        fetched (reposListing client (pgApiCalls s) teamID 1 k) = l1 ++ R :: l2 ->
        Repository_GetName R ∉ map Repository_GetName l2 ->
        forall fuel' client',
          pgGetRepoByTeamIDAndRepoName fuel' client' s' teamID (Repository_GetName R)
          = Returned
              (Some R,
               answer_resp (lastAnswer (reposListing client (pgApiCalls s) teamID 1 k)),
               None) s') /\
    (forall fuel' client' repoName R resp e s2,
        pgGetRepoByTeamIDAndRepoName fuel' client' s' teamID repoName
        = Returned (Some R, resp, e) s2 ->
        R ∈ fetched (reposListing client (pgApiCalls s) teamID 1 k) /\
        Repository_GetName R = repoName).
Proof.
  intros Hmutex Hdone Hends Hk Hfuel.
  set (answers := reposListing client (pgApiCalls s) teamID 1 k) in *.
  exists (reposLoadedState teamID answers s).
  pose proof (pgInitializeLocalDataTeamRepos_succeeds fuel client s teamID k
                Hmutex Hdone Hends Hk Hfuel) as Hret.
  fold answers in Hret.
  destruct (pgInitializeLocalDataTeamRepos_nil_error _ _ _ _ _ Hret) as (_ & _ & He).
  destruct (endsShort_inv answers Hends) as (fulls & a & Heq & _ & _).
  assert (Hresp : repos_resp (pgGetAllTeamReposResponse (reposLoadedState teamID answers s))
                  = answer_resp (lastAnswer answers)).
  { rewrite Heq, reposLoadedState_holder. unfold lastAnswer. rewrite last_last.
    reflexivity. }
  split; [exact Hret|]. split.
  - intros l1 R l2 Hfetched Hlast fuel' client'.
    rewrite (pgGetRepoByTeamIDAndRepoName_after _ _ _ _ _ _ _
               (pgInitializeLocalDataTeamRepos_again _ _ _ _ _ fuel' client' Hret)).
    rewrite reposLoadedState_index. cbn [mbind option_bind].
    rewrite Hfetched, index_by_lookup_last by exact Hlast.
    rewrite He, Hresp. reflexivity.
  - intros fuel' client' repoName R resp e s2.
    rewrite (pgGetRepoByTeamIDAndRepoName_after _ _ _ _ _ _ _
               (pgInitializeLocalDataTeamRepos_again _ _ _ _ _ fuel' client' Hret)).
    rewrite reposLoadedState_index. cbn [mbind option_bind].
    destruct (index_by Repository_GetName (fetched answers) ∅ !! repoName) as [R'|] eqn:HR;
      intros Hlook; [|discriminate Hlook].
    injection Hlook as -> _ _ _.
    apply index_by_lookup_inv in HR as [HR|HR]; [exact HR|].
    rewrite lookup_empty in HR. discriminate.
Qed.

Lemma last_listed_repository_is_served_witness :
  let s := teamsLoadedState MoreFixtures.listedTwice pgInitialState in
  exists s',
    pgInitializeLocalDataTeamRepos 1 MoreFixtures.listedTwiceClient s 7 = Returned None s' /\
    (forall l1 R l2,
        fetched (MoreFixtures.listedTwiceRepos 7) = l1 ++ R :: l2 ->
        Repository_GetName R ∉ map Repository_GetName l2 ->
        forall fuel' client',
          pgGetRepoByTeamIDAndRepoName fuel' client' s' 7 (Repository_GetName R)
          = Returned (Some R, Fixtures.response 0 1, None) s') /\
    (forall fuel' client' repoName R resp e s2,
        pgGetRepoByTeamIDAndRepoName fuel' client' s' 7 repoName
        = Returned (Some R, resp, e) s2 ->
        R ∈ fetched (MoreFixtures.listedTwiceRepos 7) /\
        Repository_GetName R = repoName).
Proof.
  intros s.
  apply (last_listed_repository_is_served MoreFixtures.listedTwiceClient s 7 1 1).
  - vm_compute. reflexivity.
  - vm_compute. reflexivity.
  - vm_compute. reflexivity.
  - lia.
  - lia.
Defined.

(** ** Which teams a teams load registers *)

Lemma teamsLoadedState_mutex answers s id :
  pgMutexInitializeLocalDataTeamRepos (teamsLoadedState answers s) !! id
  = if decide (id ∈ map Team_GetID (fetched answers)) then Some Unlocked
    else pgMutexInitializeLocalDataTeamRepos s !! id.
Proof. unfold teamsLoadedState. cbn. rewrite teamsAbsorbAll_mutex. reflexivity. Qed.

Lemma teamsLoadedState_done answers s id :
  pgDoneGetAllTeamRepos (teamsLoadedState answers s) !! id
  = if decide (id ∈ map Team_GetID (fetched answers)) then Some false
    else pgDoneGetAllTeamRepos s !! id.
Proof. unfold teamsLoadedState. cbn. rewrite teamsAbsorbAll_done. reflexivity. Qed.

(** X4. A teams load whose pagination ends by a short page, in a process
    that has registered no team yet, registers exactly the identifiers of the
    fetched teams, each with a free mutex and a cleared flag; so in the state
    it leaves the children lookup faults for an identifier exactly when no
    fetched team has it. *)
Theorem teams_load_registers_the_fetched_teams
    (client : Client) (s : State) (k fuel : nat) :
  pgMutexInitializeLocalDataTeams s = Unlocked ->
  pgDoneGetAllTeams s = false ->
  pgMutexInitializeLocalDataTeamRepos s = ∅ ->
  endsShort (teamsListing client (pgApiCalls s) 1 k) = true ->
  Z.of_nat k < 2 ^ 63 -> (k <= fuel)%nat ->
  exists s',
    pgInitializeLocalDataTeams fuel client s = Returned None s' /\
    (forall id,
        id ∈ map Team_GetID (fetched (teamsListing client (pgApiCalls s) 1 k)) ->
        pgMutexInitializeLocalDataTeamRepos s' !! id = Some Unlocked /\
        pgDoneGetAllTeamRepos s' !! id = Some false) /\
    (forall id,
        id ∉ map Team_GetID (fetched (teamsListing client (pgApiCalls s) 1 k)) ->
        pgMutexInitializeLocalDataTeamRepos s' !! id = None) /\
    (forall fuel' client' id repoName,
        (exists s2,
            pgGetRepoByTeamIDAndRepoName fuel' client' s' id repoName = Panicked s2)
        <-> id ∉ map Team_GetID (fetched (teamsListing client (pgApiCalls s) 1 k))).
Proof.
  intros Hmutex Hdone Hnone Hends Hk Hfuel.
  set (answers := teamsListing client (pgApiCalls s) 1 k) in *.
  exists (teamsLoadedState answers s).
  split; [apply pgInitializeLocalDataTeams_succeeds; assumption|].
  assert (Hin : forall id, id ∈ map Team_GetID (fetched answers) ->
            pgMutexInitializeLocalDataTeamRepos (teamsLoadedState answers s) !! id
            = Some Unlocked /\
            pgDoneGetAllTeamRepos (teamsLoadedState answers s) !! id = Some false).
  { intros id Hid. rewrite teamsLoadedState_mutex, teamsLoadedState_done.
    rewrite !decide_True by exact Hid. auto. }
  assert (Hout : forall id, id ∉ map Team_GetID (fetched answers) ->
            pgMutexInitializeLocalDataTeamRepos (teamsLoadedState answers s) !! id = None).
  { intros id Hid. rewrite teamsLoadedState_mutex, decide_False by exact Hid.
    rewrite Hnone. apply lookup_empty. }
  split; [exact Hin|]. split; [exact Hout|].
  intros fuel' client' id repoName.
  rewrite pgGetRepoByTeamIDAndRepoName_faults_iff. split.
  - intros Hnil Hid. destruct (Hin id Hid) as [Hm _]. congruence.
  - apply Hout.
Qed.

Lemma teams_load_registers_the_fetched_teams_witness :
  exists s',
    pgInitializeLocalDataTeams 1 Fixtures.smallClient pgInitialState = Returned None s' /\
    (forall id,
        id ∈ map Team_GetID (fetched Fixtures.smallOrg) ->
        pgMutexInitializeLocalDataTeamRepos s' !! id = Some Unlocked /\
        pgDoneGetAllTeamRepos s' !! id = Some false) /\
    (forall id,
        id ∉ map Team_GetID (fetched Fixtures.smallOrg) ->
        pgMutexInitializeLocalDataTeamRepos s' !! id = None) /\
    (forall fuel' client' id repoName,
        (exists s2,
            pgGetRepoByTeamIDAndRepoName fuel' client' s' id repoName = Panicked s2)
        <-> id ∉ map Team_GetID (fetched Fixtures.smallOrg)).
Proof.
  apply (teams_load_registers_the_fetched_teams Fixtures.smallClient pgInitialState 1 1).
  - reflexivity.
  - reflexivity.
  - reflexivity.
  - vm_compute. reflexivity.
  - lia.
  - lia.
Defined.

(** ** A team that was found can be asked for its children *)

Lemma indexedTeamsRegistered_step s s' :
  indexedTeamsRegistered s -> pgStep s s' -> indexedTeamsRegistered s'.
Proof.
  intros Hinv Hstep.
  apply pgStep_load in Hstep as [(fuel & client & e & Hret)|(fuel & client & A & e & Hret)].
  - apply (pgInitializeLocalDataTeams_preserves indexedTeamsRegistered
             fuel client s e s'); [| | | |exact Hret|exact Hinv].
    + intros ? ? ? H; exact H.
    + intros x t H id. cbn.
      destruct (decide (Team_GetID t = id)) as [->|Hne].
      * rewrite !lookup_insert_eq. eauto.
      * rewrite !lookup_insert_ne by exact Hne. apply H.
    + intros ? ? H; exact H.
    + intros ? ? H; exact H.
  - pose proof (pgInitializeLocalDataTeamRepos_returned _ _ _ _ _ _ Hret)
      as (Hmutex & _ & (_ & HbyId & _) & Hcases).
    intros id. rewrite HbyId. intros Hid. destruct (Hinv id Hid) as [Hm Hd].
    destruct Hcases as [[_ ->]|[(_ & _ & _ & Hdone' & Hmutex')|(_ & _ & _ & Hdone' & Hmutex')]];
      [auto| |]; rewrite Hdone', Hmutex'.
    + split; [exact Hm|]. rewrite lookup_insert_is_Some. destruct (decide (A = id)); auto.
    + split; [|exact Hd]. rewrite lookup_insert_is_Some. destruct (decide (A = id)); auto.
Qed.

Lemma indexedTeamsRegistered_reachable s : pgReachable s -> indexedTeamsRegistered s.
Proof.
  intros Hreach.
  assert (Hinit : indexedTeamsRegistered pgInitialState).
  { intros id [x Hx]. simpl in Hx. rewrite lookup_empty in Hx. discriminate. }
  unfold pgReachable in Hreach.
  induction Hreach as [|s0 s1 s2 Hstep _ IH]; [exact Hinit|].
  apply IH. eapply indexedTeamsRegistered_step; eassumption.
Qed.

(** X5. In a sequential run, a team that [pgGetTeamByTeamId] has found can
    be passed to [pgGetRepoByTeamIDAndRepoName] without a fault: whenever a
    team is in the by-identifier index, its mutex and its flag are
    registered. *)
Theorem found_team_has_registered_mutex
    (s : State) (fuel : nat) (client : Client) (id : Z) (T : Team)
    (resp : option Response) (e : option error) (s' : State) :
  pgReachable s ->
  pgGetTeamByTeamId fuel client s id = Returned (Some T, resp, e) s' ->
  is_Some (pgMutexInitializeLocalDataTeamRepos s' !! id) /\
  is_Some (pgDoneGetAllTeamRepos s' !! id) /\
  forall fuel' client' repoName s2,
    pgGetRepoByTeamIDAndRepoName fuel' client' s' id repoName <> Panicked s2.
Proof.
  intros Hreach Hlook.
  assert (Hreach' : pgReachable s').
  { eapply rtc_r; [exact Hreach|]. exact (step_GetTeamByTeamId _ _ _ _ _ _ Hlook). }
  assert (Hfound : is_Some (pgTeamsByTeamId s' !! id)).
  { unfold pgGetTeamByTeamId in Hlook.
    apply and_then_returned in Hlook as (e0 & s1 & _ & Hk).
    destruct (pgTeamsByTeamId s1 !! id) as [t|] eqn:Ht; [|discriminate Hk].
    injection Hk as _ _ _ <-. eauto. }
  destruct (indexedTeamsRegistered_reachable s' Hreach' id Hfound) as [Hm Hd].
  split; [exact Hm|]. split; [exact Hd|].
  intros fuel' client' repoName s2 Hpanic.
  assert (Hnil : pgMutexInitializeLocalDataTeamRepos s' !! id = None)
    by (apply (pgGetRepoByTeamIDAndRepoName_faults_iff fuel' client' s' id repoName); eauto).
  rewrite Hnil in Hm. destruct Hm as [x Hx]. discriminate.
Qed.

Lemma found_team_has_registered_mutex_witness :
  is_Some (pgMutexInitializeLocalDataTeamRepos Fixtures.smallLoaded !! 2) /\
  is_Some (pgDoneGetAllTeamRepos Fixtures.smallLoaded !! 2) /\
  forall fuel' client' repoName s2,
    pgGetRepoByTeamIDAndRepoName fuel' client' Fixtures.smallLoaded 2 repoName
    <> Panicked s2.
Proof.
  apply (found_team_has_registered_mutex pgInitialState 1 Fixtures.smallClient 2
           (Fixtures.team 2) (Fixtures.response 0 1) None Fixtures.smallLoaded).
  - apply rtc_refl.
  - vm_compute. reflexivity.
Defined.

(** ** What a returning children load keeps *)

(** Any property of the local map that the empty map has and an indexed
    repository keeps holds of the map the page loop hands over. *)
Lemma pgTeamReposLoop_map (Q : gmap string Repository -> Prop) client teamID :
  (forall m r, Q m -> Q (pgIndexRepo m r)) ->
  forall fuel page m s, Q m ->
  match pgTeamReposLoop fuel client teamID page m s with
  | LoopBreak m' _ => Q m'
  | _ => True
  end.
Proof.
  intros Hindex.
  assert (Hfold : forall l m, Q m -> Q (index_by Repository_GetName l m)).
  { induction l as [|r l IHl]; intros m Hm; [exact Hm|]. apply IHl, Hindex, Hm. }
  induction fuel as [|fuel IH]; intros page m s Hm; [exact I|].
  set (a := reposAnswer client (pgApiCalls s) teamID page).
  destruct (answer_err a) as [e|] eqn:Herr.
  - rewrite pgTeamReposLoop_failed
      by (unfold pageFailed; fold a; rewrite Herr; reflexivity).
    exact I.
  - destruct (length (answer_items a) <? 100)%nat eqn:Hlen.
    + rewrite pgTeamReposLoop_short
        by (unfold pageShort; fold a; rewrite Herr; exact Hlen).
      apply Hfold, Hm.
    + rewrite pgTeamReposLoop_full
        by (unfold pageFull; fold a; rewrite Herr, Hlen; reflexivity).
      apply IH, Hfold, Hm.
Qed.

(** A returning children load leaves the index of every other team as it
    was, and stores for its own team, if anything, a map built from the empty
    map by indexing repositories. *)
Lemma pgInitializeLocalDataTeamRepos_index (Q : gmap string Repository -> Prop)
    fuel client s teamID e s' :
  Q ∅ -> (forall m r, Q m -> Q (pgIndexRepo m r)) ->
  pgInitializeLocalDataTeamRepos fuel client s teamID = Returned e s' ->
  pgReposByTeamIdAndRepoName s' = pgReposByTeamIdAndRepoName s
  \/ exists m, Q m /\
       pgReposByTeamIdAndRepoName s' = <[teamID := m]> (pgReposByTeamIdAndRepoName s).
Proof.
  intros Hempty Hindex. unfold pgInitializeLocalDataTeamRepos.
  destruct (pgMutexInitializeLocalDataTeamRepos s !! teamID) as [[]|]; [|discriminate..].
  fold (reposLockedState teamID s).
  assert (Hunlock : forall x v x',
    pgTeamReposUnlockReturn teamID x = Returned v x' ->
    pgReposByTeamIdAndRepoName x' = pgReposByTeamIdAndRepoName x).
  { intros x v x'. unfold pgTeamReposUnlockReturn.
    destruct (pgMutexInitializeLocalDataTeamRepos x !! teamID) as [[]|]; [discriminate| |discriminate].
    intros Heq. injection Heq as _ <-. reflexivity. }
  destruct (negb _).
  - pose proof (pgTeamReposLoop_exit client teamID fuel 1 ∅ (reposLockedState teamID s))
      as Hexit.
    pose proof (pgTeamReposLoop_map Q client teamID Hindex fuel 1 ∅
                  (reposLockedState teamID s) Hempty) as Hmap.
    destruct (pgTeamReposLoop _ _ _ _ _ _) as [m s2|e2 s2|]; [| |discriminate].
    + destruct Hexit as [(_ & _ & _ & Hidx & _) _].
      intros Hret. apply Hunlock in Hret. right. exists m. split; [exact Hmap|].
      rewrite Hret. cbn. rewrite Hidx. reflexivity.
    + destruct Hexit as [(_ & _ & _ & Hidx & _) _].
      intros Hret. injection Hret as _ <-. left. exact Hidx.
  - intros Hret. apply Hunlock in Hret. left. exact Hret.
Qed.

(** ** The key of what a lookup returns *)

Lemma indexKeysSound_step s s' : indexKeysSound s -> pgStep s s' -> indexKeysSound s'.
Proof.
  intros Hinv Hstep.
  apply pgStep_load in Hstep as [(fuel & client & e & Hret)|(fuel & client & A & e & Hret)].
  - apply (pgInitializeLocalDataTeams_preserves indexKeysSound
             fuel client s e s'); [| | | |exact Hret|exact Hinv].
    + intros ? ? ? H; exact H.
    + intros x t (HbyId & HbySlug & Hrepos). split; [|split; [|exact Hrepos]].
      * intros id y. cbn.
        destruct (decide (Team_GetID t = id)) as [<-|Hne].
        -- rewrite lookup_insert_eq. intros Heq. injection Heq as <-. reflexivity.
        -- rewrite lookup_insert_ne by exact Hne. apply HbyId.
      * intros slug y. cbn.
        destruct (decide (Team_GetSlug t = slug)) as [<-|Hne].
        -- rewrite lookup_insert_eq. intros Heq. injection Heq as <-. reflexivity.
        -- rewrite lookup_insert_ne by exact Hne. apply HbySlug.
    + intros ? ? H; exact H.
    + intros ? ? H; exact H.
  - destruct Hinv as (HbyId & HbySlug & Hrepos).
    pose proof (pgInitializeLocalDataTeamRepos_returned _ _ _ _ _ _ Hret)
      as (_ & _ & (_ & Hid' & Hslug' & _) & _).
    split; [rewrite Hid'; exact HbyId|]. split; [rewrite Hslug'; exact HbySlug|].
    destruct (pgInitializeLocalDataTeamRepos_index (keysSound Repository_GetName)
                fuel client s A e s') as [Hsame|(m & Hm & Hnew)]; [| |exact Hret| |].
    + intros name r Hr. rewrite lookup_empty in Hr. discriminate.
    + intros m r Hm name y. unfold pgIndexRepo.
      destruct (decide (Repository_GetName r = name)) as [<-|Hne].
      * rewrite lookup_insert_eq. intros Heq. injection Heq as <-. reflexivity.
      * rewrite lookup_insert_ne by exact Hne. apply Hm.
    + rewrite Hsame. exact Hrepos.
    + rewrite Hnew. intros teamID m'.
      destruct (decide (A = teamID)) as [<-|Hne].
      * rewrite lookup_insert_eq. intros Heq. injection Heq as <-. exact Hm.
      * rewrite lookup_insert_ne by exact Hne. apply Hrepos.
Qed.

Lemma indexKeysSound_reachable s : pgReachable s -> indexKeysSound s.
Proof.
  intros Hreach.
  assert (Hinit : indexKeysSound pgInitialState).
  { split; [|split]; intros k x; simpl; rewrite lookup_empty; discriminate. }
  unfold pgReachable in Hreach.
  induction Hreach as [|s0 s1 s2 Hstep _ IH]; [exact Hinit|].
  apply IH. eapply indexKeysSound_step; eassumption.
Qed.

(** X6. In a sequential run a lookup never returns an entity under a key
    that is not its own: a team returned by [pgGetTeamByTeamId] has the
    identifier asked for, a team returned by [pgGetTeamByTeamSlug] the slug
    asked for, and a repository returned by [pgGetRepoByTeamIDAndRepoName]
    the name asked for - whatever was listed, loaded or failed before. *)
Theorem lookup_returns_entity_with_requested_key (s : State) :
  pgReachable s ->
  (forall fuel client id T resp e s',
      pgGetTeamByTeamId fuel client s id = Returned (Some T, resp, e) s' ->
      Team_GetID T = id) /\
  (forall fuel client slug T resp e s',
      pgGetTeamByTeamSlug fuel client s slug = Returned (Some T, resp, e) s' ->
      Team_GetSlug T = slug) /\
  (forall fuel client teamID repoName R resp e s',
      pgGetRepoByTeamIDAndRepoName fuel client s teamID repoName
      = Returned (Some R, resp, e) s' ->
      Repository_GetName R = repoName).
Proof.
  intros Hreach. split; [|split].
  - intros fuel client id T resp e s' Hlook.
    assert (Hsound : indexKeysSound s').
    { apply indexKeysSound_reachable. eapply rtc_r; [exact Hreach|].
      exact (step_GetTeamByTeamId _ _ _ _ _ _ Hlook). }
    unfold pgGetTeamByTeamId in Hlook.
    apply and_then_returned in Hlook as (e0 & s1 & _ & Hk).
    destruct (pgTeamsByTeamId s1 !! id) as [t|] eqn:Ht; [|discriminate Hk].
    injection Hk as -> _ _ <-. apply Hsound, Ht.
  - intros fuel client slug T resp e s' Hlook.
    assert (Hsound : indexKeysSound s').
    { apply indexKeysSound_reachable. eapply rtc_r; [exact Hreach|].
      exact (step_GetTeamByTeamSlug _ _ _ _ _ _ Hlook). }
    unfold pgGetTeamByTeamSlug in Hlook.
    apply and_then_returned in Hlook as (e0 & s1 & _ & Hk).
    destruct (pgTeamsByTeamSlug s1 !! slug) as [t|] eqn:Ht; [|discriminate Hk].
    injection Hk as -> _ _ <-. apply Hsound, Ht.
  - intros fuel client teamID repoName R resp e s' Hlook.
    assert (Hsound : indexKeysSound s').
    { apply indexKeysSound_reachable. eapply rtc_r; [exact Hreach|].
      exact (step_GetRepoByTeamIDAndRepoName _ _ _ _ _ _ _ Hlook). }
    unfold pgGetRepoByTeamIDAndRepoName in Hlook.
    apply and_then_returned in Hlook as (e0 & s1 & _ & Hk).
    destruct (pgReposByTeamIdAndRepoName s1 !! teamID) as [m|] eqn:Hm; [|discriminate Hk].
    destruct (m !! repoName) as [r|] eqn:Hr; [|discriminate Hk].
    injection Hk as -> _ _ <-.
    destruct Hsound as (_ & _ & Hrepos). exact (Hrepos teamID m Hm repoName R Hr).
Qed.

Lemma lookup_returns_entity_with_requested_key_witness :
  (forall fuel client id T resp e s',
      pgGetTeamByTeamId fuel client Fixtures.team4Failed id
      = Returned (Some T, resp, e) s' ->
      Team_GetID T = id) /\
  (forall fuel client slug T resp e s',
      pgGetTeamByTeamSlug fuel client Fixtures.team4Failed slug
      = Returned (Some T, resp, e) s' ->
      Team_GetSlug T = slug) /\
  (forall fuel client teamID repoName R resp e s',
      pgGetRepoByTeamIDAndRepoName fuel client Fixtures.team4Failed teamID repoName
      = Returned (Some R, resp, e) s' ->
      Repository_GetName R = repoName).
Proof.
  apply (lookup_returns_entity_with_requested_key Fixtures.team4Failed).
  apply rtc_l with Fixtures.smallLoaded; [exact smallLoaded_step|].
  apply rtc_l with Fixtures.team1Loaded; [exact team1Loaded_step|].
  apply rtc_once, team4Failed_step.
Defined.

(** ** Indices are written once *)

Lemma teams_indices_step s s' :
  pgDoneGetAllTeams s = true -> pgMutexInitializeLocalDataTeams s = Unlocked ->
  pgStep s s' ->
  pgTeamsByTeamId s' = pgTeamsByTeamId s /\ pgTeamsByTeamSlug s' = pgTeamsByTeamSlug s.
Proof.
  intros Hdone Hmutex Hstep.
  apply pgStep_load in Hstep as [(fuel & client & e & Hret)|(fuel & client & A & e & Hret)].
  - rewrite pgInitializeLocalDataTeams_done in Hret by assumption.
    injection Hret as _ <-. auto.
  - pose proof (pgInitializeLocalDataTeamRepos_returned _ _ _ _ _ _ Hret)
      as (_ & _ & (_ & Hid & Hslug & _) & _).
    auto.
Qed.

Lemma teams_indices_steps s s' :
  pgDoneGetAllTeams s = true -> pgMutexInitializeLocalDataTeams s = Unlocked ->
  rtc pgStep s s' ->
  pgTeamsByTeamId s' = pgTeamsByTeamId s /\ pgTeamsByTeamSlug s' = pgTeamsByTeamSlug s.
Proof.
  intros Hdone Hmutex Hsteps. induction Hsteps as [|s s1 s' Hstep _ IH]; [auto|].
  destruct (teams_loaded_step s s1 Hdone Hmutex Hstep) as (Hd1 & Hm1 & _).
  destruct (teams_indices_step s s1 Hdone Hmutex Hstep) as [Hid1 Hslug1].
  destruct (IH Hd1 Hm1) as [Hid Hslug]. rewrite <- Hid1, <- Hslug1. auto.
Qed.

(** X7. Once the teams load has completed (flag set, mutex free), the team
    lookups answer the same for the rest of a sequential run: whatever calls
    return in between - children loads that succeed or fail included - a
    later [pgGetTeamByTeamId] or [pgGetTeamByTeamSlug] returns the same team,
    response and error as at completion, and makes no request. *)
Theorem team_lookups_are_stable_after_load (s s2 : State) :
  pgDoneGetAllTeams s = true -> pgMutexInitializeLocalDataTeams s = Unlocked ->
  rtc pgStep s s2 ->
  (forall id fuel client v s',
      pgGetTeamByTeamId fuel client s id = Returned v s' ->
      forall fuel2 client2, pgGetTeamByTeamId fuel2 client2 s2 id = Returned v s2) /\
  (forall slug fuel client v s',
      pgGetTeamByTeamSlug fuel client s slug = Returned v s' ->
      forall fuel2 client2, pgGetTeamByTeamSlug fuel2 client2 s2 slug = Returned v s2).
Proof.
  intros Hdone Hmutex Hsteps.
  destruct (teams_loaded_steps s s2 Hdone Hmutex Hsteps) as (Hd2 & Hm2 & Hr2).
  destruct (teams_indices_steps s s2 Hdone Hmutex Hsteps) as [Hid2 Hslug2].
  split.
  - intros id fuel client v s' Hlook fuel2 client2.
    rewrite (pgGetTeamByTeamId_after _ _ _ _ _ _
               (pgInitializeLocalDataTeams_done fuel client s Hmutex Hdone)) in Hlook.
    rewrite (pgGetTeamByTeamId_after _ _ _ _ _ _
               (pgInitializeLocalDataTeams_done fuel2 client2 s2 Hm2 Hd2)).
    rewrite Hid2, Hr2.
    destruct (pgTeamsByTeamId s !! id); injection Hlook as <- _; reflexivity.
  - intros slug fuel client v s' Hlook fuel2 client2.
    rewrite (pgGetTeamByTeamSlug_after _ _ _ _ _ _
               (pgInitializeLocalDataTeams_done fuel client s Hmutex Hdone)) in Hlook.
    rewrite (pgGetTeamByTeamSlug_after _ _ _ _ _ _
               (pgInitializeLocalDataTeams_done fuel2 client2 s2 Hm2 Hd2)).
    rewrite Hslug2, Hr2.
    destruct (pgTeamsByTeamSlug s !! slug); injection Hlook as <- _; reflexivity.
Qed.

Lemma team_lookups_are_stable_after_load_witness :
  (forall id fuel client v s',
      pgGetTeamByTeamId fuel client Fixtures.smallLoaded id = Returned v s' ->
      forall fuel2 client2,
        pgGetTeamByTeamId fuel2 client2 Fixtures.team4Failed id
        = Returned v Fixtures.team4Failed) /\
  (forall slug fuel client v s',
      pgGetTeamByTeamSlug fuel client Fixtures.smallLoaded slug = Returned v s' ->
      forall fuel2 client2,
        pgGetTeamByTeamSlug fuel2 client2 Fixtures.team4Failed slug
        = Returned v Fixtures.team4Failed).
Proof.
  apply (team_lookups_are_stable_after_load Fixtures.smallLoaded Fixtures.team4Failed).
  - reflexivity.
  - reflexivity.
  - apply rtc_l with Fixtures.team1Loaded; [exact team1Loaded_step|].
    apply rtc_once, team4Failed_step.
Defined.

(** X8. Once the children of a team are loaded, its index never changes for
    the rest of a sequential run: whatever calls return in between, a later
    [pgGetRepoByTeamIDAndRepoName] for that team makes no request and finds
    exactly what the index held at completion; only the response and the
    error it returns with it are those of the shared holder at that time. *)
Theorem children_index_is_stable_after_load (s s2 : State) (teamID : Z) :
  pgReachable s ->
  pgDoneGetAllTeamRepos s !! teamID = Some true ->
  pgMutexInitializeLocalDataTeamRepos s !! teamID = Some Unlocked ->
  rtc pgStep s s2 ->
  pgReposByTeamIdAndRepoName s2 !! teamID = pgReposByTeamIdAndRepoName s !! teamID /\
  forall fuel client repoName,
    pgGetRepoByTeamIDAndRepoName fuel client s2 teamID repoName
    = Returned
        (pgReposByTeamIdAndRepoName s !! teamID ≫= (.!! repoName),
         repos_resp (pgGetAllTeamReposResponse s2),
         match pgReposByTeamIdAndRepoName s !! teamID ≫= (.!! repoName) with
         | Some _ => repos_err (pgGetAllTeamReposResponse s2)
         | None => pgOrNotFound (repos_err (pgGetAllTeamReposResponse s2))
         end) s2.
Proof.
  intros Hreach Hdone Hmutex Hsteps.
  destruct (repos_loaded_steps s s2 teamID (pgReachable_invariant s Hreach)
              Hdone Hmutex Hsteps) as (Hd2 & Hm2 & Hidx).
  split; [exact Hidx|].
  intros fuel client repoName.
  rewrite (pgGetRepoByTeamIDAndRepoName_after _ _ _ _ _ _ _
             (pgInitializeLocalDataTeamRepos_done fuel client s2 teamID Hm2 Hd2)).
  rewrite Hidx.
  destruct (pgReposByTeamIdAndRepoName s !! teamID ≫= (.!! repoName)); reflexivity.
Qed.

Lemma children_index_is_stable_after_load_witness :
  pgReposByTeamIdAndRepoName Fixtures.team4Failed !! 1
  = pgReposByTeamIdAndRepoName Fixtures.team1Loaded !! 1 /\
  forall fuel client repoName,
    pgGetRepoByTeamIDAndRepoName fuel client Fixtures.team4Failed 1 repoName
    = Returned
        (pgReposByTeamIdAndRepoName Fixtures.team1Loaded !! 1 ≫= (.!! repoName),
         repos_resp (pgGetAllTeamReposResponse Fixtures.team4Failed),
         match pgReposByTeamIdAndRepoName Fixtures.team1Loaded !! 1 ≫= (.!! repoName) with
         | Some _ => repos_err (pgGetAllTeamReposResponse Fixtures.team4Failed)
         | None => pgOrNotFound (repos_err (pgGetAllTeamReposResponse Fixtures.team4Failed))
         end) Fixtures.team4Failed.
Proof.
  apply (children_index_is_stable_after_load Fixtures.team1Loaded Fixtures.team4Failed 1).
  - apply rtc_l with Fixtures.smallLoaded; [exact smallLoaded_step|].
    apply rtc_once, team1Loaded_step.
  - vm_compute. reflexivity.
  - vm_compute. reflexivity.
  - apply rtc_once, team4Failed_step.
Defined.

(** ** A children load that fails *)

(** X9. Unlike the teams load, a children load keeps the repositories of
    the pages it got in a local map that it stores only at the end: when, in
    a sequential run, the pagination for a team whose flag is unset fails on
    page [k], the lookup that triggered it returns no repository, whatever
    the name, with the response and the error of the failed page, and the
    team still has no index and an unset flag. *)
Theorem failed_children_load_serves_nothing
    (client : Client) (s : State) (teamID : Z) (k fuel : nat) :
  pgReachable s ->
  pgMutexInitializeLocalDataTeamRepos s !! teamID = Some Unlocked ->
  default false (pgDoneGetAllTeamRepos s !! teamID) = false ->
  endsFailed (reposListing client (pgApiCalls s) teamID 1 k) = true ->
  Z.of_nat k < 2 ^ 63 -> (k <= fuel)%nat ->
  exists e s',
    answer_err (lastAnswer (reposListing client (pgApiCalls s) teamID 1 k)) = Some e /\
    pgReposByTeamIdAndRepoName s' !! teamID = None /\
    default false (pgDoneGetAllTeamRepos s' !! teamID) = false /\
    forall repoName,
      pgGetRepoByTeamIDAndRepoName fuel client s teamID repoName
      = Returned
          (None,
           answer_resp (lastAnswer (reposListing client (pgApiCalls s) teamID 1 k)),
           Some e) s'.
Proof.
  intros Hreach Hmutex Hdone Hends Hk Hfuel.
  pose proof (pgInitializeLocalDataTeamRepos_fails fuel client s teamID k
                Hmutex Hdone Hends Hk Hfuel) as Hret.
  set (answers := reposListing client (pgApiCalls s) teamID 1 k) in *.
  destruct (endsFailed_inv answers Hends) as (fulls & a & Heq & _ & Ha).
  assert (Hlast : lastAnswer answers = a)
    by (rewrite Heq; unfold lastAnswer; apply last_last).
  unfold pageFailed in Ha. destruct (answer_err a) as [e|] eqn:Herr; [|discriminate Ha].
  exists e, (reposFailedState teamID answers s).
  assert (Hnone : pgReposByTeamIdAndRepoName s !! teamID = None).
  { destruct (pgReachable_invariant s Hreach) as [HI3 _]. specialize (HI3 teamID).
    destruct (pgReposByTeamIdAndRepoName s !! teamID) as [m|]; [|reflexivity].
    destruct HI3 as [HI3 _]. rewrite HI3 in Hdone by eauto. discriminate. }
  assert (Hidx : pgReposByTeamIdAndRepoName (reposFailedState teamID answers s) !! teamID
                 = None).
  { unfold reposFailedState.
    destruct (reposStoreAll_frame teamID answers 1 (reposLockedState teamID s))
      as (_ & _ & _ & -> & _).
    exact Hnone. }
  split; [rewrite Hlast; exact Herr|]. split; [exact Hidx|]. split.
  { unfold reposFailedState.
    destruct (reposStoreAll_frame teamID answers 1 (reposLockedState teamID s))
      as (_ & _ & _ & _ & _ & _ & _ & ->).
    exact Hdone. }
  intros repoName.
  rewrite (pgGetRepoByTeamIDAndRepoName_after _ _ _ _ _ _ _ Hret), Hidx.
  cbn [mbind option_bind]. rewrite Heq at 1 2. rewrite reposFailedState_holder.
  cbn [repos_resp repos_err]. rewrite Hlast, Herr. reflexivity.
Qed.

Lemma failed_children_load_serves_nothing_witness :
  exists e s',
    Some Fixtures.timeout = Some e /\
    pgReposByTeamIdAndRepoName s' !! 3 = None /\
    default false (pgDoneGetAllTeamRepos s' !! 3) = false /\
    forall repoName,
      pgGetRepoByTeamIDAndRepoName 2 Fixtures.smallClient Fixtures.smallLoaded 3 repoName
      = Returned (None, Fixtures.response 0 0, Some e) s'.
Proof.
  apply (failed_children_load_serves_nothing Fixtures.smallClient Fixtures.smallLoaded 3 2 2).
  - apply rtc_once, smallLoaded_step.
  - vm_compute. reflexivity.
  - vm_compute. reflexivity.
  - vm_compute. reflexivity.
  - lia.
  - lia.
Defined.

(** ** Invariants of every sequential run *)

(** X10. Between any two calls of a sequential run, a team has a children
    index exactly when its completion flag is set; and as long as the teams
    flag is unset and the teams mutex free, no call has returned with any
    effect: the process is still in its initial state. *)
Theorem index_exists_iff_flag_set_in_every_run (s : State) :
  pgReachable s ->
  indexIffDone s /\
  (pgDoneGetAllTeams s = false -> pgMutexInitializeLocalDataTeams s = Unlocked ->
   s = pgInitialState).
Proof. intros Hreach. exact (pgReachable_invariant s Hreach). Qed.

Lemma index_exists_iff_flag_set_in_every_run_witness :
  indexIffDone Fixtures.team4Failed /\
  (pgDoneGetAllTeams Fixtures.team4Failed = false ->
   pgMutexInitializeLocalDataTeams Fixtures.team4Failed = Unlocked ->
   Fixtures.team4Failed = pgInitialState).
Proof.
  apply (index_exists_iff_flag_set_in_every_run Fixtures.team4Failed).
  apply rtc_l with Fixtures.smallLoaded; [exact smallLoaded_step|].
  apply rtc_l with Fixtures.team1Loaded; [exact team1Loaded_step|].
  apply rtc_once, team4Failed_step.
Defined.

(** ** Every collection is paginated once at most, failures included *)

Lemma pgTeamsLoop_calls client fuel : forall page s,
  match pgTeamsLoop fuel client page s with
  | LoopBreak _ s' | LoopReturn _ s' =>
    exists n, pgApiCalls s' = pgApiCalls s ++ teamsRequestsFrom page n
  | LoopOutOfFuel => True
  end.
Proof.
  induction fuel as [|fuel IH]; intros page s; [exact I|].
  set (a := teamsAnswer client (pgApiCalls s) page).
  destruct (answer_err a) as [e|] eqn:Herr.
  - rewrite pgTeamsLoop_failed by (unfold pageFailed; fold a; rewrite Herr; reflexivity).
    exists 1%nat. reflexivity.
  - destruct (length (answer_items a) <? 100)%nat eqn:Hlen.
    + rewrite pgTeamsLoop_short
        by (unfold pageShort; fold a; rewrite Herr; exact Hlen).
      exists 1%nat. apply teamsAbsorb_calls.
    + rewrite pgTeamsLoop_full
        by (unfold pageFull; fold a; rewrite Herr, Hlen; reflexivity).
      fold a. specialize (IH (int_wrap (page + 1)) (teamsAbsorb page a s)).
      destruct (pgTeamsLoop _ _ _ _) as [[] s'|e s'|]; [| |exact I];
        destruct IH as [n Hn]; exists (S n);
        rewrite Hn, teamsAbsorb_calls, <- app_assoc; reflexivity.
Qed.

Lemma pgInitializeLocalDataTeams_calls fuel client s e s' :
  pgInitializeLocalDataTeams fuel client s = Returned e s' ->
  exists n, pgApiCalls s' = pgApiCalls s ++ teamsRequestsFrom 1 n.
Proof.
  unfold pgInitializeLocalDataTeams.
  destruct (pgMutexInitializeLocalDataTeams s); [|discriminate].
  set (s1 := set_pgMutexInitializeLocalDataTeams Locked s).
  assert (Hunlock : forall x v x',
    pgTeamsUnlockReturn x = Returned v x' -> pgApiCalls x' = pgApiCalls x).
  { intros x v x'. unfold pgTeamsUnlockReturn.
    destruct (pgMutexInitializeLocalDataTeams x); [discriminate|].
    intros Heq. injection Heq as _ <-. reflexivity. }
  destruct (negb (pgDoneGetAllTeams s1)).
  - pose proof (pgTeamsLoop_calls client fuel 1 s1) as Hloop.
    destruct (pgTeamsLoop fuel client 1 s1) as [[] s2|e2 s2|]; [| |discriminate].
    + destruct Hloop as [n Hn]. intros Hret. apply Hunlock in Hret.
      exists n. rewrite Hret. exact Hn.
    + destruct Hloop as [n Hn]. intros Hret. injection Hret as _ <-.
      exists n. exact Hn.
  - intros Hret. apply Hunlock in Hret. exists 0%nat.
    rewrite Hret. cbn. rewrite app_nil_r. reflexivity.
Qed.

Lemma pgTeamReposLoop_calls client teamID fuel : forall page m s,
  match pgTeamReposLoop fuel client teamID page m s with
  | LoopBreak _ s' | LoopReturn _ s' =>
    exists n, n <> 0%nat /\
              pgApiCalls s' = pgApiCalls s ++ reposRequestsFrom teamID page n
  | LoopOutOfFuel => True
  end.
Proof.
  induction fuel as [|fuel IH]; intros page m s; [exact I|].
  set (a := reposAnswer client (pgApiCalls s) teamID page).
  destruct (answer_err a) as [e|] eqn:Herr.
  - rewrite pgTeamReposLoop_failed
      by (unfold pageFailed; fold a; rewrite Herr; reflexivity).
    exists 1%nat. split; [discriminate|reflexivity].
  - destruct (length (answer_items a) <? 100)%nat eqn:Hlen.
    + rewrite pgTeamReposLoop_short
        by (unfold pageShort; fold a; rewrite Herr; exact Hlen).
      exists 1%nat. split; [discriminate|reflexivity].
    + rewrite pgTeamReposLoop_full
        by (unfold pageFull; fold a; rewrite Herr, Hlen; reflexivity).
      fold a.
      specialize (IH (int_wrap (page + 1))
                    (index_by Repository_GetName (answer_items a) m)
                    (reposStore teamID page a s)).
      destruct (pgTeamReposLoop _ _ _ _ _ _) as [m' s'|e s'|]; [| |exact I];
        destruct IH as (n & _ & Hn); exists (S n); (split; [discriminate|]);
        rewrite Hn, reposStore_calls, <- app_assoc; reflexivity.
Qed.

(** A returning children load either was skipped, or has made at least one
    request, all of them for its own team, and has left the team's flag set
    or the team's mutex locked. *)
Lemma pgInitializeLocalDataTeamRepos_calls fuel client s teamID e s' :
  pgInitializeLocalDataTeamRepos fuel client s teamID = Returned e s' ->
  s' = s
  \/ (pgDoneGetAllTeamRepos s !! teamID <> Some true /\
      exists n, n <> 0%nat /\
        pgApiCalls s' = pgApiCalls s ++ reposRequestsFrom teamID 1 n).
Proof.
  intros Hret.
  pose proof (pgInitializeLocalDataTeamRepos_returned _ _ _ _ _ _ Hret)
    as (Hmutex & _ & _ & Hcases).
  destruct Hcases as [[_ ->]|Hcases]; [left; reflexivity|right].
  assert (Hdone : default false (pgDoneGetAllTeamRepos s !! teamID) = false)
    by (destruct Hcases as [(H & _)|(H & _)]; exact H).
  split; [intros Htrue; rewrite Htrue in Hdone; discriminate|].
  revert Hret. unfold pgInitializeLocalDataTeamRepos. rewrite Hmutex.
  fold (reposLockedState teamID s).
  change (pgDoneGetAllTeamRepos (reposLockedState teamID s))
    with (pgDoneGetAllTeamRepos s).
  rewrite Hdone. cbn [negb].
  pose proof (pgTeamReposLoop_calls client teamID fuel 1 ∅ (reposLockedState teamID s))
    as Hloop.
  destruct (pgTeamReposLoop _ _ _ _ _ _) as [m s2|e2 s2|]; [| |discriminate].
  - destruct Hloop as (n & Hn0 & Hn). intros Heq.
    assert (Hunlock : forall x v x',
      pgTeamReposUnlockReturn teamID x = Returned v x' -> pgApiCalls x' = pgApiCalls x).
    { intros x v x'. unfold pgTeamReposUnlockReturn.
      destruct (pgMutexInitializeLocalDataTeamRepos x !! teamID) as [[]|];
        [discriminate| |discriminate].
      intros Hx. injection Hx as _ <-. reflexivity. }
    apply Hunlock in Heq. exists n. split; [exact Hn0|]. rewrite Heq. exact Hn.
  - destruct Hloop as (n & Hn0 & Hn). intros Heq. injection Heq as _ <-.
    exists n. split; [exact Hn0|exact Hn].
Qed.

Lemma filter_teams_teamsRequestsFrom n : forall page,
  List.filter isTeamsRequest (teamsRequestsFrom page n) = teamsRequestsFrom page n.
Proof. induction n as [|n IH]; intros page; cbn; [reflexivity|]. rewrite IH. reflexivity. Qed.

Lemma filter_teams_reposRequestsFrom teamID n : forall page,
  List.filter isTeamsRequest (reposRequestsFrom teamID page n) = [].
Proof. induction n as [|n IH]; intros page; cbn; [reflexivity|]. apply IH. Qed.

Lemma filter_repos_teamsRequestsFrom teamID n : forall page,
  List.filter (isReposRequestFor teamID) (teamsRequestsFrom page n) = [].
Proof. induction n as [|n IH]; intros page; cbn; [reflexivity|]. apply IH. Qed.

Lemma filter_repos_reposRequestsFrom_same teamID n : forall page,
  List.filter (isReposRequestFor teamID) (reposRequestsFrom teamID page n)
  = reposRequestsFrom teamID page n.
Proof.
  induction n as [|n IH]; intros page; cbn; [reflexivity|].
  rewrite bool_decide_eq_true_2 by reflexivity. rewrite IH. reflexivity.
Qed.

Lemma filter_repos_reposRequestsFrom_other teamID other n : forall page,
  other <> teamID ->
  List.filter (isReposRequestFor teamID) (reposRequestsFrom other page n) = [].
Proof.
  induction n as [|n IH]; intros page Hne; cbn; [reflexivity|].
  rewrite bool_decide_eq_false_2 by exact Hne. apply IH, Hne.
Qed.

Lemma paginatedOnce_initial : paginatedOnce pgInitialState.
Proof.
  split; [exists 0%nat; reflexivity|].
  intros teamID. exists 0%nat. split; [reflexivity|congruence].
Qed.

Lemma paginatedOnce_step s s' :
  pgInvariant s -> paginatedOnce s -> pgStep s s' -> paginatedOnce s'.
Proof.
  intros [_ Hfresh] [Hteams Hrepos] Hstep.
  apply pgStep_load in Hstep as [(fuel & client & e & Hret)|(fuel & client & B & e & Hret)].
  - pose proof (pgInitializeLocalDataTeams_returned _ _ _ _ _ Hret)
      as (Hmutex & _ & _ & Hcases).
    destruct (pgInitializeLocalDataTeams_calls _ _ _ _ _ Hret) as [n Hn].
    destruct Hcases as [[_ ->]|Hcases]; [split; assumption|].
    assert (Hinit : s = pgInitialState).
    { destruct Hcases as [(Hd & _)|(Hd & _)]; exact (Hfresh Hd Hmutex). }
    subst s. cbn in Hn. split.
    + exists n. rewrite Hn. apply filter_teams_teamsRequestsFrom.
    + intros teamID. exists 0%nat. split; [|congruence].
      rewrite Hn. apply filter_repos_teamsRequestsFrom.
  - pose proof (pgInitializeLocalDataTeamRepos_returned _ _ _ _ _ _ Hret)
      as (Hmutex & _ & _ & Hcases).
    destruct (pgInitializeLocalDataTeamRepos_calls _ _ _ _ _ _ Hret)
      as [->|(Hnot & n & Hn0 & Hn)]; [split; assumption|].
    split.
    + destruct Hteams as [k Hk]. exists k.
      rewrite Hn, List.filter_app, filter_teams_reposRequestsFrom, app_nil_r. exact Hk.
    + intros teamID. destruct (Hrepos teamID) as (k & Hk & Hheld).
      destruct (decide (B = teamID)) as [->|Hne].
      * assert (Hk0 : k = 0%nat).
        { destruct k as [|k]; [reflexivity|].
          destruct (Hheld ltac:(discriminate)) as [Hd|Hm]; congruence. }
        subst k. exists n. split.
        -- rewrite Hn, List.filter_app, Hk, filter_repos_reposRequestsFrom_same.
           reflexivity.
        -- intros _.
           destruct Hcases as [[Hd _]|[(_ & _ & _ & Hdone' & _)|(_ & _ & _ & _ & Hmutex')]];
             [congruence| |].
           ++ left. rewrite Hdone'. apply lookup_insert_eq.
           ++ right. rewrite Hmutex'. apply lookup_insert_eq.
      * exists k. split.
        -- rewrite Hn, List.filter_app,
             (filter_repos_reposRequestsFrom_other teamID B n 1 Hne), app_nil_r.
           exact Hk.
        -- intros Hk0. specialize (Hheld Hk0).
           destruct Hcases as [[Hd _]|[(_ & _ & _ & Hdone' & Hmutex')
                                      |(_ & _ & _ & Hdone' & Hmutex')]];
             [congruence| |]; rewrite Hdone', Hmutex', ?lookup_insert_ne by exact Hne;
             exact Hheld.
Qed.

(** X11. In a sequential run, whatever the callers ask and however the
    upstream answers, no collection is paginated twice, not even after a
    failure: the teams requests ever made are those of one run of the page
    loop from page 1 (pages 1, 2, ... in order), and so are, for every team,
    the children requests ever made for it; a team with any such request has
    its flag set or its mutex locked for good. *)
Theorem every_collection_is_paginated_once_at_most (s : State) :
  pgReachable s ->
  (exists k, List.filter isTeamsRequest (pgApiCalls s) = teamsRequestsFrom 1 k) /\
  forall teamID : Z, exists k,
    List.filter (isReposRequestFor teamID) (pgApiCalls s)
    = reposRequestsFrom teamID 1 k /\
    (k <> 0%nat ->
     pgDoneGetAllTeamRepos s !! teamID = Some true \/
     pgMutexInitializeLocalDataTeamRepos s !! teamID = Some Locked).
Proof.
  change (pgReachable s -> paginatedOnce s).
  intros Hreach. unfold pgReachable in Hreach.
  assert (Hboth : forall s0, pgInvariant s0 /\ paginatedOnce s0 -> rtc pgStep s0 s ->
                             pgInvariant s /\ paginatedOnce s).
  { clear Hreach. intros s0 Hs0 Hsteps.
    induction Hsteps as [|s0 s1 s2 Hstep _ IH]; [exact Hs0|].
    apply IH. destruct Hs0 as [Hinv Honce]. split.
    - eapply pgInvariant_step; eassumption.
    - eapply paginatedOnce_step; eassumption. }
  apply (Hboth pgInitialState); [|exact Hreach].
  split; [apply pgInvariant_initial|apply paginatedOnce_initial].
Qed.

Lemma every_collection_is_paginated_once_at_most_witness :
  (exists k, List.filter isTeamsRequest (pgApiCalls Fixtures.team3Failed)
             = teamsRequestsFrom 1 k) /\
  forall teamID : Z, exists k,
    List.filter (isReposRequestFor teamID) (pgApiCalls Fixtures.team3Failed)
    = reposRequestsFrom teamID 1 k /\
    (k <> 0%nat ->
     pgDoneGetAllTeamRepos Fixtures.team3Failed !! teamID = Some true \/
     pgMutexInitializeLocalDataTeamRepos Fixtures.team3Failed !! teamID = Some Locked).
Proof.
  apply (every_collection_is_paginated_once_at_most Fixtures.team3Failed).
  apply rtc_l with Fixtures.smallLoaded; [exact smallLoaded_step|].
  apply rtc_once.
  apply (step_InitializeTeamRepos 2 Fixtures.smallClient Fixtures.smallLoaded 3
           (Some Fixtures.timeout)).
  vm_compute. reflexivity.
Defined.

(** ** Pages that never get short *)

(** X12. Neither page loop has a bound of its own: as long as the pages
    come back full and without error, the load keeps asking. If the first [n]
    pages of the listing are full, the load has not returned after [n]
    iterations - for the teams and for the children of a team alike. *)
Theorem loads_do_not_return_while_pages_are_full :
  (forall client s n,
      pgMutexInitializeLocalDataTeams s = Unlocked ->
      pgDoneGetAllTeams s = false ->
      forallb pageFull (teamsListing client (pgApiCalls s) 1 n) = true ->
      Z.of_nat n + 1 < 2 ^ 63 ->
      pgInitializeLocalDataTeams n client s = OutOfFuel /\
      forall id, pgGetTeamByTeamId n client s id = OutOfFuel) /\
  (forall client s teamID n,
      pgMutexInitializeLocalDataTeamRepos s !! teamID = Some Unlocked ->
      default false (pgDoneGetAllTeamRepos s !! teamID) = false ->
      forallb pageFull (reposListing client (pgApiCalls s) teamID 1 n) = true ->
      Z.of_nat n + 1 < 2 ^ 63 ->
      pgInitializeLocalDataTeamRepos n client s teamID = OutOfFuel /\
      forall repoName, pgGetRepoByTeamIDAndRepoName n client s teamID repoName = OutOfFuel).
Proof.
  split.
  - intros client s n Hmutex Hdone Hfull Hn.
    assert (Hload : pgInitializeLocalDataTeams n client s = OutOfFuel).
    { unfold pgInitializeLocalDataTeams. rewrite Hmutex.
      cbn [pgDoneGetAllTeams set_pgMutexInitializeLocalDataTeams]. rewrite Hdone.
      cbn [negb]. replace n with (n + 0)%nat at 1 by lia.
      rewrite pgTeamsLoop_full_pages by (try exact Hfull; lia). reflexivity. }
    split; [exact Hload|]. intros id. unfold pgGetTeamByTeamId. rewrite Hload. reflexivity.
  - intros client s teamID n Hmutex Hdone Hfull Hn.
    assert (Hload : pgInitializeLocalDataTeamRepos n client s teamID = OutOfFuel).
    { unfold pgInitializeLocalDataTeamRepos. rewrite Hmutex.
      fold (reposLockedState teamID s).
      change (pgDoneGetAllTeamRepos (reposLockedState teamID s))
        with (pgDoneGetAllTeamRepos s).
      rewrite Hdone. cbn [negb]. replace n with (n + 0)%nat at 1 by lia.
      rewrite pgTeamReposLoop_full_pages by (try exact Hfull; lia). reflexivity. }
    split; [exact Hload|]. intros repoName. unfold pgGetRepoByTeamIDAndRepoName.
    rewrite Hload. reflexivity.
Qed.

Lemma loads_do_not_return_while_pages_are_full_witness :
  (pgInitializeLocalDataTeams 3 MoreFixtures.endlessClient pgInitialState = OutOfFuel /\
   forall id, pgGetTeamByTeamId 3 MoreFixtures.endlessClient pgInitialState id = OutOfFuel) /\
  (pgInitializeLocalDataTeamRepos 3 MoreFixtures.endlessClient Fixtures.smallLoaded 1
   = OutOfFuel /\
   forall repoName,
     pgGetRepoByTeamIDAndRepoName 3 MoreFixtures.endlessClient Fixtures.smallLoaded 1
       repoName = OutOfFuel).
Proof.
  destruct loads_do_not_return_while_pages_are_full as [Hteams Hrepos].
  split.
  - apply (Hteams MoreFixtures.endlessClient pgInitialState 3%nat).
    + reflexivity.
    + reflexivity.
    + vm_compute. reflexivity.
    + lia.
  - apply (Hrepos MoreFixtures.endlessClient Fixtures.smallLoaded 1 3%nat).
    + vm_compute. reflexivity.
    + vm_compute. reflexivity.
    + vm_compute. reflexivity.
    + lia.
Defined.

(** ** Two callers and the one holder *)

(** X13. The children loads of two distinct teams do not wait for each
    other, and they share the holder that each of them writes on line 108 and
    reads again on lines 110, 114 and 118. There is an interleaving in which
    the caller for [teamA] fetches its page, the caller for [teamB] then
    fetches its own, and the caller for [teamA] goes on: whatever [teamA]'s
    page was, it stores the repositories of [teamB]'s page as the index of
    [teamA], sets [teamA]'s flag and returns nil. *)
Theorem interleaved_children_load_indexes_other_teams_page
    (clientA clientB : Client) (teamA teamB : Z) (s0 : State) :
  teamA <> teamB ->
  pgMutexInitializeLocalDataTeamRepos s0 !! teamA = Some Unlocked ->
  pgMutexInitializeLocalDataTeamRepos s0 !! teamB = Some Unlocked ->
  default false (pgDoneGetAllTeamRepos s0 !! teamA) = false ->
  default false (pgDoneGetAllTeamRepos s0 !! teamB) = false ->
  pageShort (reposAnswer clientB (pgApiCalls s0 ++ [reposRequest teamA 1]) teamB 1) = true ->
  exists d,
    rtc (duoStep clientA clientB teamA teamB)
        {| duo_state := s0; duo_pcA := AtLock; duo_pcB := AtLock |} d /\
    duo_pcA d = Finished None /\
    pgReposByTeamIdAndRepoName (duo_state d) !! teamA
    = Some (index_by Repository_GetName
              (answer_items
                 (reposAnswer clientB (pgApiCalls s0 ++ [reposRequest teamA 1]) teamB 1))
              ∅) /\
    pgDoneGetAllTeamRepos (duo_state d) !! teamA = Some true.
Proof.
  intros Hne HmA HmB HdA HdB Hshort.
  set (aA := reposAnswer clientA (pgApiCalls s0) teamA 1).
  set (aB := reposAnswer clientB (pgApiCalls s0 ++ [reposRequest teamA 1]) teamB 1) in *.
  assert (HerrB : answer_err aB = None).
  { unfold pageShort in Hshort. destruct (answer_err aB); [discriminate|reflexivity]. }
  assert (HlenB : (length (answer_items aB) <? 100)%nat = true).
  { unfold pageShort in Hshort. rewrite HerrB in Hshort. exact Hshort. }
  set (m := index_by Repository_GetName (answer_items aB) ∅).
  set (s1 := reposLockedState teamA s0).
  set (s2 := reposStore teamA 1 aA s1).
  set (s3 := reposLockedState teamB s2).
  set (s4 := reposStore teamB 1 aB s3).
  set (s5 := set_pgReposByTeamIdAndRepoName
               (<[teamA := m]> (pgReposByTeamIdAndRepoName s4)) s4).
  set (s6 := set_pgDoneGetAllTeamRepos (<[teamA := true]> (pgDoneGetAllTeamRepos s5)) s5).
  set (s7 := set_pgMutexInitializeLocalDataTeamRepos
               (<[teamA := Unlocked]> (pgMutexInitializeLocalDataTeamRepos s6)) s6).
  exists {| duo_state := s7; duo_pcA := Finished None; duo_pcB := AtErrCheck 1 ∅ |}.
  split; [|split; [reflexivity|split]].
  - (* the caller for teamA: lines 101-108 *)
    apply rtc_l with {| duo_state := s1; duo_pcA := AtCheck; duo_pcB := AtLock |}.
    { apply duo_stepA. cbn [reposThreadStep]. rewrite HmA. reflexivity. }
    apply rtc_l with {| duo_state := s1; duo_pcA := AtFetch 1 ∅; duo_pcB := AtLock |}.
    { apply duo_stepA. cbn [reposThreadStep].
      change (pgDoneGetAllTeamRepos s1) with (pgDoneGetAllTeamRepos s0).
      rewrite HdA. reflexivity. }
    apply rtc_l with {| duo_state := s2; duo_pcA := AtErrCheck 1 ∅; duo_pcB := AtLock |}.
    { apply duo_stepA. reflexivity. }
    (* the caller for teamB: lines 101-108 *)
    apply rtc_l with {| duo_state := s3; duo_pcA := AtErrCheck 1 ∅; duo_pcB := AtCheck |}.
    { apply duo_stepB. cbn [reposThreadStep].
      change (pgMutexInitializeLocalDataTeamRepos s2)
        with (<[teamA := Locked]> (pgMutexInitializeLocalDataTeamRepos s0)).
      rewrite lookup_insert_ne by exact Hne. rewrite HmB. reflexivity. }
    apply rtc_l with {| duo_state := s3; duo_pcA := AtErrCheck 1 ∅;
                        duo_pcB := AtFetch 1 ∅ |}.
    { apply duo_stepB. cbn [reposThreadStep].
      change (pgDoneGetAllTeamRepos s3) with (pgDoneGetAllTeamRepos s0).
      rewrite HdB. reflexivity. }
    apply rtc_l with {| duo_state := s4; duo_pcA := AtErrCheck 1 ∅;
                        duo_pcB := AtErrCheck 1 ∅ |}.
    { apply duo_stepB. reflexivity. }
    (* the caller for teamA again: lines 110-127 *)
    apply rtc_l with {| duo_state := s4; duo_pcA := AtIndex 1 ∅;
                        duo_pcB := AtErrCheck 1 ∅ |}.
    { apply duo_stepA. cbn [reposThreadStep].
      change (repos_err (pgGetAllTeamReposResponse s4)) with (answer_err aB).
      rewrite HerrB. reflexivity. }
    apply rtc_l with {| duo_state := s4; duo_pcA := AtLen 1 m;
                        duo_pcB := AtErrCheck 1 ∅ |}.
    { apply duo_stepA. reflexivity. }
    apply rtc_l with {| duo_state := s4; duo_pcA := AtStore m;
                        duo_pcB := AtErrCheck 1 ∅ |}.
    { apply duo_stepA. cbn [reposThreadStep].
      change (repos (pgGetAllTeamReposResponse s4)) with (answer_items aB).
      rewrite HlenB. reflexivity. }
    apply rtc_l with {| duo_state := s5; duo_pcA := AtSetDone;
                        duo_pcB := AtErrCheck 1 ∅ |}.
    { apply duo_stepA. reflexivity. }
    apply rtc_l with {| duo_state := s6; duo_pcA := AtUnlock;
                        duo_pcB := AtErrCheck 1 ∅ |}.
    { apply duo_stepA. reflexivity. }
    apply rtc_l with {| duo_state := s7; duo_pcA := AtReturn;
                        duo_pcB := AtErrCheck 1 ∅ |}.
    { apply duo_stepA. cbn [reposThreadStep].
      change (pgMutexInitializeLocalDataTeamRepos s6)
        with (<[teamB := Locked]>
                (<[teamA := Locked]> (pgMutexInitializeLocalDataTeamRepos s0))).
      rewrite lookup_insert_ne by congruence. rewrite lookup_insert_eq. reflexivity. }
    apply rtc_once. apply duo_stepA. cbn [reposThreadStep].
    change (repos_err (pgGetAllTeamReposResponse s7)) with (answer_err aB).
    rewrite HerrB. reflexivity.
  - cbn. apply lookup_insert_eq.
  - cbn. apply lookup_insert_eq.
Qed.

Lemma interleaved_children_load_indexes_other_teams_page_witness :
  exists d,
    rtc (duoStep Fixtures.smallClient Fixtures.smallClient 2 1)
        {| duo_state := Fixtures.smallLoaded; duo_pcA := AtLock; duo_pcB := AtLock |} d /\
    duo_pcA d = Finished None /\
    pgReposByTeamIdAndRepoName (duo_state d) !! 2
    = Some (index_by Repository_GetName [Fixtures.repo "infra"] ∅) /\
    pgDoneGetAllTeamRepos (duo_state d) !! 2 = Some true.
Proof.
  apply (interleaved_children_load_indexes_other_teams_page
           Fixtures.smallClient Fixtures.smallClient 2 1 Fixtures.smallLoaded).
  - discriminate.
  - vm_compute. reflexivity.
  - vm_compute. reflexivity.
  - vm_compute. reflexivity.
  - vm_compute. reflexivity.
  - vm_compute. reflexivity.
Defined.

(** ** After a teams load that failed *)

Lemma teamsFailedState_registry answers a s id :
  pgMutexInitializeLocalDataTeamRepos (teamsFailedState (answers ++ [a]) s) !! id
  = (if decide (id ∈ map Team_GetID (fetched answers)) then Some Unlocked
     else pgMutexInitializeLocalDataTeamRepos s !! id) /\
  pgDoneGetAllTeamRepos (teamsFailedState (answers ++ [a]) s) !! id
  = (if decide (id ∈ map Team_GetID (fetched answers)) then Some false
     else pgDoneGetAllTeamRepos s !! id).
Proof.
  unfold teamsFailedState. rewrite removelast_last. cbn.
  rewrite teamsAbsorbAll_mutex, teamsAbsorbAll_done. auto.
Qed.

(** X14. When the pagination of the teams load fails on page [k], the teams
    mutex stays locked and every later [pgGetTeamByTeamId] and
    [pgGetTeamByTeamSlug] waits in [Lock] for ever; but the teams of the
    pages before [k] are registered with a free mutex and a cleared flag, so
    the children lookups for them go on working: such a lookup returns as
    soon as that team's own pagination ends. *)
Theorem after_failed_teams_load_children_lookups_still_work
    (client : Client) (s : State) (k fuel : nat) :
  pgMutexInitializeLocalDataTeams s = Unlocked ->
  pgDoneGetAllTeams s = false ->
  endsFailed (teamsListing client (pgApiCalls s) 1 k) = true ->
  Z.of_nat k < 2 ^ 63 -> (k <= fuel)%nat ->
  exists e s',
    pgInitializeLocalDataTeams fuel client s = Returned (Some e) s' /\
    (forall fuel' client' id, pgGetTeamByTeamId fuel' client' s' id = Blocked s') /\
    (forall fuel' client' slug, pgGetTeamByTeamSlug fuel' client' s' slug = Blocked s') /\
    (forall T,
        T ∈ fetched (List.removelast (teamsListing client (pgApiCalls s) 1 k)) ->
        pgMutexInitializeLocalDataTeamRepos s' !! Team_GetID T = Some Unlocked /\
        pgDoneGetAllTeamRepos s' !! Team_GetID T = Some false /\
        forall fuel' client' k' repoName,
          endsShort (reposListing client' (pgApiCalls s') (Team_GetID T) 1 k') = true
          \/ endsFailed (reposListing client' (pgApiCalls s') (Team_GetID T) 1 k') = true ->
          Z.of_nat k' < 2 ^ 63 -> (k' <= fuel')%nat ->
          exists v s2,
            pgGetRepoByTeamIDAndRepoName fuel' client' s' (Team_GetID T) repoName
            = Returned v s2).
Proof.
  intros Hmutex Hdone Hends Hk Hfuel.
  pose proof (pgInitializeLocalDataTeams_fails fuel client s k
                Hmutex Hdone Hends Hk Hfuel) as Hret.
  set (answers := teamsListing client (pgApiCalls s) 1 k) in *.
  destruct (endsFailed_inv answers Hends) as (fulls & a & Heq & _ & Ha).
  clearbody answers. subst answers.
  assert (Hlast : lastAnswer (fulls ++ [a]) = a)
    by (unfold lastAnswer; apply last_last).
  rewrite Hlast in Hret.
  unfold pageFailed in Ha. destruct (answer_err a) as [e|] eqn:Herr; [|discriminate Ha].
  exists e, (teamsFailedState (fulls ++ [a]) s).
  destruct (failed_teams_load_blocks_later_calls _ _ _ _ _ Hdone Hret) as (_ & _ & Hblocked).
  split; [exact Hret|]. split; [|split].
  - intros fuel' client' id. unfold pgGetTeamByTeamId. rewrite Hblocked. reflexivity.
  - intros fuel' client' slug. unfold pgGetTeamByTeamSlug. rewrite Hblocked. reflexivity.
  - rewrite removelast_last. intros T HT.
    assert (Hid : Team_GetID T ∈ map Team_GetID (fetched fulls))
      by (apply (list_elem_of_fmap_2 Team_GetID); exact HT).
    destruct (teamsFailedState_registry fulls a s (Team_GetID T)) as [Hm Hd].
    rewrite decide_True in Hm by exact Hid. rewrite decide_True in Hd by exact Hid.
    split; [exact Hm|]. split; [exact Hd|].
    intros fuel' client' k' repoName Hends' Hk' Hfuel'.
    assert (Hd' : default false
                    (pgDoneGetAllTeamRepos (teamsFailedState (fulls ++ [a]) s)
                       !! Team_GetID T) = false)
      by (transitivity (default false (Some false)); [f_equal; exact Hd|reflexivity]).
    destruct Hends' as [Hends'|Hends'].
    + pose proof (pgInitializeLocalDataTeamRepos_succeeds fuel' client' _ _ k'
                    Hm Hd' Hends' Hk' Hfuel') as Hload.
      rewrite (pgGetRepoByTeamIDAndRepoName_after _ _ _ _ _ _ _ Hload).
      destruct (_ ≫= _); eauto.
    + pose proof (pgInitializeLocalDataTeamRepos_fails fuel' client' _ _ k'
                    Hm Hd' Hends' Hk' Hfuel') as Hload.
      rewrite (pgGetRepoByTeamIDAndRepoName_after _ _ _ _ _ _ _ Hload).
      destruct (_ ≫= _); eauto.
Qed.

Lemma after_failed_teams_load_children_lookups_still_work_witness :
  let client := Fixtures.fixedClient Fixtures.failsOnPage2 Fixtures.smallOrgRepos in
  exists e s',
    pgInitializeLocalDataTeams 2 client pgInitialState = Returned (Some e) s' /\
    (forall fuel' client' id, pgGetTeamByTeamId fuel' client' s' id = Blocked s') /\
    (forall fuel' client' slug, pgGetTeamByTeamSlug fuel' client' s' slug = Blocked s') /\
    (forall T,
        T ∈ map Fixtures.team (seq 1 100) ++ [] ->
        pgMutexInitializeLocalDataTeamRepos s' !! Team_GetID T = Some Unlocked /\
        pgDoneGetAllTeamRepos s' !! Team_GetID T = Some false /\
        forall fuel' client' k' repoName,
          endsShort (reposListing client' (pgApiCalls s') (Team_GetID T) 1 k') = true
          \/ endsFailed (reposListing client' (pgApiCalls s') (Team_GetID T) 1 k') = true ->
          Z.of_nat k' < 2 ^ 63 -> (k' <= fuel')%nat ->
          exists v s2,
            pgGetRepoByTeamIDAndRepoName fuel' client' s' (Team_GetID T) repoName
            = Returned v s2).
Proof.
  apply (after_failed_teams_load_children_lookups_still_work
           (Fixtures.fixedClient Fixtures.failsOnPage2 Fixtures.smallOrgRepos)
           pgInitialState 2 2).
  - reflexivity.
  - reflexivity.
  - vm_compute. reflexivity.
  - lia.
  - lia.
Defined.
